(** * The GCC option-space discovery of CompilerGym, in Rocq

    A shallow embedding of [compiler_gym/envs/gcc/gcc.py]: the option
    classes, the two help-text parsers, the fixup pass, the version query
    and the cached discovery [_get_spec]; and, in the module [LoopTool], of
    the session state of
    [compiler_gym/envs/loop_tool/service/loop_tool_compilation_session.py]
    with its methods [resize] and [apply_action].

    Conventions of the embedding.
    - A Python [str] is a Rocq [string]; its characters are the code points
      below 256, which is where the help text of GCC lives.  In that range
      the Unicode-aware primitives of Python ([str.split], [str.strip],
      [int], the classes [\s] and [\d] of [re]) are the ones written below.
    - A Python [int] is a [Z].
    - A raised exception is a value of [Py.exn]; only the class is kept,
      but for the exception of [pickle.load], whose text is logged.
    - A [dict] keyed by names is a [gmap string _]; the code never reads the
      insertion order of its dictionaries, it sorts their items.
    - Records of [logging] at level warning and above, and the pickle files
      of the cache directory, form the [world] that effectful code threads.
      Records of level debug are not kept. *)

From Stdlib Require Import ZArith DecimalString DecimalPos DecimalZ Ascii String.
From stdpp Require Import base option list gmap strings sorting.

Local Open Scope Z_scope.

(** ** Python primitives *)

Module Py.

(** Exception classes the program can meet. *)
Inductive exn : Type :=
| AssertionError
| ValueError
| IndexError
| OverflowError
| AttributeError
| TimeoutError            (* the builtin *)
| TimeoutExpired          (* subprocess.TimeoutExpired *)
| CalledProcessError      (* subprocess.CalledProcessError *)
| FileNotFoundError
| ServiceError            (* compiler_gym.service *)
| ServiceInitError        (* compiler_gym.service *)
| UnpicklingError
| EOFError.

(** Outcome of an expression: a value or a raised exception. *)
Inductive res (A : Type) : Type :=
| Ok (a : A)
| Raise (e : exn).
Global Arguments Ok {A} a.
Global Arguments Raise {A} e.

Definition res_bind {A B} (f : A → res B) (r : res A) : res B :=
  match r with
  | Ok a => f a
  | Raise e => Raise e
  end.

Global Instance res_ret : MRet res := λ A a, Ok a.
Global Instance res_mbind : MBind res := λ A B f r, res_bind f r.

(** [assert c] *)
Definition assert (c : bool) : res unit :=
  if c then Ok () else Raise AssertionError.

(** Modelled from the spec: the classes [ServiceError] and
    [ServiceInitError] are declared in [compiler_gym.service], outside the
    source at hand; the spec counts an execution failure and an unavailable
    environment as failure kinds of their own, distinct from a timeout, so
    neither derives from [subprocess.SubprocessError].

    [isinstance(e, subprocess.SubprocessError)]: the subclasses of
    [subprocess.SubprocessError] are [CalledProcessError] and
    [TimeoutExpired]. *)
Definition is_SubprocessError (e : exn) : bool :=
  match e with
  | TimeoutExpired | CalledProcessError => true
  | _ => false
  end.

(** *** Integers *)

(** [sys.maxsize] of CPython on a 64-bit platform. *)
Definition sys_maxsize : Z := 2 ^ 63 - 1.

(** The builtin [len] applied to the result [n] of a [__len__] method, and
    equally the truth-value protocol for a class that defines [__len__] but
    not [__bool__]: a negative result is a [ValueError], one above
    [sys.maxsize] an [OverflowError]. *)
Definition check_len (n : Z) : res Z :=
  if n <? 0 then Raise ValueError
  else if sys_maxsize <? n then Raise OverflowError
  else Ok n.

(** [str(n)] for an [int]. *)
Definition str_of_int (n : Z) : string :=
  NilZero.string_of_int (Z.to_int n).

(** *** Characters and strings *)

Definition code (c : ascii) : N := N_of_ascii c.

(** [lo <= c <= hi] on code points: a range [lo-hi] of a character class. *)
Definition in_range (lo hi c : ascii) : bool :=
  ((code lo <=? code c) && (code c <=? code hi))%N.

(** [c.isspace()] for a code point below 256: TAB to CR, FS to US, space,
    NEL and the no-break space. *)
Definition isspace (c : ascii) : bool :=
  let n := code c in
  (((9 <=? n) && (n <=? 13)) || ((28 <=? n) && (n <=? 32))
   || (n =? 133) || (n =? 160))%N.

(** A decimal digit, [c.isdecimal()], which is what [int] and [\d] accept:
    below 256 the ASCII digits. *)
Definition isdigit (c : ascii) : bool := in_range "0" "9" c.

Definition newline : ascii := "010"%char.

Definition is_empty (s : string) : bool :=
  match s with
  | EmptyString => true
  | String _ _ => false
  end.

(** [s.lstrip()], [s.rstrip()] and [s.strip()], for the white space [ws]. *)
Fixpoint lstrip_of (ws : ascii → bool) (s : string) : string :=
  match s with
  | EmptyString => EmptyString
  | String c r => if ws c then lstrip_of ws r else s
  end.

Fixpoint rstrip_of (ws : ascii → bool) (s : string) : string :=
  match s with
  | EmptyString => EmptyString
  | String c r =>
      let r' := rstrip_of ws r in
      if ws c && is_empty r' then EmptyString else String c r'
  end.

Definition strip_of (ws : ascii → bool) (s : string) : string :=
  rstrip_of ws (lstrip_of ws s).

(** [s.strip()] *)
Definition strip (s : string) : string := strip_of isspace s.

(** Put [c] in front of the first word of [l]. *)
Definition push_char (c : ascii) (l : list string) : list string :=
  match l with
  | [] => [String c EmptyString]
  | t :: ts => String c t :: ts
  end.

(** [s.split()]: the maximal runs of non-space characters. *)
Fixpoint split (s : string) : list string :=
  match s with
  | EmptyString => []
  | String c r =>
      if isspace c then split r
      else
        match r with
        | EmptyString => [String c EmptyString]
        | String c' _ =>
            if isspace c' then String c EmptyString :: split r
            else push_char c (split r)
        end
  end.

(** [s.split(sep)] for a separator of one character. *)
Fixpoint split_on (sep : ascii) (s : string) : list string :=
  match s with
  | EmptyString => [EmptyString]
  | String c r =>
      if Ascii.eqb c sep then EmptyString :: split_on sep r
      else push_char c (split_on sep r)
  end.

(** [s[len(p):]] when [s.startswith(p)]. *)
Fixpoint strip_prefix (p s : string) : option string :=
  match p with
  | EmptyString => Some s
  | String a p' =>
      match s with
      | EmptyString => None
      | String b s' => if Ascii.eqb a b then strip_prefix p' s' else None
      end
  end.

Definition startswith (s p : string) : bool :=
  bool_decide (is_Some (strip_prefix p s)).

(** [sub in s] *)
Fixpoint contains (sub s : string) : bool :=
  startswith s sub ||
  match s with
  | EmptyString => false
  | String _ r => contains sub r
  end.

(** [xs[key]] on a list: a negative key counts from the end, a key out of
    range is an [IndexError]. *)
Definition index {A} (xs : list A) (key : Z) : res A :=
  let n := Z.of_nat (length xs) in
  let k := if key <? 0 then key + n else key in
  if (k <? 0) || (n <=? k) then Raise IndexError
  else
    match xs !! Z.to_nat k with
    | Some x => Ok x
    | None => Raise IndexError
    end.

(** *** [int(s)] for a string *)

(** Drop the underscores that stand between two digits; any other
    underscore makes the literal invalid. [prev] tells whether the previous
    character was a digit. *)
Fixpoint drop_underscores (prev : bool) (s : string) : option string :=
  match s with
  | EmptyString => Some EmptyString
  | String c r =>
      if Ascii.eqb c "_" then
        match r with
        | String c' _ =>
            if prev && isdigit c' then drop_underscores false r else None
        | EmptyString => None
        end
      else String c <$> drop_underscores (isdigit c) r
  end.

(** The digits of an unsigned decimal literal. *)
Definition int_of_digits (s : string) : option Z :=
  ds ← drop_underscores false s;
  Z.of_uint <$> NilZero.uint_of_string ds.

(** The white space [int] skips around a numeral: that of [isspace] but
    for the separators FS to US. *)
Definition int_space (c : ascii) : bool :=
  (isspace c && negb ((28 <=? code c) && (code c <=? 31)))%N.

(** [int(s)]: surrounding white space, an optional sign, decimal digits.
    The bound that recent versions of CPython put on the number of digits
    of a conversion is left out, here and in [str_of_int]. *)
Definition int (s : string) : res Z :=
  let t := strip_of int_space s in
  let r :=
    match t with
    | String "-" u => Z.opp <$> int_of_digits u
    | String "+" u => int_of_digits u
    | _ => int_of_digits t
    end in
  match r with
  | Some z => Ok z
  | None => Raise ValueError
  end.

(** *** The fragment of [re] the program uses

    Every pattern of the program is a sequence of literals, of character
    classes under [+], and of optional characters, with capture groups
    around some of them, and it is applied with [fullmatch]. *)

Inductive atom : Type :=
| Lit (s : string)            (* the characters of [s] *)
| Plus (cls : ascii → bool)   (* [[cls]+], greedy *)
| Opt (c : ascii).            (* [c?], greedy *)

(** Greedy [+] with backtracking: take as many characters of the class as
    possible, give back one at a time while the continuation [k] fails.
    [k] receives the text taken and the rest. *)
Fixpoint plus_loop {R} (cls : ascii → bool) (s : string)
    (k : string → string → option R) : option R :=
  match s with
  | EmptyString => None
  | String c r =>
      if cls c then
        match plus_loop cls r (λ a r', k (String c a) r') with
        | Some g => Some g
        | None => k (String c EmptyString) r
        end
      else None
  end.

(** Match the whole of [s] against the atoms [p]; the result is the text
    each atom took. *)
Fixpoint match_atoms (p : list atom) (s : string) : option (list string) :=
  match p with
  | [] => if is_empty s then Some [] else None
  | Lit l :: p' =>
      r ← strip_prefix l s;
      cons l <$> match_atoms p' r
  | Plus cls :: p' =>
      plus_loop cls s (λ a r, cons a <$> match_atoms p' r)
  | Opt c :: p' =>
      let skip := cons EmptyString <$> match_atoms p' s in
      match s with
      | String c' r =>
          if Ascii.eqb c c' then
            match match_atoms p' r with
            | Some g => Some (String c EmptyString :: g)
            | None => skip
            end
          else skip
      | EmptyString => skip
      end
  end.

(** A pattern: its pieces in order, each a run of atoms, captured or not. *)
Definition pattern : Type := list (bool * list atom).

Definition atoms_of (p : pattern) : list atom := concat (snd <$> p).

Definition join (l : list string) : string :=
  foldr String.append EmptyString l.

(** From the texts of the atoms to the texts of the capture groups. *)
Fixpoint groups_of (p : pattern) (texts : list string) : list string :=
  match p with
  | [] => []
  | (captured, atoms) :: p' =>
      let n := length atoms in
      let t := join (take n texts) in
      (if captured then [t] else []) ++ groups_of p' (drop n texts)
  end.

(** [p.fullmatch(s)]: [None], or the groups of the match. *)
Definition fullmatch (p : pattern) (s : string) : option (list string) :=
  groups_of p <$> match_atoms (atoms_of p) s.

(** [m.group(i)] for [i >= 1]. *)
Definition group (m : list string) (i : nat) : string :=
  nth (pred i) m EmptyString.

End Py.

Export Py (exn(..), res(..)).

(** ** The option classes *)

(** The subclasses of [Option], with the attributes their constructors
    set.  [GccFlagOption] carries [no_fno], which is [False] unless the
    fixups set it. *)
Inductive Option : Type :=
| GccOOption (values : list string)
| GccFlagOption (name : string) (no_fno : bool)
| GccFlagEnumOption (name : string) (values : list string)
| GccFlagIntOption (name : string) (min max : Z)
| GccFlagAlignOption (name : string)
| GccParamEnumOption (name : string) (values : list string)
| GccParamIntOption (name : string) (min max : Z).

(** [option.__len__()] *)
Definition __len__ (o : Option) : Z :=
  match o with
  | GccOOption values => Z.of_nat (length values)
  | GccFlagOption _ no_fno => if no_fno then 1 else 2
  | GccFlagEnumOption _ values => Z.of_nat (length values)
  | GccFlagIntOption _ min max => max - min + 1
  | GccFlagAlignOption _ => 1
  | GccParamEnumOption _ values => Z.of_nat (length values)
  | GccParamIntOption _ min max => max - min + 1
  end.

(** [len(option)] *)
Definition len (o : Option) : res Z := Py.check_len (__len__ o).

(** The truth value of an option, as [if opt:] and [not opt] take it: the
    classes define [__len__] and no [__bool__]. *)
Definition truth (o : Option) : res bool :=
  n ← len o; Ok (negb (n =? 0)).

(** [option[key]] *)
Definition __getitem__ (o : Option) (key : Z) : res string :=
  match o with
  | GccOOption values =>
      v ← Py.index values key; Ok ("-O" +:+ v)
  | GccFlagOption name _ =>
      Ok ("-f" +:+ (if key =? 0 then EmptyString else "no-") +:+ name)
  | GccFlagEnumOption name values =>
      v ← Py.index values key; Ok ("-f" +:+ name +:+ "=" +:+ v)
  | GccFlagIntOption name min _ =>
      Ok ("-f" +:+ name +:+ "=" +:+ Py.str_of_int (min + key))
  | GccFlagAlignOption name =>
      Ok ("-f" +:+ name)
  | GccParamEnumOption name values =>
      v ← Py.index values key; Ok ("--param=" +:+ name +:+ "=" +:+ v)
  | GccParamIntOption name min _ =>
      Ok ("--param=" +:+ name +:+ "=" +:+ Py.str_of_int (min + key))
  end.

(** [str(option)] *)
Definition __str__ (o : Option) : string :=
  match o with
  | GccOOption _ => "-O"
  | GccFlagOption name _ => "-f" +:+ name
  | GccFlagEnumOption name _ => "-f" +:+ name
  | GccFlagIntOption name _ _ => "-f" +:+ name
  | GccFlagAlignOption name => "-f" +:+ name
  | GccParamEnumOption name _ => "--param=" +:+ name
  | GccParamIntOption name _ _ => "--param=" +:+ name
  end.

(** [type(opt) == GccOOption], [type(opt) == GccFlagOption] and the
    [isinstance] tests of the fixups (no class has a subclass). *)
Definition is_GccOOption (o : Option) : bool :=
  match o with GccOOption _ => true | _ => false end.

Definition is_GccFlagOption (o : Option) : bool :=
  match o with GccFlagOption _ _ => true | _ => false end.

(** The name of an option: its attribute [name], and for the [-O] option,
    which has none, the key ["O"] under which the parser files it. *)
Definition option_name (o : Option) : string :=
  match o with
  | GccOOption _ => "O"
  | GccFlagOption name _ => name
  | GccFlagEnumOption name _ => name
  | GccFlagIntOption name _ _ => name
  | GccFlagAlignOption name => name
  | GccParamEnumOption name _ => name
  | GccParamIntOption name _ _ => name
  end.

(** ** The compiler and the spec *)

(** What happened to a container that [_docker_run] started.  A failure of
    the docker client itself is not part of the model. *)
Inductive container_outcome : Type :=
| ReadTimeout                          (* [container.wait] raised on its timeout *)
| Exited (status : Z) (logs : string). (* it ended; its stdout *)

(** A [Gcc] object together with the environment it runs in: for each
    argument list, what [subprocess.check_output] does with the binary, and
    what the container of the docker image does. *)
Record Gcc : Type := {
  bin : string;
  check_output : list string → res string;
  container : list string → container_outcome;
}.

(** When [container.wait] raises, the [except] clause is evaluated to find
    the class it names, [docker.exceptions.ReadTimeout].  The package
    [docker] has no attribute [exceptions] (its exception classes are those
    of [docker.errors], which the rest of the file uses), so the lookup
    raises [AttributeError] and the [raise TimeoutError(...)] of the handler
    is never reached. *)
Definition join_docker_container (c : container_outcome) : res string :=
  match c with
  | ReadTimeout => Raise Py.AttributeError
  | Exited status logs =>
      if bool_decide (status ≠ 0) then Raise ServiceError else Ok logs
  end.

Definition _docker_run (gcc : Gcc) (args : list string) : res string :=
  join_docker_container (container gcc args).

Definition _subprocess_run (gcc : Gcc) (args : list string) : res string :=
  match check_output gcc args with
  | Raise Py.CalledProcessError => Raise ServiceError
  | Raise Py.FileNotFoundError => Raise ServiceInitError
  | r => r
  end.

(** [gcc(args..., timeout=...)]: the method [Gcc.__call__] *)
Definition call (gcc : Gcc) (args : list string) : res string :=
  if Py.startswith (bin gcc) "docker:" then _docker_run gcc args
  else _subprocess_run gcc args.

Record GccSpec : Type := {
  gcc : Gcc;
  version : string;
  options : list Option;
}.

(** The loop of [GccSpec.size], from the accumulator [sz]. *)
Fixpoint size_loop (opts : list Option) (sz : Z) : res Z :=
  match opts with
  | [] => Ok sz
  | option :: rest => n ← len option; size_loop rest (sz * (n + 1))
  end.

(** [spec.size] *)
Definition size (spec : GccSpec) : res Z := size_loop (options spec) 1.

(** The size as the data model words it: the product of the cardinalities
    plus one, over the option list. *)
Definition cardinality_product (cards : list Z) : Z :=
  foldr (λ n acc, (n + 1) * acc) 1 cards.

(** ** The world: log records and the cache directory *)

Inductive level : Type := WARNING | ERROR.

(** What [pickle.load] does with a file of the cache: it returns a spec, or
    raises an exception [e] with the text [str(e)]. *)
Inductive pickle_file : Type :=
| Pickled (spec : GccSpec)
| Damaged (e : exn) (text : string).

Record world : Type := {
  logs : list (level * string);
  files : gmap string pickle_file;
}.

(** Effectful code: from a world to an outcome and the world it leaves. *)
Definition M (A : Type) : Type := world → res A * world.

Global Instance M_ret : MRet M := λ A a w, (Ok a, w).
Global Instance M_bind : MBind M := λ A B f m w,
  match m w with
  | (Ok a, w') => f a w'
  | (Raise e, w') => (Raise e, w')
  end.

(** A pure outcome inside effectful code. *)
Definition lift {A} (r : res A) : M A := λ w, (r, w).

(** The world after one more log record. *)
Definition logged (l : level) (msg : string) (w : world) : world :=
  {| logs := logs w ++ [(l, msg)]; files := files w |}.

Definition logging (l : level) (msg : string) : M unit :=
  λ w, (Ok (), logged l msg w).

Definition isfile (path : string) : M bool :=
  λ w, (Ok (bool_decide (is_Some (files w !! path))), w).

Definition pickle_load (path : string) : M GccSpec :=
  λ w, match files w !! path with
       | Some (Pickled spec) => (Ok spec, w)
       | Some (Damaged e _) => (Raise e, w)
       | None => (Raise Py.FileNotFoundError, w)
       end.

(** [str(e)] for the exception that [pickle.load] raised on the file at
    [path]. *)
Definition exception_text (path : string) (w : world) : string :=
  match files w !! path with
  | Some (Damaged _ text) => text
  | _ => EmptyString
  end.

(** Modelled from the spec: [atomic_file_write], of
    [compiler_gym.util.filesystem], is outside the source at hand; the spec
    has the write go to a temporary file that then replaces the target, with
    the parent directories created as needed, so that afterwards the file
    holds the pickled spec.

    [spec_path.parent.mkdir(...)] and [pickle.dump(spec, f)] under
    [atomic_file_write(spec_path, fileobj=True)]. *)
Definition pickle_dump (spec : GccSpec) (path : string) : M unit :=
  λ w, (Ok (), {| logs := logs w; files := <[path := Pickled spec]> (files w) |}).

(** [for x in xs: body(x)] over a state [s] the body updates. *)
Fixpoint for_each {A S} (body : A → S → M S) (xs : list A) (s : S) : M S :=
  match xs with
  | [] => mret s
  | x :: rest => s' ← body x s; for_each body rest s'
  end.

(** [sorted(list(d.items()))] followed by the projection on the values.  The
    keys of a dictionary are distinct, so the order on the pairs is the
    order of the keys, the order of [str]: by code point, a prefix first. *)
Definition key_le (a b : string * Option) : Prop :=
  String.leb a.1 b.1 = true.

Global Instance key_le_dec a b : Decision (key_le a b) :=
  decide (String.leb a.1 b.1 = true).

Definition sorted_values (d : gmap string Option) : list Option :=
  snd <$> merge_sort key_le (map_to_list d).

(** ** Character classes of the patterns *)

Definition lower (c : ascii) : bool := Py.in_range "a" "z" c.
Definition upper (c : ascii) : bool := Py.in_range "A" "Z" c.
Definition is_char (a c : ascii) : bool := Ascii.eqb c a.

(** [[a-z]] *)
Definition cls_level : ascii → bool := lower.
(** [[-a-z]] *)
Definition cls_align (c : ascii) : bool := is_char "-" c || lower c.
(** [[-a-z0-9]] *)
Definition cls_flag (c : ascii) : bool :=
  is_char "-" c || lower c || Py.isdigit c.
(** [[-A-Za-z_\|]] *)
Definition cls_value (c : ascii) : bool :=
  is_char "-" c || upper c || lower c || is_char "_" c || is_char "|" c.
(** [[0-9]] *)
Definition cls_digit : ascii → bool := Py.isdigit.
(** [[-a-zA-Z0-9]] *)
Definition cls_param (c : ascii) : bool :=
  is_char "-" c || lower c || upper c || Py.isdigit c.

(** The synthetic upper bound of a number without documented bounds,
    [2 << 31 - 1]: in Python the shift binds weaker than the subtraction. *)
Definition unbounded_max : Z := Z.shiftl 2 (31 - 1).

(** ** [_gcc_parse_optimize] *)

Module Optimize.
Import Py.

(** ["-O<number>"] *)
Definition O_num_pat : pattern :=
  [(false, [Lit "-O<number>"])].
(** ["-O([a-z]+)"] *)
Definition O_pat : pattern :=
  [(false, [Lit "-O"]); (true, [Plus cls_level])].
(** ["-f(align-[-a-z]+)="] *)
Definition flag_align_eq_pat : pattern :=
  [(false, [Lit "-f"]); (true, [Lit "align-"; Plus cls_align]);
   (false, [Lit "="])].
(** ["-f([-a-z0-9]+)"] *)
Definition flag_pat : pattern :=
  [(false, [Lit "-f"]); (true, [Plus cls_flag])].
(** ["-f([-a-z0-9]+)=\[([-A-Za-z_\|]+)\]"] *)
Definition flag_enum_pat : pattern :=
  [(false, [Lit "-f"]); (true, [Plus cls_flag]); (false, [Lit "=["]);
   (true, [Plus cls_value]); (false, [Lit "]"])].
(** ["-f([-a-z0-9]+)=<([0-9]+),([0-9]+)>"] *)
Definition flag_interval_pat : pattern :=
  [(false, [Lit "-f"]); (true, [Plus cls_flag]); (false, [Lit "=<"]);
   (true, [Plus cls_digit]); (false, [Lit ","]); (true, [Plus cls_digit]);
   (false, [Lit ">"])].
(** ["-f([-a-z0-9]+)=<number>"] *)
Definition flag_number_pat : pattern :=
  [(false, [Lit "-f"]); (true, [Plus cls_flag]); (false, [Lit "=<number>"])].

(** The nested functions take the dictionary [options] of the enclosing
    call as an argument and return the updated one. *)

Definition add_gcc_o (value : string) (opts : gmap string Option)
    : M (gmap string Option) :=
  let name := "O" in
  let opt := default (GccOOption []) (opts !! name) in
  let opts := <[name := opt]> opts in
  _ ← lift (assert (is_GccOOption opt));
  match opt with
  | GccOOption values => mret (<[name := GccOOption (values ++ [value])]> opts)
  | _ => mret opts
  end.

Definition add_gcc_flag (name : string) (opts : gmap string Option)
    : M (gmap string Option) :=
  mret (<[name := default (GccFlagOption name false) (opts !! name)]> opts).

(** [opt = options.get(name)] followed by
    [if opt: assert type(opt) == GccFlagOption]. *)
Definition check_overwrite (name : string) (opts : gmap string Option)
    : res unit :=
  match opts !! name with
  | None => Ok ()
  | Some opt =>
      t ← truth opt;
      if t : bool then assert (is_GccFlagOption opt) else Ok ()
  end.

Definition add_gcc_flag_enum (name : string) (values : list string)
    (opts : gmap string Option) : M (gmap string Option) :=
  _ ← lift (check_overwrite name opts);
  mret (<[name := GccFlagEnumOption name values]> opts).

Definition add_gcc_flag_int (name : string) (min max : Z)
    (opts : gmap string Option) : M (gmap string Option) :=
  _ ← lift (check_overwrite name opts);
  mret (<[name := GccFlagIntOption name min max]> opts).

(** The constructor of [GccFlagAlignOption] logs a warning. *)
Definition add_gcc_flag_align (name : string) (opts : gmap string Option)
    : M (gmap string Option) :=
  _ ← lift (check_overwrite name opts);
  _ ← logging WARNING ("Alignment options not properly handled " +:+ name);
  mret (<[name := GccFlagAlignOption name]> opts).

Definition parse_line (line : string) (opts : gmap string Option)
    : M (gmap string Option) :=
  match split line with
  | [] => mret opts
  | spec :: _ =>
  match fullmatch O_num_pat spec with
  | Some m =>
      for_each (λ i, add_gcc_o (str_of_int i)) [0; 1; 2; 3] opts
  | None =>
  match fullmatch O_pat spec with
  | Some m => add_gcc_o (group m 1) opts
  | None =>
  match fullmatch flag_align_eq_pat spec with
  | Some m => add_gcc_flag_align (group m 1) opts
  | None =>
  match fullmatch flag_pat spec with
  | Some m => add_gcc_flag (group m 1) opts
  | None =>
  match fullmatch flag_enum_pat spec with
  | Some m =>
      let name := group m 1 in
      let values := split_on "|" (group m 2) in
      add_gcc_flag_enum name values opts
  | None =>
  match fullmatch flag_interval_pat spec with
  | Some m =>
      let name := group m 1 in
      min ← lift (int (group m 2));
      max ← lift (int (group m 3));
      add_gcc_flag_int name min max opts
  | None =>
  match fullmatch flag_number_pat spec with
  | Some m =>
      let name := group m 1 in
      let min := 0 in
      let max := unbounded_max in
      add_gcc_flag_int name min max opts
  | None =>
      _ ← logging WARNING
            ("Unknown GCC optimization flag spec, '" +:+ line +:+ "'");
      mret opts
  end end end end end end end
  end.

End Optimize.

Definition _gcc_parse_optimize (gcc : Gcc) : M (list Option) :=
  result ← lift (call gcc ["--help=optimize"; "-Q"]);
  let out := tail (Py.split_on Py.newline result) in
  opts ← for_each (λ line, Optimize.parse_line (Py.strip line)) out ∅;
  mret (sorted_values opts).

(** ** [_gcc_parse_params] *)

Module Params.
Import Py.

(** ["--param=([-a-zA-Z0-9]+)=\[([-A-Za-z_\|]+)\]"] *)
Definition param_enum_pat : pattern :=
  [(false, [Lit "--param="]); (true, [Plus cls_param]); (false, [Lit "=["]);
   (true, [Plus cls_value]); (false, [Lit "]"])].
(** ["--param=([-a-zA-Z0-9]+)=<(-?[0-9]+),([0-9]+)>"] *)
Definition param_interval_pat : pattern :=
  [(false, [Lit "--param="]); (true, [Plus cls_param]); (false, [Lit "=<"]);
   (true, [Opt "-"; Plus cls_digit]); (false, [Lit ","]);
   (true, [Plus cls_digit]); (false, [Lit ">"])].
(** ["--param=([-a-zA-Z0-9]+)="] *)
Definition param_number_pat : pattern :=
  [(false, [Lit "--param="]); (true, [Plus cls_param]); (false, [Lit "="])].
(** ["([-a-zA-Z0-9]+)\s+default\s+(-?\d+)\s+minimum\s+(-?\d+)\s+maximum\s+(-?\d+)"] *)
Definition param_old_interval_pat : pattern :=
  [(true, [Plus cls_param]);
   (false, [Plus isspace; Lit "default"; Plus isspace]);
   (true, [Opt "-"; Plus isdigit]);
   (false, [Plus isspace; Lit "minimum"; Plus isspace]);
   (true, [Opt "-"; Plus isdigit]);
   (false, [Plus isspace; Lit "maximum"; Plus isspace]);
   (true, [Opt "-"; Plus isdigit])].

(** [opt = params.get(name)] followed by [assert not opt]. *)
Definition check_absent (name : string) (params : gmap string Option)
    : res unit :=
  match params !! name with
  | None => Ok ()
  | Some opt => t ← truth opt; assert (negb t)
  end.

Definition add_gcc_param_enum (name : string) (values : list string)
    (params : gmap string Option) : M (gmap string Option) :=
  _ ← lift (check_absent name params);
  mret (<[name := GccParamEnumOption name values]> params).

Definition add_gcc_param_int (name : string) (min max : Z)
    (params : gmap string Option) : M (gmap string Option) :=
  _ ← lift (check_absent name params);
  mret (<[name := GccParamIntOption name min max]> params).

Definition is_int (s : string) : bool :=
  match int s with
  | Ok _ => true
  | Raise _ => false
  end.

(** The last two shapes of [parse_line], to which control falls when an
    earlier shape matched but did not return. *)
Definition parse_old (line : string) (params : gmap string Option)
    : M (gmap string Option) :=
  let unknown :=
    _ ← logging WARNING ("Unknown GCC param flag spec, '" +:+ line +:+ "'");
    mret params in
  match fullmatch param_old_interval_pat line with
  | Some m =>
      let name := group m 1 in
      default ← lift (int (group m 2));
      min ← lift (int (group m 3));
      max ← lift (int (group m 4));
      if (min <=? default) && (default <=? max) then
        add_gcc_param_int name min max params
      else unknown
  | None => unknown
  end.

Definition parse_number (spec default line : string)
    (params : gmap string Option) : M (gmap string Option) :=
  match fullmatch param_number_pat spec with
  | Some m =>
      let name := group m 1 in
      let min := 0 in
      let max := unbounded_max in
      if is_int default then
        dflt ← lift (int default);
        let min := if min <=? dflt then min else dflt in
        add_gcc_param_int name min max params
      else parse_old line params
  | None => parse_old line params
  end.

Definition parse_line (line : string) (params : gmap string Option)
    : M (gmap string Option) :=
  match split line with
  | [] => mret params
  | [_] => mret params
  | spec :: default :: _ =>
  match fullmatch param_enum_pat spec with
  | Some m =>
      let name := group m 1 in
      let values := split_on "|" (group m 2) in
      _ ← lift (assert (is_empty default || bool_decide (default ∈ values)));
      add_gcc_param_enum name values params
  | None =>
  match fullmatch param_interval_pat spec with
  | Some m =>
      let name := group m 1 in
      min ← lift (int (group m 2));
      max ← lift (int (group m 3));
      if is_int default then
        _ ← lift (
          if is_empty default then Ok ()
          else d ← int default; assert ((min <=? d) && (d <=? max)));
        add_gcc_param_int name min max params
      else parse_number spec default line params
  | None => parse_number spec default line params
  end end
  end.

End Params.

Definition _gcc_parse_params (gcc : Gcc) : M (list Option) :=
  result ← lift (call gcc ["--help=param"; "-Q"]);
  let out := tail (Py.split_on Py.newline result) in
  params ← for_each (λ line, Params.parse_line (Py.strip line)) out ∅;
  mret (sorted_values params).

(** ** [_fix_options] *)

(** The nested [keep]. *)
Definition keep (option : Option) : bool :=
  match option with
  | GccFlagEnumOption name _ => negb (String.eqb name "live-patching")
  | _ => true
  end.

(** One turn of the loop over the kept options: what the option at index
    [i] is afterwards, whether updated in place or replaced in the list. *)
Definition fix_option (option : Option) : Option :=
  match option with
  | GccParamIntOption name min max =>
      if bool_decide (name ∈ ["logical-op-non-short-circuit";
                               "prefetch-minimum-stride";
                               "sched-autopref-queue-depth";
                               "vect-max-peeling-for-alignment"])
      then GccParamIntOption name 0 max
      else option
  | GccFlagOption name no_fno =>
      let name :=
        if String.eqb name "handle-exceptions" then "exceptions" else name in
      let no_fno :=
        if bool_decide (name ∈ ["stack-protector-all";
                                 "stack-protector-explicit";
                                 "stack-protector-strong"])
        then true else no_fno in
      let name :=
        if String.eqb name "no-threadsafe-statics" then "threadsafe-statics"
        else name in
      GccFlagOption name no_fno
  | GccFlagIntOption name min max =>
      if String.eqb name "pack-struct" then
        let values := (λ j, Py.str_of_int (Z.shiftl 1 j)) <$> [0; 1; 2; 3; 4] in
        GccFlagEnumOption "pack-struct" values
      else option
  | _ => option
  end.

Definition _fix_options (opts : list Option) : list Option :=
  fix_option <$> filter (λ opt, keep opt = true) opts.

(** ** The version and the cache *)

(** The body of the [try] statement of [_gcc_get_version]. *)
Definition version_try (gcc : Gcc) : res string :=
  result ← call gcc ["--version"];
  ver ← Py.index (Py.split_on Py.newline result) 0;
  if negb (Py.contains "gcc" ver) then Raise ServiceError else Ok ver.

Definition _gcc_get_version (gcc : Gcc) : M (option string) :=
  match version_try gcc with
  | Ok ver => mret (Some ver)
  | Raise e =>
      if Py.is_SubprocessError e then
        _ ← logging ERROR "Unable to get GCC version";
        mret None
      else lift (Raise e)
  end.

(** [ord(c)] *)
Definition ord (c : ascii) : Z := Z.of_N (Py.code c).

Definition _version_hash (ver : string) : string :=
  let h := fold_left (λ h c, ord c + 31 * h) (list_ascii_of_string ver) 0 in
  Py.str_of_int (h `mod` Z.shiftl 2 64).

(** [cache_dir / _version_hash(version) / "spec.pkl"] *)
Definition spec_path (cache_dir ver : string) : string :=
  cache_dir +:+ "/" +:+ _version_hash ver +:+ "/spec.pkl".

(** The branch of [_get_spec] that parses when no pickled spec was read. *)
Definition parse_spec (g : Gcc) (ver path : string) : M (option GccSpec) :=
  optim_opts ← _gcc_parse_optimize g;
  param_opts ← _gcc_parse_params g;
  let opts := _fix_options (optim_opts ++ param_opts) in
  let spec := {| gcc := g; version := ver; options := opts |} in
  match options spec with
  | [] => mret None
  | _ :: _ =>
      _ ← pickle_dump spec path;
      mret (Some spec)
  end.

(** The record of [logging.warning("Unable to read spec from '%s': %s",
    spec_path, e)]. *)
Definition unable_to_read (path text : string) : string :=
  "Unable to read spec from '" +:+ path +:+ "': " +:+ text.

(** The attempt to read the pickled spec: [None] when the file is damaged
    in one of the two ways the code expects, after a warning that names the
    path and gives the text of the exception. *)
Definition read_spec (g : Gcc) (path : string) : M (option GccSpec) :=
  λ w, match pickle_load path w with
       | (Ok spec, w') =>
           (Ok (Some {| gcc := g; version := version spec;
                        options := options spec |}), w')
       | (Raise e, w') =>
           match e with
           | Py.UnpicklingError | Py.EOFError =>
               (_ ← logging WARNING (unable_to_read path (exception_text path w));
                mret None) w'
           | _ => (Raise e, w')
           end
       end.

Definition _get_spec (g : Gcc) (cache_dir : string) : M (option GccSpec) :=
  ver ← _gcc_get_version g;
  match ver with
  | None => mret None
  | Some ver =>
      if Py.is_empty ver then mret None
      else
        let path := spec_path cache_dir ver in
        cached ← isfile path;
        spec ← (if cached : bool then read_spec g path else mret None);
        spec ← match spec with
               | Some spec => mret (Some spec)
               | None => parse_spec g ver path
               end;
        match spec with
        | None => mret None
        | Some spec =>
            (* the argument [round(math.log(spec.size))] of the last
               [logging.debug] is evaluated *)
            _ ← lift (size spec);
            mret (Some spec)
        end
  end.

(** ** Notions the statements below use *)

(** The literal the data model gives for index [i] of each variant. *)
Definition template (o : Option) (i : Z) : option string :=
  let at_values (values : list string) (f : string → string) :=
    f <$> values !! Z.to_nat i in
  match o with
  | GccOOption values => at_values values (λ v, "-O" +:+ v)
  | GccFlagOption name _ =>
      if decide (i = 0) then Some ("-f" +:+ name)
      else if decide (i = 1) then Some ("-fno-" +:+ name)
      else None
  | GccFlagEnumOption name values =>
      at_values values (λ v, "-f" +:+ name +:+ "=" +:+ v)
  | GccFlagIntOption name min _ =>
      Some ("-f" +:+ name +:+ "=" +:+ Py.str_of_int (min + i))
  | GccFlagAlignOption name => Some ("-f" +:+ name)
  | GccParamEnumOption name values =>
      at_values values (λ v, "--param=" +:+ name +:+ "=" +:+ v)
  | GccParamIntOption name min _ =>
      Some ("--param=" +:+ name +:+ "=" +:+ Py.str_of_int (min + i))
  end.

(** The attribute [values] of the variants that have one. *)
Definition values_of (o : Option) : list string :=
  match o with
  | GccOOption values
  | GccFlagEnumOption _ values
  | GccParamEnumOption _ values => values
  | _ => []
  end.

Global Instance res_fmap : FMap res := λ A B f r,
  match r with
  | Ok a => Ok (f a)
  | Raise e => Raise e
  end.

(** Every character of [s] is in the class [cls]. *)
Fixpoint all_chars (cls : ascii → bool) (s : string) : bool :=
  match s with
  | EmptyString => true
  | String c r => cls c && all_chars cls r
  end.

(** [s] starts with a character of the class [cls]. *)
Definition head_in (cls : ascii → bool) (s : string) : bool :=
  match s with
  | EmptyString => false
  | String c _ => cls c
  end.

Definition last_char (s : string) : option ascii :=
  last (list_ascii_of_string s).

Definition nonspace (c : ascii) : bool := negb (Py.isspace c).

(** A well-formed name for a flag, [[-a-z0-9]+], and for a parameter,
    [[-a-zA-Z0-9]+]. *)
Definition flag_name (s : string) : Prop :=
  s ≠ EmptyString ∧ all_chars cls_flag s = true.
Definition param_name (s : string) : Prop :=
  s ≠ EmptyString ∧ all_chars cls_param s = true.

(** The 256 characters. *)
Definition all_ascii : list ascii := ascii_of_nat <$> seq 0 256.

(** Whether a string that starts with [c] can match the atoms [p] at all:
    an over-approximation on the first character. *)
Fixpoint can_start (p : list Py.atom) (c : ascii) : bool :=
  match p with
  | [] => false
  | Py.Lit EmptyString :: p' => can_start p' c
  | Py.Lit (String a _) :: _ => Ascii.eqb a c
  | Py.Plus cls :: _ => cls c
  | Py.Opt a :: p' => Ascii.eqb a c || can_start p' c
  end.

(** No character of [cls] can start a match of [p]: after [[cls]+] the
    atoms [p] leave the greedy match no choice. *)
Definition separated (cls : ascii → bool) (p : list Py.atom) : bool :=
  forallb (λ c, negb (can_start p c && cls c)) all_ascii.

(** The text an atom may take. *)
Definition atom_text (a : Py.atom) (t : string) : Prop :=
  match a with
  | Py.Lit l => t = l
  | Py.Plus cls => t ≠ EmptyString ∧ all_chars cls t = true
  | Py.Opt c => t = EmptyString ∨ t = String c EmptyString
  end.

(** The digits of the absolute value of [z], as [str] prints them. *)
Definition digits (z : Z) : string :=
  match Z.to_int z with
  | Decimal.Pos d | Decimal.Neg d => NilZero.string_of_uint d
  end.

(** The sign [str] prints. *)
Definition sign (z : Z) : string := if z <? 0 then "-" else EmptyString.

(** A world with no log record and an empty cache directory. *)
Definition fresh_world : world := {| logs := []; files := ∅ |}.

(** Text made of the given lines, each ended by a newline. *)
Definition text (ls : list string) : string :=
  foldr (λ l rest, l +:+ String Py.newline rest) EmptyString ls.

(** A compiler binary that prints [ver] for [--version], [optimize] for
    [--help=optimize -Q] and [param] for [--help=param -Q]. *)
Definition gcc_printing (ver optimize param : string) : Gcc := {|
  bin := "gcc";
  check_output := λ args,
    if decide (args = ["--version"]) then Ok ver
    else if decide (args = ["--help=optimize"; "-Q"]) then Ok optimize
    else if decide (args = ["--help=param"; "-Q"]) then Ok param
    else Raise Py.CalledProcessError;
  container := λ _, ReadTimeout;
|}.

(** Orders on options by name, the order of [str] on the names. *)
Definition name_le (a b : Option) : Prop :=
  String.leb (option_name a) (option_name b) = true.
Definition name_lt (a b : Option) : Prop :=
  String.ltb (option_name a) (option_name b) = true.

(** Sorted by name with no name twice: every option is strictly below all
    the options after it. *)
Definition sorted_by_name (l : list Option) : Prop :=
  StronglySorted name_lt l.

(** Every entry of the dictionary is filed under its own name. *)
Definition keys_named (d : gmap string Option) : Prop :=
  map_Forall (λ k o, option_name o = k) d.

(** An option whose [__len__] the builtin [len] accepts. *)
Definition has_len (o : Option) : Prop := 0 ≤ __len__ o ≤ Py.sys_maxsize.

Global Instance has_len_dec (o : Option) : Decision (has_len o) :=
  and_dec _ _.

(** The exception of [len] on an option without a length. *)
Definition len_error (o : Option) : exn :=
  if __len__ o <? 0 then ValueError else OverflowError.

(** No pickled spec is read from [path]: there is no file, or [pickle.load]
    fails on it in one of the two ways that [_get_spec] expects. *)
Definition not_cached (path : string) (w : world) : Prop :=
  match files w !! path with
  | None => True
  | Some (Damaged e _) => e = Py.UnpicklingError ∨ e = Py.EOFError
  | Some (Pickled _) => False
  end.

(** [m] leaves the files of the cache alone, and a value it returns
    satisfies [Q]. *)
Definition sound {A} (m : M A) (Q : A → Prop) : Prop :=
  ∀ w, files (m w).2 = files w ∧ ∀ a, (m w).1 = Ok a → Q a.

(** A local binary whose every run ends in the exception [e]. *)
Definition gcc_failing (e : exn) : Gcc := {|
  bin := "/usr/bin/gcc";
  check_output := λ _, Raise e;
  container := λ _, ReadTimeout;
|}.


(** The lines on which the parsers are followed below: an unbounded flag,
    the spec of an unbounded parameter and of a parameter with bounds, a
    spec followed by its default, and a parameter in the legacy form. *)
Definition flag_number_line (name : string) : string :=
  "-f" +:+ name +:+ "=<number>".
Definition param_number_spec (name : string) : string :=
  "--param=" +:+ name +:+ "=".
Definition param_interval_spec (name : string) (min max : Z) : string :=
  "--param=" +:+ name +:+ "=<" +:+ Py.str_of_int min +:+ "," +:+
  Py.str_of_int max +:+ ">".
Definition with_default (spec : string) (d : Z) : string :=
  spec +:+ " " +:+ Py.str_of_int d.
Definition param_legacy_line (name : string) (d min max : Z) : string :=
  name +:+ " default " +:+ Py.str_of_int d +:+ " minimum " +:+
  Py.str_of_int min +:+ " maximum " +:+ Py.str_of_int max.

(** The variants that hold a list of values. *)
Definition has_values (o : Option) : bool :=
  match o with
  | GccOOption _ | GccFlagEnumOption _ _ | GccParamEnumOption _ _ => true
  | _ => false
  end.

(** What the fixups leave of the entries of their table: no option under a
    name they replace, the flags without a negated form marked as such, the
    parameters that cannot be negative starting at 0. *)
Definition fixed_up (o : Option) : Prop :=
  match o with
  | GccFlagEnumOption name _ => name ≠ "live-patching"
  | GccFlagOption name no_fno =>
      name ≠ "handle-exceptions" ∧ name ≠ "no-threadsafe-statics" ∧
      (name ∈ ["stack-protector-all"; "stack-protector-explicit";
               "stack-protector-strong"] → no_fno = true)
  | GccFlagIntOption name _ _ => name ≠ "pack-struct"
  | GccParamIntOption name min _ =>
      name ∈ ["logical-op-non-short-circuit"; "prefetch-minimum-stride";
              "sched-autopref-queue-depth"; "vect-max-peeling-for-alignment"] →
      min = 0
  | _ => True
  end.

(** An option list with every fixup applied. *)
Definition fully_fixed (l : list Option) : Prop := Forall fixed_up l.

(** The names the fixups look for. *)
Definition fixup_names : list string :=
  ["live-patching"; "logical-op-non-short-circuit"; "prefetch-minimum-stride";
   "sched-autopref-queue-depth"; "vect-max-peeling-for-alignment";
   "handle-exceptions"; "stack-protector-all"; "stack-protector-explicit";
   "stack-protector-strong"; "no-threadsafe-statics"; "pack-struct"].

(** A spec with the given options. *)
Definition spec_of (g : Gcc) (ver : string) (opts : list Option) : GccSpec :=
  {| gcc := g; version := ver; options := opts |}.

(** Any character but [a]. *)
Definition not_char (a c : ascii) : bool := negb (Ascii.eqb c a).

(** A string that holds no newline: one line of text. *)
Definition one_line (s : string) : Prop :=
  all_chars (not_char Py.newline) s = true.

(** [[-A-Za-z_]]: the characters of one value of an enumeration, those of
    [cls_value] but for the bar that separates the values. *)
Definition cls_word (c : ascii) : bool :=
  is_char "-" c || upper c || lower c || is_char "_" c.

(** The values of an enumeration as the help text lists them,
    [v1|v2|...|vn]. *)
Definition bar_joined (values : list string) : string :=
  String.concat "|" values.

(** A value list that the patterns accept between the brackets: values
    without bars, not all of them missing. *)
Definition enum_values (values : list string) : Prop :=
  Forall (λ v, all_chars cls_word v = true) values ∧
  bar_joined values ≠ EmptyString.

(** Lines of [--help=optimize]: a boolean flag, an enumerated flag and a
    flag with bounds. *)
Definition flag_line (name : string) : string := "-f" +:+ name.
Definition flag_enum_line (name : string) (values : list string) : string :=
  "-f" +:+ name +:+ "=[" +:+ bar_joined values +:+ "]".
Definition flag_interval_line (name : string) (min max : Z) : string :=
  "-f" +:+ name +:+ "=<" +:+ Py.str_of_int min +:+ "," +:+
  Py.str_of_int max +:+ ">".

(** The warning of the optimize parser for a line it does not know. *)
Definition unknown_flag (line : string) (w : world) : world :=
  logged WARNING ("Unknown GCC optimization flag spec, '" +:+ line +:+ "'") w.

(** What holds of every option the optimize parser files: it is a [-O] or
    a [-f] option, a value list is not empty, a boolean flag has its
    negated form, the bounds of an integer flag are not negative. *)
Definition optimize_option (o : Option) : Prop :=
  match o with
  | GccOOption values => values ≠ []
  | GccFlagOption _ no_fno => no_fno = false
  | GccFlagEnumOption _ values => values ≠ []
  | GccFlagIntOption _ min max => 0 ≤ min ∧ 0 ≤ max
  | GccFlagAlignOption _ => True
  | GccParamEnumOption _ _ | GccParamIntOption _ _ _ => False
  end.

(** What holds of every option the params parser files: it is a
    [--param] option with at least one setting. *)
Definition param_option (o : Option) : Prop :=
  match o with
  | GccParamEnumOption _ values => values ≠ []
  | GccParamIntOption _ min max => min ≤ max
  | _ => False
  end.

(** A line of [--help=param] for an enumerated parameter, before the
    default. *)
Definition param_enum_spec (name : string) (values : list string) : string :=
  "--param=" +:+ name +:+ "=[" +:+ bar_joined values +:+ "]".

(** Code that does nothing to the world but append log records, the same
    ones with the same outcome whatever the world. *)
Definition appends_logs {A} (m : M A) : Prop :=
  ∃ (r : res A) (msgs : list (level * string)),
    ∀ w, m w = (r, {| logs := logs w ++ msgs; files := files w |}).

(** The world with the file at [path] removed. *)
Definition without_file (path : string) (w : world) : world :=
  {| logs := logs w; files := delete path (files w) |}.

(** The spec read from the cache for the compiler [g]: the pickled one
    with its attribute [gcc] set anew. *)
Definition rebound (g : Gcc) (spec : GccSpec) : GccSpec :=
  {| gcc := g; version := version spec; options := options spec |}.

(** ** The loop_tool session

    A shallow embedding of the state of [LoopToolCompilationSession], of
    [compiler_gym/envs/loop_tool/service/loop_tool_compilation_session.py],
    and of its methods [resize] and [apply_action].  The loop nest of
    [loop_tool_py], the tensors and the measurement of [flops] are outside
    the model. *)

Module LoopTool.

(** The exception classes the two methods can raise. *)
Inductive failure : Type :=
| ValueError
| IndexError
| RuntimeError
| AssertionError
| ZeroDivisionError.

(** How a call of a method ends; the methods return no value of interest
    ([apply_action] always returns [(False, None, False)]). *)
Inductive outcome : Type :=
| Returned
| Raised (e : failure).

(** The attributes of a session that the two methods read and write.
    [order] lists the loops from the outermost, each a pair of a size and a
    tail; the entries of [thread] are kept as truth values. *)
Record session : Type := {
  size : Z;
  order : list (Z * Z);
  thread : list bool;
  cursor : Z;
  mode : string;
}.

Definition set_order (o : list (Z * Z)) (s : session) : session :=
  {| size := size s; order := o; thread := thread s; cursor := cursor s;
     mode := mode s |}.
Definition set_thread (t : list bool) (s : session) : session :=
  {| size := size s; order := order s; thread := t; cursor := cursor s;
     mode := mode s |}.
Definition set_cursor (c : Z) (s : session) : session :=
  {| size := size s; order := order s; thread := thread s; cursor := c;
     mode := mode s |}.
Definition set_mode (m : string) (s : session) : session :=
  {| size := size s; order := order s; thread := thread s; cursor := cursor s;
     mode := m |}.

(** The position in a list of length [n] that the index [i] names, a
    negative index counting from the end; [None] when out of range. *)
Definition position (n : nat) (i : Z) : option nat :=
  let k := if i <? 0 then i + Z.of_nat n else i in
  if (k <? 0) || (Z.of_nat n <=? k) then None else Some (Z.to_nat k).

(** [xs[i]]; [None] stands for the [IndexError]. *)
Definition getitem {A} (xs : list A) (i : Z) : option A :=
  k ← position (length xs) i; xs !! k.

(** [xs[i] = v]; [None] stands for the [IndexError]. *)
Definition setitem {A} (xs : list A) (i : Z) (v : A) : option (list A) :=
  k ← position (length xs) i; Some (<[k := v]> xs).

(** [xs[i:]] *)
Definition slice_from {A} (xs : list A) (i : Z) : list A :=
  let n := Z.of_nat (length xs) in
  let k := if i <? 0 then Z.max 0 (i + n) else Z.min i n in
  drop (Z.to_nat k) xs.

(** The nested [lam] of [resize] and [reduce(lam, xs, init)]. *)
Definition lam (v : Z) (x : Z * Z) : Z := v * x.1 + x.2.
Definition reduce_lam (xs : list (Z * Z)) (init : Z) : Z :=
  fold_left lam xs init.

(** The state that [__init__] sets up once the size has been read from the
    URI of the benchmark. *)
Definition initial (n : Z) : session := {|
  size := n;
  order := [(n, 0); (1, 0); (1, 0)];
  thread := [true; false; false];
  cursor := 0;
  mode := "size";
|}.

(** [self.resize(increment)]: the outcome and the session it leaves; the
    order is updated before the assertion is checked. *)
Definition resize (increment : Z) (s : session) : outcome * session :=
  if cursor s =? 0 then (Returned, s)
  else
    match getitem (order s) (cursor s - 1) with
    | None => (Raised IndexError, s)
    | Some (a, b) =>
    match getitem (order s) (cursor s) with
    | None => (Raised IndexError, s)
    | Some (x, y) =>
        let k := reduce_lam (slice_from (order s) (cursor s + 1)) 1 in
        let increment :=
          if (increment =? -1) && negb (y =? 0) then 0 else increment in
        if x + increment <? 1 then (Returned, s)
        else
          let n := a * x * k + b in
          let d := (x + increment) * k in
          if d =? 0 then (Raised ZeroDivisionError, s)
          else
            let a_ := n `div` d in
            let b_ := n `mod` d in
            match setitem (order s) (cursor s - 1) (a_, b_) with
            | None => (Raised IndexError, s)
            | Some o1 =>
            match setitem o1 (cursor s) (x + increment, 0) with
            | None => (Raised IndexError, set_order o1 s)
            | Some o2 =>
                let s' := set_order o2 s in
                let end_size := reduce_lam o2 1 in
                if end_size =? size s then (Returned, s')
                else (Raised AssertionError, s')
            end end
    end end.

(** [self.action_spaces[0].action] *)
Definition actions : list string :=
  ["toggle_mode"; "up"; "down"; "toggle_thread"].

(** One of the [if] statements of [apply_action] that follow one another:
    it runs on the session the previous ones left, unless one raised. *)
Definition and_then (r : outcome * session)
    (f : session → outcome * session) : outcome * session :=
  match r with
  | (Returned, s) => f s
  | (Raised e, s) => (Raised e, s)
  end.

(** [(c + step) % len(self.order)] *)
Definition move_cursor (step : Z) (s : session) : outcome * session :=
  let n := Z.of_nat (length (order s)) in
  if n =? 0 then (Raised ZeroDivisionError, s)
  else (Returned, set_cursor ((cursor s + step) `mod` n) s).

(** [self.apply_action(action)], for the field [action.action]. *)
Definition apply_action (action : Z) (s : session) : outcome * session :=
  if (action <? 0) || (Z.of_nat (length actions) <? action)
  then (Raised ValueError, s)
  else
    match getitem actions action with
    | None => (Raised IndexError, s)
    | Some act =>
        if negb (bool_decide (mode s ∈ ["size"; "select"]))
        then (Raised RuntimeError, s)
        else
          and_then
            (if String.eqb act "toggle_mode" then
               if String.eqb (mode s) "size" then (Returned, set_mode "select" s)
               else if String.eqb (mode s) "select"
                    then (Returned, set_mode "size" s)
                    else (Returned, s)
             else (Returned, s)) (λ s,
          and_then
            (if String.eqb act "toggle_thread" then
               match getitem (thread s) (cursor s) with
               | None => (Raised IndexError, s)
               | Some b =>
                   match setitem (thread s) (cursor s) (negb b) with
                   | None => (Raised IndexError, s)
                   | Some t => (Returned, set_thread t s)
                   end
               end
             else (Returned, s)) (λ s,
          and_then
            (if String.eqb act "down" then
               if String.eqb (mode s) "size" then resize (-1) s
               else if String.eqb (mode s) "select" then move_cursor (-1) s
                    else (Returned, s)
             else (Returned, s)) (λ s,
            if String.eqb act "up" then
              if String.eqb (mode s) "size" then resize 1 s
              else if String.eqb (mode s) "select" then move_cursor 1 s
                   else (Returned, s)
            else (Returned, s))))
    end.

(** The session after the actions [acts], one after the other, whatever
    their outcomes. *)
Definition after (acts : list Z) (s : session) : session :=
  fold_left (λ s a, (apply_action a s).2) acts s.

(** The shape every session has: three loops and three thread marks, a
    cursor on one of the loops, one of the two modes, and an innermost loop
    of size at least 1 without a tail. *)
Definition well_formed (s : session) : Prop :=
  (∃ l0 l1 z, order s = [l0; l1; (z, 0)] ∧ 1 ≤ z) ∧
  length (thread s) = 3%nat ∧
  0 ≤ cursor s < 3 ∧
  (mode s = "size" ∨ mode s = "select").

End LoopTool.

(** * Properties *)

(** Appending to a string that starts with known characters reduces. *)
Local Arguments String.append : simpl nomatch.

(** ** Strings and decimal numerals *)

Lemma length_append (a b : string) :
  String.length (a +:+ b) = (String.length a + String.length b)%nat.
Proof. induction a as [|c a IH]; simpl; [done | by rewrite IH]. Qed.

Lemma append_nil_r (a : string) : a +:+ EmptyString = a.
Proof. induction a as [|c a IH]; simpl; [done | by rewrite IH]. Qed.

Lemma append_assoc (a b c : string) : (a +:+ b) +:+ c = a +:+ b +:+ c.
Proof. induction a as [|x a IH]; simpl; [done | by rewrite IH]. Qed.

Lemma append_neq_self (p a : string) : p ≠ EmptyString → p +:+ a ≠ a.
Proof.
  intros Hp Heq. apply (f_equal String.length) in Heq.
  rewrite length_append in Heq. destruct p; [done | simpl in Heq; lia].
Qed.

(** Strip what two equal strings visibly share at their front. *)
Ltac cancel_prefix H :=
  repeat first [apply String.app_inj in H | injection H as H].

Lemma to_int_regular (z : Z) :
  Z.to_int z ≠ Decimal.Pos Decimal.Nil ∧ Z.to_int z ≠ Decimal.Neg Decimal.Nil.
Proof.
  destruct z as [|p|p]; simpl; split; try discriminate;
    intros [= H]; by apply DecimalPos.Unsigned.to_uint_nonnil in H.
Qed.

Lemma str_of_int_inj (a b : Z) : Py.str_of_int a = Py.str_of_int b → a = b.
Proof.
  unfold Py.str_of_int. intros Heq.
  destruct (to_int_regular a) as [Ha1 Ha2], (to_int_regular b) as [Hb1 Hb2].
  apply DecimalZ.to_int_inj.
  pose proof (NilZero.isi _ Ha1 Ha2) as Ia.
  pose proof (NilZero.isi _ Hb1 Hb2) as Ib.
  rewrite Heq in Ia. congruence.
Qed.

(** ** Indexing *)

Lemma index_in_range {A} (xs : list A) (i : Z) :
  0 ≤ i < Z.of_nat (length xs) →
  ∃ x, xs !! Z.to_nat i = Some x ∧ Py.index xs i = Ok x.
Proof.
  intros Hi. unfold Py.index.
  destruct (Z.ltb_spec i 0) as [|_]; [lia|].
  destruct (Z.ltb_spec i 0) as [|_]; [lia|].
  destruct (Z.leb_spec (Z.of_nat (length xs)) i) as [|_]; [lia|]. simpl.
  destruct (lookup_lt_is_Some_2 xs (Z.to_nat i)) as [x Hx]; [lia|].
  exists x. by rewrite Hx.
Qed.

Lemma len_Ok (o : Option) (n : Z) : len o = Ok n → __len__ o = n ∧ 0 ≤ n.
Proof.
  unfold len, Py.check_len.
  destruct (Z.ltb_spec (__len__ o) 0); [done|].
  destruct (Z.ltb_spec Py.sys_maxsize (__len__ o)); [done|].
  by intros [= <-].
Qed.

(** ** The option classes *)

Lemma getitem_template (o : Option) (n i : Z) :
  len o = Ok n → 0 ≤ i < n →
  ∃ s, template o i = Some s ∧ __getitem__ o i = Ok s.
Proof.
  intros [Hn _]%len_Ok Hi.
  destruct o as [vs|name b|name vs|name mn mx|name|name vs|name mn mx];
    simpl in *;
    try (destruct (index_in_range vs i) as (v & Hv & Hidx); [lia|];
         rewrite Hv, Hidx; simpl; by eexists).
  - destruct (decide (i = 0)) as [->|Hne]; [by eexists|].
    destruct (decide (i = 1)) as [->|Hne']; [by eexists|].
    destruct b; lia.
  - by eexists.
  - by eexists.
  - by eexists.
Qed.

Lemma getitem_values_distinct (f : string → string) (vs : list string) (i j : Z) :
  (∀ a b, f a = f b → a = b) →
  NoDup vs → 0 ≤ i < Z.of_nat (length vs) → 0 ≤ j < Z.of_nat (length vs) →
  i ≠ j →
  (v ← Py.index vs i; Ok (f v)) ≠ (v ← Py.index vs j; Ok (f v)).
Proof.
  intros Hf Hnd Hi Hj Hij.
  destruct (index_in_range vs i Hi) as (x & Hx & ->).
  destruct (index_in_range vs j Hj) as (y & Hy & ->).
  simpl. intros [= Heq%Hf]. subst y.
  pose proof (NoDup_lookup _ _ _ _ Hnd Hx Hy). lia.
Qed.

Lemma getitem_distinct (o : Option) (n i j : Z) :
  len o = Ok n → NoDup (values_of o) →
  0 ≤ i < n → 0 ≤ j < n → i ≠ j →
  __getitem__ o i ≠ __getitem__ o j.
Proof.
  intros [Hn _]%len_Ok Hnd Hi Hj Hij.
  destruct o as [vs|name b|name vs|name mn mx|name|name vs|name mn mx];
    simpl in Hn, Hnd; unfold __getitem__.
  - apply getitem_values_distinct; auto with lia.
    intros a b H. by cancel_prefix H.
  - assert (Hno : "no-" +:+ name ≠ name) by by apply append_neq_self.
    simpl in Hno.
    destruct (Z.eqb_spec i 0), (Z.eqb_spec j 0); simpl; try lia;
      [intros [= ?]; congruence | intros [= ?]; congruence | destruct b; lia].
  - apply getitem_values_distinct; auto with lia.
    intros a b H. by cancel_prefix H.
  - intros Heq. cancel_prefix Heq. apply str_of_int_inj in Heq. lia.
  - lia.
  - apply getitem_values_distinct; auto with lia.
    intros a b H. by cancel_prefix H.
  - intros Heq. cancel_prefix Heq. apply str_of_int_inj in Heq. lia.
Qed.

(** The claim C1 fails where it promises distinct literals for every
    option: the parser files a value as often as the help text shows it,
    and two indices below the length then give the same literal. *)
Lemma C1_repeated_value_repeats_literal :
  let o := GccOOption ["0"; "1"; "2"; "3"; "0"; "1"; "2"; "3"] in
  _gcc_parse_optimize
    (gcc_printing "gcc 11" (text ["options:"; "  -O<number>"; "  -O<number>"])
       EmptyString)
    fresh_world = (Ok [o], fresh_world) ∧
  len o = Ok 8 ∧
  __getitem__ o 0 = Ok "-O0" ∧ __getitem__ o 4 = Ok "-O0" ∧
  ¬ (∀ i j, 0 ≤ i < 8 → 0 ≤ j < 8 → i ≠ j →
            __getitem__ o i ≠ __getitem__ o j).
Proof.
  split; [by vm_compute|]. split; [done|]. split; [done|]. split; [done|].
  intros H. by apply (H 0 4).
Qed.

(** C1, as amended: for every option and every index below its length,
    indexing returns the literal of the variant's template; two distinct
    indices below the length give distinct literals whenever the option's
    list of values holds no value twice (always so for the variants
    without such a list). *)
Theorem C1_getitem_template_distinct (o : Option) (n i : Z) :
  len o = Ok n → 0 ≤ i < n →
  (∃ s, template o i = Some s ∧ __getitem__ o i = Ok s) ∧
  (NoDup (values_of o) →
   ∀ j, 0 ≤ j < n → i ≠ j → __getitem__ o i ≠ __getitem__ o j).
Proof.
  intros Hlen Hi. split.
  - by apply getitem_template with n.
  - intros Hnd j Hj Hij. by apply getitem_distinct with n.
Qed.

Lemma C1_getitem_template_distinct_witness :
  let o := GccFlagIntOption "inline-limit" 3 5 in
  len o = Ok 3 ∧ 0 ≤ 1 < 3 ∧
  (∃ s, template o 1 = Some s ∧ __getitem__ o 1 = Ok s) ∧
  (NoDup (values_of o) →
   ∀ j, 0 ≤ j < 3 → 1 ≠ j → __getitem__ o 1 ≠ __getitem__ o j).
Proof.
  split; [reflexivity|]. split; [lia|].
  apply (C1_getitem_template_distinct (GccFlagIntOption "inline-limit" 3 5) 3 1);
    [reflexivity | lia].
Defined.

(** C9: a [GccFlagOption] with [no_fno] has length 1, yet index 1 (any
    index but 0) still returns the negated literal. *)
Theorem C9_no_fno_getitem_unchecked (name : string) :
  len (GccFlagOption name true) = Ok 1 ∧
  __getitem__ (GccFlagOption name true) 1 = Ok ("-fno-" +:+ name) ∧
  ∀ key, key ≠ 0 →
    __getitem__ (GccFlagOption name true) key = Ok ("-fno-" +:+ name).
Proof.
  split; [reflexivity|]. split; [reflexivity|].
  intros key Hkey. simpl. by destruct (Z.eqb_spec key 0).
Qed.

(** ** The size of a spec *)

Lemma size_loop_product (opts : list Option) (sz : Z) :
  size_loop opts sz =
  (λ cards, sz * cardinality_product cards) <$> mapM len opts.
Proof.
  revert sz. induction opts as [|o opts IH]; intros sz; simpl.
  - unfold fmap, res_fmap; simpl. f_equal. unfold cardinality_product. simpl. lia.
  - destruct (len o) as [n|e]; simpl; [|done].
    rewrite IH. destruct (mapM len opts) as [cards|e]; simpl; [|done].
    unfold cardinality_product. simpl. f_equal. lia.
Qed.

Lemma len_has_len (o : Option) : has_len o → len o = Ok (__len__ o).
Proof.
  intros [H0 Hmax]. unfold len, Py.check_len.
  destruct (Z.ltb_spec (__len__ o) 0); [lia|].
  by destruct (Z.ltb_spec Py.sys_maxsize (__len__ o)); [lia|].
Qed.

Lemma len_no_len (o : Option) : ¬ has_len o → len o = Raise (len_error o).
Proof.
  intros H. unfold len, Py.check_len, len_error.
  destruct (Z.ltb_spec (__len__ o) 0); [done|].
  destruct (Z.ltb_spec Py.sys_maxsize (__len__ o)); [done|].
  destruct H. by split.
Qed.

Lemma size_loop_has_len (opts : list Option) (sz : Z) :
  Forall has_len opts →
  size_loop opts sz = Ok (sz * cardinality_product (__len__ <$> opts)).
Proof.
  intros H. revert sz. induction H as [|o opts Ho _ IH]; intros sz; simpl.
  - f_equal. unfold cardinality_product. simpl. lia.
  - rewrite (len_has_len o Ho). simpl. rewrite IH. f_equal.
    unfold cardinality_product. simpl. symmetry. apply Z.mul_assoc.
Qed.

Lemma size_loop_no_len (before after : list Option) (o : Option) (sz : Z) :
  Forall has_len before → ¬ has_len o →
  size_loop (before ++ o :: after) sz = Raise (len_error o).
Proof.
  intros H Ho. revert sz. induction H as [|o' opts Ho' _ IH]; intros sz; simpl.
  - by rewrite (len_no_len o Ho).
  - rewrite (len_has_len o' Ho'). simpl. apply IH.
Qed.

(** The claim C2 fails for a spec with an option whose [__len__] the
    builtin [len] refuses: the size raises.  The parser files such options:
    an integer flag with the bounds [<0,9223372036854775807>] has
    [sys.maxsize + 1] settings, and discovery for a compiler that lists it
    ends in [OverflowError]; one with the bounds [<5,0>] has a negative
    number of them, and the size ends in [ValueError]. *)
Lemma C2_size_raises :
  let g := gcc_printing "gcc (GCC) 11.2.0"
             (text ["options:"; "  -ffoo=<0,9223372036854775807>"]) EmptyString in
  let big := GccFlagIntOption "foo" 0 (2 ^ 63 - 1) in
  let neg := GccFlagIntOption "foo" 5 0 in
  (_gcc_parse_optimize g fresh_world).1 = Ok [big] ∧
  __len__ big = Py.sys_maxsize + 1 ∧
  size {| gcc := g; version := "gcc (GCC) 11.2.0"; options := [big] |}
    = Raise OverflowError ∧
  (_get_spec g "/cache" fresh_world).1 = Raise OverflowError ∧
  (_gcc_parse_optimize
     (gcc_printing "gcc (GCC) 11.2.0" (text ["options:"; "  -ffoo=<5,0>"])
        EmptyString) fresh_world).1 = Ok [neg] ∧
  size {| gcc := g; version := "gcc (GCC) 11.2.0"; options := [neg] |}
    = Raise ValueError.
Proof. repeat split; by vm_compute. Qed.

(** C2, as amended: when every option of a spec has a length, that is a
    [__len__] from 0 to [sys.maxsize], the size is the product over the
    options of the length plus one, computed in the unbounded integers of
    [Z]; it is 1 for an empty option list.  When some option has no length,
    the size raises what [len] raises on the first such option in list
    order: [ValueError] for a negative [__len__], [OverflowError] for one
    above [sys.maxsize]. *)
Theorem C2_size_is_product_of_lengths (spec : GccSpec) :
  (Forall has_len (options spec) →
   size spec = Ok (cardinality_product (__len__ <$> options spec))) ∧
  (options spec = [] → size spec = Ok 1) ∧
  (∀ before o after,
     options spec = before ++ o :: after →
     Forall has_len before → ¬ has_len o →
     size spec = Raise (len_error o) ∧
     (len_error o = ValueError ↔ __len__ o < 0) ∧
     (len_error o = OverflowError ↔ Py.sys_maxsize < __len__ o)).
Proof.
  unfold size. split; [|split].
  - intros H. rewrite (size_loop_has_len _ _ H). f_equal. lia.
  - by intros ->.
  - intros before o after -> Hb Ho. split; [by apply size_loop_no_len|].
    unfold len_error, has_len in *.
    assert (0 ≤ Py.sys_maxsize) by done.
    destruct (Z.ltb_spec (__len__ o) 0); split; split; try done; lia.
Qed.

Lemma C2_size_is_product_of_lengths_witness :
  let spec := {| gcc := gcc_failing ServiceError; version := "gcc (GCC) 11.2.0";
                 options := [GccOOption ["0"; "1"; "2"; "3"];
                             GccFlagOption "inline" false;
                             GccFlagIntOption "inline-limit" 0 (2 ^ 31)] |} in
  Forall has_len (options spec) ∧
  size spec = Ok (5 * 3 * (2 ^ 31 + 2)).
Proof.
  intros spec.
  assert (H : Forall has_len (options spec)).
  { repeat constructor; by vm_compute. }
  split; [exact H|].
  exact (proj1 (C2_size_is_product_of_lengths spec) H).
Defined.

(** A size beyond every machine word: three unbounded numbers. *)
Lemma size_beyond_64_bits (g : Gcc) :
  let o name := GccFlagIntOption name 0 unbounded_max in
  size {| gcc := g; version := "gcc"; options := [o "a"; o "b"; o "c"] |}
  = Ok ((2 ^ 31 + 2) ^ 3) ∧ 2 ^ 64 < (2 ^ 31 + 2) ^ 3.
Proof. split; [reflexivity | done]. Qed.

(** ** The fixups *)

Lemma fix_option_idemp (o : Option) : fix_option (fix_option o) = fix_option o.
Proof.
  destruct o as [vs|name b|name vs|name mn mx|name|name vs|name mn mx];
    try reflexivity.
  - unfold fix_option.
    destruct (String.eqb_spec name "handle-exceptions") as [->|H1]; [done|].
    destruct (String.eqb_spec name "no-threadsafe-statics") as [->|H2]; [done|].
    apply String.eqb_neq in H1, H2.
    destruct (decide (name ∈ ["stack-protector-all"; "stack-protector-explicit";
                               "stack-protector-strong"])) as [Hin|Hin].
    + by rewrite (bool_decide_true _ Hin), H1, (bool_decide_true _ Hin), H2.
    + by rewrite (bool_decide_false _ Hin), H1, (bool_decide_false _ Hin), H2.
  - unfold fix_option.
    destruct (String.eqb_spec name "pack-struct") as [->|Hne]; [done|].
    by apply String.eqb_neq in Hne as ->.
  - unfold fix_option. case_bool_decide as Hin; [|by rewrite bool_decide_false].
    by rewrite bool_decide_true.
Qed.

Lemma keep_fix_option (o : Option) : keep o = true → keep (fix_option o) = true.
Proof.
  destruct o as [vs|name b|name vs|name mn mx|name|name vs|name mn mx];
    try done; simpl.
  - by destruct (String.eqb name "pack-struct").
  - by case_bool_decide.
Qed.

(** C8: the fixups are idempotent. *)
Theorem C8_fix_options_idempotent (opts : list Option) :
  _fix_options (_fix_options opts) = _fix_options opts.
Proof.
  unfold _fix_options.
  induction opts as [|o opts IH]; [done|].
  rewrite filter_cons. destruct (decide (keep o = true)) as [Hk|Hk]; [|done].
  rewrite fmap_cons, filter_cons.
  rewrite decide_True by by apply keep_fix_option.
  rewrite fmap_cons, fix_option_idemp. by f_equal.
Qed.

(** ** Characters, classes and words *)

Lemma elem_of_all_ascii (c : ascii) : c ∈ all_ascii.
Proof.
  unfold all_ascii. apply list_elem_of_fmap.
  exists (nat_of_ascii c). split; [by rewrite ascii_nat_embedding|].
  apply elem_of_seq. pose proof (nat_ascii_bounded c). lia.
Qed.

(** A property of characters holds of all when it holds of the 256. *)
Lemma forall_ascii (P : ascii → bool) :
  forallb P all_ascii = true → ∀ c, P c = true.
Proof.
  intros H c. rewrite forallb_forall in H. apply H.
  apply list_elem_of_In, elem_of_all_ascii.
Qed.

Lemma all_chars_app (cls : ascii → bool) (a b : string) :
  all_chars cls (a +:+ b) = all_chars cls a && all_chars cls b.
Proof.
  induction a as [|c a IH]; simpl; [done|]. by rewrite IH, andb_assoc.
Qed.

Lemma all_chars_impl (cls1 cls2 : ascii → bool) (s : string) :
  forallb (λ c, implb (cls1 c) (cls2 c)) all_ascii = true →
  all_chars cls1 s = true → all_chars cls2 s = true.
Proof.
  intros H0. pose proof (forall_ascii _ H0) as H. simpl in H. clear H0.
  induction s as [|c s IH]; simpl; [done|].
  intros [Hc Hs]%andb_prop. specialize (H c). rewrite Hc in H. simpl in H.
  by rewrite H, IH.
Qed.

Lemma separated_spec (cls : ascii → bool) (p : list Py.atom) (c : ascii) :
  separated cls p = true → cls c = true → can_start p c = false.
Proof.
  intros H0 Hc. pose proof (forall_ascii _ H0 c) as H. simpl in H.
  rewrite Hc, andb_true_r in H. by destruct (can_start p c).
Qed.

Lemma last_char_app (a b : string) :
  b ≠ EmptyString → last_char (a +:+ b) = last_char b.
Proof.
  intros Hb. unfold last_char. induction a as [|c a IH]; simpl; [done|].
  rewrite <- IH. destruct (a +:+ b) eqn:E; [|done].
  destruct a; [by subst | done].
Qed.

(** *** [str.split] and [str.strip] on words *)

Lemma split_nonspace (a : ascii) (s : string) :
  Py.isspace a = false →
  Py.split (String a s) =
  match s with
  | EmptyString => [String a EmptyString]
  | String c _ =>
      if Py.isspace c then String a EmptyString :: Py.split s
      else Py.push_char a (Py.split s)
  end.
Proof. intros H. destruct s; simpl; by rewrite H. Qed.

Lemma all_chars_cons (cls : ascii → bool) (c : ascii) (s : string) :
  all_chars cls (String c s) = true ↔ cls c = true ∧ all_chars cls s = true.
Proof. simpl. apply andb_true_iff. Qed.

Lemma nonspace_false (c : ascii) : nonspace c = true ↔ Py.isspace c = false.
Proof. unfold nonspace. apply negb_true_iff. Qed.

Lemma split_word_space (tok rest : string) (c : ascii) :
  tok ≠ EmptyString → all_chars nonspace tok = true → Py.isspace c = true →
  Py.split (tok +:+ String c rest) = tok :: Py.split rest.
Proof.
  intros Hne Hall Hc. induction tok as [|a tok IH]; [done|].
  apply all_chars_cons in Hall as [Ha%nonspace_false Htok].
  change (String a tok +:+ String c rest)
    with (String a (tok +:+ String c rest)).
  rewrite split_nonspace by done.
  destruct tok as [|a' tok].
  - simpl. by rewrite Hc.
  - apply all_chars_cons in Htok as Htok'.
    destruct Htok' as [Ha'%nonspace_false _].
    rewrite IH by done.
    change (String a' tok +:+ String c rest)
      with (String a' (tok +:+ String c rest)).
    cbv beta iota. by rewrite Ha'.
Qed.

Lemma split_word (tok : string) :
  tok ≠ EmptyString → all_chars nonspace tok = true → Py.split tok = [tok].
Proof.
  intros Hne Hall. induction tok as [|a tok IH]; [done|].
  apply all_chars_cons in Hall as [Ha%nonspace_false Htok].
  rewrite split_nonspace by done.
  destruct tok as [|a' tok]; [done|].
  apply all_chars_cons in Htok as Htok'.
  destruct Htok' as [Ha'%nonspace_false _].
  by rewrite Ha', IH.
Qed.

Lemma lstrip_word (ws : ascii → bool) (s : string) :
  head_in ws s = false → Py.lstrip_of ws s = s.
Proof. destruct s as [|c s]; simpl; [done|]. by intros ->. Qed.

Lemma rstrip_word (ws : ascii → bool) (s : string) :
  all_chars (λ c, negb (ws c)) s = true → Py.rstrip_of ws s = s.
Proof.
  induction s as [|c s IH]; [done|].
  intros [Hc%negb_true_iff Hs]%all_chars_cons. simpl. by rewrite Hc, IH.
Qed.

(** Stripping leaves a string without white space as it is. *)
Lemma strip_word (ws : ascii → bool) (s : string) :
  all_chars (λ c, negb (ws c)) s = true → Py.strip_of ws s = s.
Proof.
  intros H. unfold Py.strip_of.
  rewrite lstrip_word; [by apply rstrip_word|].
  destruct s as [|c s]; [done|].
  by apply all_chars_cons in H as [H%negb_true_iff _].
Qed.

(** ** The matcher *)

Lemma strip_prefix_app (l s : string) : Py.strip_prefix l (l +:+ s) = Some s.
Proof.
  induction l as [|c l IH]; [done|]. simpl. by rewrite Ascii.eqb_refl.
Qed.

Lemma strip_prefix_Some (l s r : string) :
  Py.strip_prefix l s = Some r → s = l +:+ r.
Proof.
  revert s. induction l as [|c l IH]; intros s; simpl; [by intros [= ->]|].
  destruct s as [|b s]; [done|].
  destruct (Ascii.eqb_spec c b) as [->|]; [|done].
  intros H%IH. by rewrite H.
Qed.

Lemma plus_loop_outside {R} (cls : ascii → bool) (s : string)
    (k : string → string → option R) :
  head_in cls s = false → Py.plus_loop cls s k = None.
Proof. destruct s as [|c s]; simpl; [done|]. by intros ->. Qed.

(** When the continuation refuses every rest that starts inside the class,
    the greedy loop takes the whole run and never comes back. *)
Lemma plus_loop_greedy {R} (cls : ascii → bool) (a r : string)
    (k : string → string → option R) :
  (∀ x c y, cls c = true → k x (String c y) = None) →
  a ≠ EmptyString → all_chars cls a = true → head_in cls r = false →
  Py.plus_loop cls (a +:+ r) k = k a r.
Proof.
  revert k. induction a as [|c a IH]; intros k Hk Hne Hall Hr; [done|].
  apply all_chars_cons in Hall as [Hc Ha].
  change (String c a +:+ r) with (String c (a +:+ r)).
  cbn [Py.plus_loop]. rewrite Hc.
  destruct a as [|c' a'].
  - change (EmptyString +:+ r) with r. by rewrite plus_loop_outside.
  - rewrite IH; [|by intros; apply Hk|done|done|done].
    destruct (k (String c (String c' a')) r) eqn:E; [done|].
    apply all_chars_cons in Ha as [Hc' _].
    change (String c' a' +:+ r) with (String c' (a' +:+ r)). by apply Hk.
Qed.

(** What a successful loop took. *)
Lemma plus_loop_sound {R} (cls : ascii → bool) (s : string)
    (k : string → string → option R) (g : R) :
  Py.plus_loop cls s k = Some g →
  ∃ a r, s = a +:+ r ∧ a ≠ EmptyString ∧ all_chars cls a = true ∧
         k a r = Some g.
Proof.
  revert k. induction s as [|c s IH]; intros k; simpl; [done|].
  destruct (cls c) eqn:Hc; [|done].
  destruct (Py.plus_loop cls s _) as [g'|] eqn:E.
  - intros [= ->]. apply IH in E as (a & r & -> & Hne & Hall & Hk).
    exists (String c a), r. simpl. by rewrite Hc, Hall.
  - intros Hk. exists (String c EmptyString), s. simpl. by rewrite Hc.
Qed.

Lemma cannot_start (p : list Py.atom) (c : ascii) (s : string) :
  can_start p c = false → Py.match_atoms p (String c s) = None.
Proof.
  induction p as [|[l|cls|a] p IH]; simpl; [done|..].
  - destruct l as [|b l]; simpl.
    + intros H. by rewrite IH.
    + by intros ->.
  - by intros ->.
  - intros [Ha Hp]%orb_false_elim. by rewrite Ha, IH.
Qed.

Lemma match_lit (l : string) (p : list Py.atom) (s : string) :
  Py.match_atoms (Py.Lit l :: p) (l +:+ s) = cons l <$> Py.match_atoms p s.
Proof. simpl. by rewrite strip_prefix_app. Qed.

Lemma match_plus (cls : ascii → bool) (p : list Py.atom) (a r : string) :
  separated cls p = true →
  a ≠ EmptyString → all_chars cls a = true → head_in cls r = false →
  Py.match_atoms (Py.Plus cls :: p) (a +:+ r) = cons a <$> Py.match_atoms p r.
Proof.
  intros Hsep Hne Hall Hr. cbn [Py.match_atoms].
  rewrite plus_loop_greedy; try done.
  intros x c y Hc. by rewrite cannot_start by by eapply separated_spec.
Qed.

Lemma match_plus_outside (cls : ascii → bool) (p : list Py.atom) (s : string) :
  head_in cls s = false → Py.match_atoms (Py.Plus cls :: p) s = None.
Proof. intros H. cbn [Py.match_atoms]. by apply plus_loop_outside. Qed.

Lemma match_opt_take (c : ascii) (p : list Py.atom) (s : string) :
  can_start p c = false →
  Py.match_atoms (Py.Opt c :: p) (String c s) =
  cons (String c EmptyString) <$> Py.match_atoms p s.
Proof.
  intros H. cbn [Py.match_atoms]. rewrite Ascii.eqb_refl.
  rewrite (cannot_start p c s H). by destruct (Py.match_atoms p s).
Qed.

Lemma match_opt_skip (c : ascii) (p : list Py.atom) (s : string) :
  head_in (Ascii.eqb c) s = false →
  Py.match_atoms (Py.Opt c :: p) s = cons EmptyString <$> Py.match_atoms p s.
Proof.
  intros H. cbn [Py.match_atoms]. destruct s as [|b s]; [done|].
  simpl in H. by rewrite H.
Qed.

(** A match cuts the string into the texts of the atoms. *)
Lemma match_atoms_sound (p : list Py.atom) (s : string) (texts : list string) :
  Py.match_atoms p s = Some texts →
  s = Py.join texts ∧ Forall2 atom_text p texts.
Proof.
  revert s texts. induction p as [|[l|cls|c] p IH]; intros s texts.
  - destruct s; [|done]. intros [= <-]. by split.
  - cbn [Py.match_atoms]. destruct (Py.strip_prefix l s) as [r|] eqn:E; [|done].
    simpl. destruct (Py.match_atoms p r) as [g|] eqn:Eg; [|done].
    intros [= <-]. apply IH in Eg as [-> HF]. apply strip_prefix_Some in E.
    split; [done | by constructor].
  - cbn [Py.match_atoms]. intros (a & r & -> & Hne & Hall & Hk)%plus_loop_sound.
    destruct (Py.match_atoms p r) as [g|] eqn:Eg; [|done].
    injection Hk as <-. apply IH in Eg as [-> HF].
    split; [done | by constructor].
  - cbn [Py.match_atoms].
    assert (Hskip : cons EmptyString <$> Py.match_atoms p s = Some texts →
                    s = Py.join texts ∧ Forall2 atom_text (Py.Opt c :: p) texts).
    { destruct (Py.match_atoms p s) as [g|] eqn:Eg; [|done].
      intros [= <-]. apply IH in Eg as [-> HF].
      split; [done | constructor; [by left | done]]. }
    destruct s as [|b s]; [done|].
    destruct (Ascii.eqb_spec c b) as [->|]; [|done].
    destruct (Py.match_atoms p s) as [g|] eqn:Eg; [|done].
    intros [= <-]. apply IH in Eg as [-> HF].
    split; [done | constructor; [by right | done]].
Qed.

(** The loop finds a cut that the continuation accepts, whichever it is. *)
Lemma plus_loop_complete {R} (cls : ascii → bool) (a r : string)
    (k : string → string → option R) :
  a ≠ EmptyString → all_chars cls a = true → is_Some (k a r) →
  is_Some (Py.plus_loop cls (a +:+ r) k).
Proof.
  revert k. induction a as [|c a IH]; intros k Hne Hall Hk; [done|].
  apply all_chars_cons in Hall as [Hc Ha].
  change (String c a +:+ r) with (String c (a +:+ r)).
  cbn [Py.plus_loop]. rewrite Hc.
  destruct a as [|c' a'].
  - change (EmptyString +:+ r) with r. by destruct (Py.plus_loop cls r _).
  - specialize (IH (λ x r', k (String c x) r')).
    destruct IH as [g Hg]; [done..|]. by rewrite Hg.
Qed.

(** Every cut of a string into texts of the atoms is found: with
    [match_atoms_sound], the atoms match exactly the strings of their
    language. *)
Lemma match_atoms_complete (p : list Py.atom) (texts : list string) :
  Forall2 atom_text p texts → is_Some (Py.match_atoms p (Py.join texts)).
Proof.
  induction 1 as [|a t p texts Ha HF IH]; [by eexists|].
  destruct IH as [g Hg].
  change (Py.join (t :: texts)) with (t +:+ Py.join texts).
  destruct a as [l|cls|c]; simpl in Ha.
  - subst t. rewrite match_lit, Hg. by eexists.
  - destruct Ha as [Hne Hall]. cbn [Py.match_atoms].
    apply plus_loop_complete; [done..|]. rewrite Hg. by eexists.
  - destruct Ha as [->| ->].
    + change (EmptyString +:+ Py.join texts) with (Py.join texts).
      cbn [Py.match_atoms]. rewrite Hg. simpl. by repeat case_match.
    + change (String c EmptyString +:+ Py.join texts)
        with (String c (Py.join texts)).
      cbn [Py.match_atoms]. rewrite Ascii.eqb_refl, Hg. by eexists.
Qed.

Lemma fullmatch_language (p : Py.pattern) (s : string) :
  is_Some (Py.fullmatch p s) ↔
  ∃ texts, s = Py.join texts ∧ Forall2 atom_text (Py.atoms_of p) texts.
Proof.
  unfold Py.fullmatch. split.
  - intros [g Hg]. destruct (Py.match_atoms _ s) as [texts|] eqn:E; [|done].
    exists texts. by apply match_atoms_sound.
  - intros (texts & -> & HF).
    destruct (match_atoms_complete _ _ HF) as [g ->]. by eexists.
Qed.

(** ** Decimal numerals: [str] and [int] *)

Lemma string_of_uint_digits (d : Decimal.uint) :
  all_chars Py.isdigit (NilEmpty.string_of_uint d) = true.
Proof. induction d; simpl; by rewrite ?IHd. Qed.

Lemma drop_underscores_digits (prev : bool) (s : string) :
  all_chars Py.isdigit s = true → Py.drop_underscores prev s = Some s.
Proof.
  revert prev. induction s as [|c s IH]; intros prev; [done|].
  intros [Hc Hs]%all_chars_cons. cbn [Py.drop_underscores].
  destruct (Ascii.eqb_spec c "_") as [->|_]; [done|].
  by rewrite IH.
Qed.

Lemma str_of_int_digits (z : Z) :
  Py.str_of_int z = if z <? 0 then String "-" (digits z) else digits z.
Proof. by destruct z. Qed.

Lemma to_int_uint_regular (z : Z) :
  match Z.to_int z with
  | Decimal.Pos d | Decimal.Neg d => d ≠ Decimal.Nil ∧ Z.of_uint d = Z.abs z
  end.
Proof.
  pose proof (DecimalZ.of_to z) as H.
  destruct z as [|p|p]; simpl in *.
  - done.
  - split; [apply DecimalPos.Unsigned.to_uint_nonnil | done].
  - split; [apply DecimalPos.Unsigned.to_uint_nonnil | lia].
Qed.

Lemma digits_spec (z : Z) :
  digits z ≠ EmptyString ∧ all_chars Py.isdigit (digits z) = true ∧
  Py.int_of_digits (digits z) = Some (Z.abs z).
Proof.
  unfold digits. pose proof (to_int_uint_regular z) as H.
  assert (G : ∀ d, d ≠ Decimal.Nil → Z.of_uint d = Z.abs z →
    NilZero.string_of_uint d ≠ EmptyString ∧
    all_chars Py.isdigit (NilZero.string_of_uint d) = true ∧
    Py.int_of_digits (NilZero.string_of_uint d) = Some (Z.abs z)).
  { intros d Hd Hz.
    assert (Hs : NilZero.string_of_uint d = NilEmpty.string_of_uint d)
      by by destruct d.
    split; [by destruct d|]. rewrite Hs at 1 2.
    split; [apply string_of_uint_digits|].
    unfold Py.int_of_digits.
    rewrite drop_underscores_digits by apply string_of_uint_digits. simpl.
    rewrite <- Hs, NilZero.usu by done. simpl. by rewrite Hz. }
  destruct (Z.to_int z); destruct H; by apply G.
Qed.

Lemma digit_nonspace (s : string) :
  all_chars Py.isdigit s = true → all_chars nonspace s = true.
Proof. by apply all_chars_impl. Qed.

Lemma str_of_int_nonspace (z : Z) :
  all_chars nonspace (Py.str_of_int z) = true.
Proof.
  destruct (digits_spec z) as (_ & Hd%digit_nonspace & _).
  rewrite str_of_int_digits. destruct (z <? 0); [|done].
  apply all_chars_cons. by split.
Qed.

Lemma str_of_int_nonempty (z : Z) : Py.str_of_int z ≠ EmptyString.
Proof.
  destruct (digits_spec z) as (Hne & _ & _).
  rewrite str_of_int_digits. by destruct (z <? 0).
Qed.

(** [int(str(z)) == z] *)
Lemma int_str (z : Z) : Py.int (Py.str_of_int z) = Ok z.
Proof.
  unfold Py.int. rewrite strip_word
    by (apply (all_chars_impl nonspace); [by vm_compute | apply str_of_int_nonspace]).
  destruct (digits_spec z) as (Hne & Hall & Hint).
  rewrite str_of_int_digits. destruct (Z.ltb_spec z 0) as [Hneg|Hpos].
  - rewrite Hint. simpl. f_equal. lia.
  - destruct (digits z) as [|c ds] eqn:E; [done|].
    apply all_chars_cons in Hall as [Hc _].
    assert (c ≠ "-"%char ∧ c ≠ "+"%char) as [H1 H2]
      by (split; intros ->; done).
    assert (Hgoal : Py.int_of_digits (String c ds) = Some z)
      by (rewrite Hint; f_equal; lia).
    destruct c as [[] [] [] [] [] [] [] []]; try done; by rewrite Hgoal.
Qed.

Lemma is_int_str (z : Z) : Params.is_int (Py.str_of_int z) = true.
Proof. unfold Params.is_int. by rewrite int_str. Qed.

(** ** The patterns on well-formed lines *)

Lemma match_lit_step (l : string) (p : list Py.atom) (s r : string) :
  Py.strip_prefix l s = Some r →
  Py.match_atoms (Py.Lit l :: p) s = cons l <$> Py.match_atoms p r.
Proof. intros H. cbn [Py.match_atoms]. by rewrite H. Qed.

Lemma match_lit_fail (l : string) (p : list Py.atom) (s : string) :
  Py.strip_prefix l s = None → Py.match_atoms (Py.Lit l :: p) s = None.
Proof. intros H. cbn [Py.match_atoms]. by rewrite H. Qed.

Lemma join_snoc (texts : list string) (l : string) :
  Py.join (texts ++ [l]) = Py.join texts +:+ l.
Proof.
  induction texts as [|t texts IH]; simpl.
  - apply append_nil_r.
  - unfold Py.join in *. simpl. by rewrite IH, append_assoc.
Qed.

(** A string that matches atoms ending in a literal ends like the literal. *)
Lemma match_ends_with (p : list Py.atom) (l s : string) (texts : list string) :
  Py.match_atoms p s = Some texts → last p = Some (Py.Lit l) →
  l ≠ EmptyString → last_char s = last_char l.
Proof.
  intros [-> HF]%match_atoms_sound Hlast Hl.
  assert (∃ texts', texts = texts' ++ [l]) as [texts' ->].
  { clear Hl. induction HF as [|a t p texts Ha HF IH]; [done|].
    destruct p as [|a' p].
    - inversion HF; subst. injection Hlast as ->. simpl in Ha. subst.
      by exists [].
    - destruct IH as [texts' ->]; [done|]. by exists (t :: texts'). }
  rewrite join_snoc. by apply last_char_app.
Qed.

(** Unfold [fullmatch] on the pattern [pat] down to its atoms. *)
Ltac open_pattern pat :=
  unfold Py.fullmatch;
  let a := eval cbv [Py.atoms_of concat fmap list_fmap snd app pat]
             in (Py.atoms_of pat) in
  change (Py.atoms_of pat) with a.

Ltac side := first [done | reflexivity | by vm_compute].
Ltac lit_ok := erewrite match_lit_step by reflexivity.
Ltac lit_fail := rewrite match_lit_fail by reflexivity.
Ltac plus_ok := rewrite match_plus by side.

Lemma flag_nonspace (s : string) :
  all_chars cls_flag s = true → all_chars nonspace s = true.
Proof. by apply all_chars_impl. Qed.

Lemma param_nonspace (s : string) :
  all_chars cls_param s = true → all_chars nonspace s = true.
Proof. by apply all_chars_impl. Qed.

Section flag_number.
Context (name : string) (Hname : flag_name name).

Local Abbreviation line := (flag_number_line name).

Lemma flag_number_line_word : Py.split line = [line].
Proof.
  destruct Hname as [Hne Hall]. apply split_word; [done|].
  unfold flag_number_line. simpl. rewrite all_chars_app, flag_nonspace; side.
Qed.

Lemma flag_number_not_align : Py.fullmatch Optimize.flag_align_eq_pat line = None.
Proof.
  open_pattern Optimize.flag_align_eq_pat.
  destruct (Py.match_atoms _ line) as [texts|] eqn:E; [|done].
  apply match_ends_with with (l := "=") in E; [|done..].
  unfold flag_number_line in E. rewrite <- append_assoc, last_char_app in E by done.
  by vm_compute in E.
Qed.

Lemma flag_number_not_flag : Py.fullmatch Optimize.flag_pat line = None.
Proof.
  destruct Hname as [Hne Hall].
  open_pattern Optimize.flag_pat. unfold flag_number_line. lit_ok. by plus_ok.
Qed.

Lemma flag_number_not_enum : Py.fullmatch Optimize.flag_enum_pat line = None.
Proof.
  destruct Hname as [Hne Hall].
  open_pattern Optimize.flag_enum_pat. unfold flag_number_line. lit_ok. plus_ok. by lit_fail.
Qed.

Lemma flag_number_not_interval :
  Py.fullmatch Optimize.flag_interval_pat line = None.
Proof.
  destruct Hname as [Hne Hall].
  open_pattern Optimize.flag_interval_pat. unfold flag_number_line. lit_ok. plus_ok. lit_ok.
  by rewrite match_plus_outside.
Qed.

Lemma flag_number_match :
  Py.fullmatch Optimize.flag_number_pat line = Some [name].
Proof.
  destruct Hname as [Hne Hall].
  open_pattern Optimize.flag_number_pat. unfold flag_number_line. lit_ok. plus_ok. lit_ok.
  simpl. by rewrite append_nil_r.
Qed.

(** The line [-f<name>=<number>] files an integer flag from 0 to the
    synthetic bound. *)
Lemma parse_line_flag_number (opts : gmap string Option) (w : world) :
  Optimize.check_overwrite name opts = Ok () →
  Optimize.parse_line line opts w =
  (Ok (<[name := GccFlagIntOption name 0 unbounded_max]> opts), w).
Proof.
  intros Hck. unfold Optimize.parse_line.
  rewrite flag_number_line_word.
  replace (Py.fullmatch Optimize.O_num_pat line) with (@None (list string))
    by reflexivity.
  replace (Py.fullmatch Optimize.O_pat line) with (@None (list string))
    by reflexivity.
  rewrite flag_number_not_align, flag_number_not_flag, flag_number_not_enum,
    flag_number_not_interval, flag_number_match.
  cbn [Py.group nth Nat.pred]. unfold Optimize.add_gcc_flag_int.
  by rewrite Hck.
Qed.
End flag_number.

Lemma match_plus_eq (cls : ascii → bool) (p : list Py.atom) (s a r : string) :
  s = a +:+ r → separated cls p = true →
  a ≠ EmptyString → all_chars cls a = true → head_in cls r = false →
  Py.match_atoms (Py.Plus cls :: p) s = cons a <$> Py.match_atoms p r.
Proof. intros ->. apply match_plus. Qed.

Lemma head_in_app (cls : ascii → bool) (a r : string) :
  a ≠ EmptyString → head_in cls (a +:+ r) = head_in cls a.
Proof. by destruct a. Qed.

Lemma head_in_all (cls1 cls2 : ascii → bool) (a : string) :
  forallb (λ c, negb (cls1 c && cls2 c)) all_ascii = true →
  all_chars cls1 a = true → head_in cls2 a = false.
Proof.
  intros H0 Ha. destruct a as [|c a]; [done|].
  apply all_chars_cons in Ha as [Hc _]. pose proof (forall_ascii _ H0 c) as H.
  simpl in *. rewrite Hc in H. by destruct (cls2 c).
Qed.

(** [-?[0-9]+] on a printed integer takes the sign and the digits. *)
Lemma match_signed (p : list Py.atom) (z : Z) (r : string) :
  separated Py.isdigit p = true → head_in Py.isdigit r = false →
  Py.match_atoms (Py.Opt "-" :: Py.Plus Py.isdigit :: p) (Py.str_of_int z +:+ r)
  = (λ g, sign z :: digits z :: g) <$> Py.match_atoms p r.
Proof.
  intros Hsep Hr. destruct (digits_spec z) as (Hne & Hall & _).
  rewrite str_of_int_digits. unfold sign. destruct (z <? 0).
  - change (String "-" (digits z) +:+ r) with (String "-" (digits z +:+ r)).
    rewrite match_opt_take by done. rewrite match_plus by done.
    by destruct (Py.match_atoms p r).
  - rewrite match_opt_skip.
    + rewrite match_plus by done. by destruct (Py.match_atoms p r).
    + rewrite head_in_app by done. by apply (head_in_all Py.isdigit).
Qed.

Lemma sign_digits (z : Z) : sign z +:+ digits z +:+ EmptyString = Py.str_of_int z.
Proof.
  rewrite str_of_int_digits, append_nil_r. unfold sign. by destruct (z <? 0).
Qed.

Lemma param_name_no_prefix (name : string) :
  all_chars cls_param name = true → Py.strip_prefix "--param=" name = None.
Proof.
  intros Hall. destruct (Py.strip_prefix "--param=" name) as [r|] eqn:E; [|done].
  apply strip_prefix_Some in E as ->. by vm_compute in Hall.
Qed.

Section param_number.
Context (name : string) (Hname : param_name name) (d : Z).

Local Abbreviation spec := (param_number_spec name).
Local Abbreviation line := (with_default spec d).

Lemma param_number_words : Py.split line = [spec; Py.str_of_int d].
Proof.
  destruct Hname as [Hne Hall]. unfold with_default.
  change (spec +:+ " " +:+ Py.str_of_int d)
    with (spec +:+ String " " (Py.str_of_int d)).
  rewrite split_word_space; [|done| |done].
  - rewrite split_word; auto using str_of_int_nonempty, str_of_int_nonspace.
  - unfold param_number_spec. simpl. rewrite all_chars_app, param_nonspace; side.
Qed.

Lemma param_number_not_enum : Py.fullmatch Params.param_enum_pat spec = None.
Proof.
  destruct Hname as [Hne Hall].
  open_pattern Params.param_enum_pat. unfold param_number_spec. lit_ok. plus_ok. by lit_fail.
Qed.

Lemma param_number_not_interval :
  Py.fullmatch Params.param_interval_pat spec = None.
Proof.
  destruct Hname as [Hne Hall].
  open_pattern Params.param_interval_pat. unfold param_number_spec. lit_ok. plus_ok.
  by lit_fail.
Qed.

Lemma param_number_match :
  Py.fullmatch Params.param_number_pat spec = Some [name].
Proof.
  destruct Hname as [Hne Hall].
  open_pattern Params.param_number_pat. unfold param_number_spec. lit_ok. plus_ok. lit_ok.
  simpl. by rewrite append_nil_r.
Qed.

(** The line [--param=<name>= D] files an integer parameter from the
    smaller of 0 and [D] to the synthetic bound. *)
Lemma parse_line_param_number (params : gmap string Option) (w : world) :
  Params.check_absent name params = Ok () →
  Params.parse_line line params w =
  (Ok (<[name := GccParamIntOption name (Z.min 0 d) unbounded_max]> params), w).
Proof.
  intros Hck. unfold Params.parse_line.
  rewrite param_number_words, param_number_not_enum, param_number_not_interval.
  unfold Params.parse_number. rewrite param_number_match, is_int_str, int_str.
  cbn [Py.group nth Nat.pred]. unfold Params.add_gcc_param_int.
  rewrite Hck. unfold mbind, M_bind, lift, mret, M_ret.
  replace (if 0 <=? d then 0 else d) with (Z.min 0 d); [done|].
  destruct (Z.leb_spec 0 d); lia.
Qed.
End param_number.

(** C10: the synthetic bound [2 << 31 - 1] is [2 << 30], that is 2^31 and
    not 2^32 - 1; the line of an unbounded flag and the line of an unbounded
    parameter both file an integer option whose maximum is that value, and
    from a minimum of 0 such an option has 2^31 + 1 values. *)
Theorem C10_unbounded_max_is_2_pow_31 (fname pname : string) (d : Z)
    (opts params : gmap string Option) (w : world) :
  flag_name fname → param_name pname →
  Optimize.check_overwrite fname opts = Ok () →
  Params.check_absent pname params = Ok () →
  unbounded_max = 2147483648 ∧ unbounded_max = 2 ^ 31 ∧
  unbounded_max ≠ 2 ^ 32 - 1 ∧
  Optimize.parse_line ("-f" +:+ fname +:+ "=<number>") opts w =
    (Ok (<[fname := GccFlagIntOption fname 0 2147483648]> opts), w) ∧
  Params.parse_line
    (("--param=" +:+ pname +:+ "=") +:+ " " +:+ Py.str_of_int d) params w =
    (Ok (<[pname := GccParamIntOption pname (Z.min 0 d) 2147483648]> params), w) ∧
  __len__ (GccFlagIntOption fname 0 2147483648) = 2 ^ 31 + 1 ∧
  __len__ (GccParamIntOption pname 0 2147483648) = 2 ^ 31 + 1 ∧
  len (GccFlagIntOption fname 0 2147483648) = Ok (2 ^ 31 + 1) ∧
  len (GccParamIntOption pname 0 2147483648) = Ok (2 ^ 31 + 1).
Proof.
  intros Hf Hp Hopts Hparams.
  repeat split; try done.
  - by apply parse_line_flag_number.
  - by apply parse_line_param_number.
Qed.

Lemma C10_unbounded_max_is_2_pow_31_witness :
  flag_name "inline-limit" ∧ param_name "max-inline-insns-single" ∧
  Optimize.check_overwrite "inline-limit" ∅ = Ok () ∧
  Params.check_absent "max-inline-insns-single" ∅ = Ok () ∧
  Optimize.parse_line "-finline-limit=<number>" ∅ fresh_world =
    (Ok {["inline-limit" := GccFlagIntOption "inline-limit" 0 2147483648]},
     fresh_world) ∧
  Params.parse_line "--param=max-inline-insns-single= 70" ∅ fresh_world =
    (Ok {["max-inline-insns-single" :=
            GccParamIntOption "max-inline-insns-single" 0 2147483648]},
     fresh_world).
Proof.
  assert (Hf : flag_name "inline-limit") by (split; [done | reflexivity]).
  assert (Hp : param_name "max-inline-insns-single")
    by (split; [done | reflexivity]).
  assert (Ho : Optimize.check_overwrite "inline-limit" ∅ = Ok ())
    by (vm_compute; reflexivity).
  assert (Ha : Params.check_absent "max-inline-insns-single" ∅ = Ok ())
    by (vm_compute; reflexivity).
  destruct (C10_unbounded_max_is_2_pow_31 "inline-limit"
              "max-inline-insns-single" 70 ∅ ∅ fresh_world Hf Hp Ho Ha)
    as (_ & _ & _ & H1 & H2 & _).
  split; [exact Hf|]. split; [exact Hp|]. split; [exact Ho|].
  split; [exact Ha|]. split; [exact H1 | exact H2].
Defined.

Ltac plus_at a r := rewrite (match_plus_eq _ _ _ a r) by side.

Lemma is_empty_str (z : Z) : Py.is_empty (Py.str_of_int z) = false.
Proof. pose proof (str_of_int_nonempty z). by destruct (Py.str_of_int z). Qed.

Lemma str_of_nonneg_is_digits (z : Z) : 0 ≤ z → Py.str_of_int z = digits z.
Proof.
  intros Hz. rewrite str_of_int_digits. by destruct (Z.ltb_spec z 0); [lia|].
Qed.

Section param_interval.
Context (name : string) (Hname : param_name name).
Context (d min max : Z) (Hmax : 0 ≤ max).

Local Abbreviation spec := (param_interval_spec name min max).
Local Abbreviation line := (with_default spec d).

Lemma param_interval_words : Py.split line = [spec; Py.str_of_int d].
Proof.
  destruct Hname as [Hne Hall]. unfold with_default.
  change (spec +:+ " " +:+ Py.str_of_int d)
    with (spec +:+ String " " (Py.str_of_int d)).
  rewrite split_word_space; [|done| |done].
  - rewrite split_word; auto using str_of_int_nonempty, str_of_int_nonspace.
  - unfold param_interval_spec.
    repeat first [ rewrite all_chars_app | rewrite (param_nonspace name Hall)
                 | rewrite str_of_int_nonspace | progress simpl ].
    side.
Qed.

Lemma param_interval_not_enum : Py.fullmatch Params.param_enum_pat spec = None.
Proof.
  destruct Hname as [Hne Hall].
  open_pattern Params.param_enum_pat. unfold param_interval_spec. lit_ok. plus_ok. by lit_fail.
Qed.

Lemma param_interval_match :
  Py.fullmatch Params.param_interval_pat spec =
  Some [name; Py.str_of_int min; Py.str_of_int max].
Proof.
  destruct Hname as [Hne Hall].
  destruct (digits_spec max) as (Hdne & Hdall & _).
  open_pattern Params.param_interval_pat. unfold param_interval_spec, cls_digit.
  lit_ok. plus_ok. lit_ok. rewrite match_signed by side. lit_ok.
  rewrite (str_of_nonneg_is_digits max) by done.
  plus_ok. lit_ok. simpl.
  by rewrite sign_digits, !append_nil_r.
Qed.

(** The line [--param=<name>=<MIN,MAX> D]: with [D] inside the bounds the
    parameter is filed, with [D] outside the assertion fails. *)
Lemma parse_line_param_interval (params : gmap string Option) (w : world) :
  Params.check_absent name params = Ok () →
  Params.parse_line line params w =
  if (min <=? d) && (d <=? max)
  then (Ok (<[name := GccParamIntOption name min max]> params), w)
  else (Raise AssertionError, w).
Proof.
  intros Hck. unfold Params.parse_line.
  rewrite param_interval_words, param_interval_not_enum, param_interval_match.
  cbn [Py.group nth Nat.pred].
  rewrite is_int_str, is_empty_str. unfold Params.add_gcc_param_int.
  rewrite Hck. unfold mbind, M_bind, lift, mret, M_ret.
  rewrite !int_str. simpl.
  by destruct ((min <=? d) && (d <=? max)).
Qed.
End param_interval.

Lemma str_head_nonspace (z : Z) (r : string) :
  head_in Py.isspace (Py.str_of_int z +:+ r) = false.
Proof.
  rewrite head_in_app by apply str_of_int_nonempty.
  apply (head_in_all nonspace); [by vm_compute | apply str_of_int_nonspace].
Qed.

Ltac space_ok := rewrite match_plus by first [side | apply str_head_nonspace].

Section param_legacy.
Context (name : string) (Hname : param_name name) (d min max : Z).

Local Abbreviation line := (param_legacy_line name d min max).

Lemma param_legacy_words :
  ∃ rest, Py.split line = name :: "default" :: rest.
Proof.
  destruct Hname as [Hne Hall]. eexists.
  change line with
    (name +:+ String " " ("default" +:+ String " "
       (Py.str_of_int d +:+ " minimum " +:+ Py.str_of_int min +:+
        " maximum " +:+ Py.str_of_int max))).
  rewrite split_word_space by (done || by apply param_nonspace).
  by rewrite split_word_space by done.
Qed.

Lemma param_legacy_match :
  Py.fullmatch Params.param_old_interval_pat line =
  Some [name; Py.str_of_int d; Py.str_of_int min; Py.str_of_int max].
Proof.
  destruct Hname as [Hne Hall].
  open_pattern Params.param_old_interval_pat.
  change line with
    (name +:+ " " +:+ "default" +:+ " " +:+ Py.str_of_int d +:+ " " +:+
     "minimum" +:+ " " +:+ Py.str_of_int min +:+ " " +:+ "maximum" +:+ " " +:+
     Py.str_of_int max).
  rewrite <- (append_nil_r (Py.str_of_int max)).
  plus_ok.
  space_ok. rewrite match_lit. space_ok. rewrite match_signed by side.
  space_ok. rewrite match_lit. space_ok. rewrite match_signed by side.
  space_ok. rewrite match_lit. space_ok. rewrite match_signed by side.
  simpl. by rewrite !sign_digits, !append_nil_r.
Qed.

(** The line [<name> default D minimum MIN maximum MAX]: with [D] inside
    the bounds the parameter is filed, with [D] outside the line is
    dropped with a warning. *)
Lemma parse_line_param_legacy (params : gmap string Option) (w : world) :
  Params.check_absent name params = Ok () →
  Params.parse_line line params w =
  if (min <=? d) && (d <=? max)
  then (Ok (<[name := GccParamIntOption name min max]> params), w)
  else (Ok params,
        logged WARNING ("Unknown GCC param flag spec, '" +:+ line +:+ "'") w).
Proof.
  intros Hck. destruct Hname as [Hne Hall].
  destruct param_legacy_words as [rest Hsplit].
  unfold Params.parse_line. rewrite Hsplit.
  assert (Hno : ∀ pat p,
    Py.atoms_of pat = Py.Lit "--param=" :: p → Py.fullmatch pat name = None).
  { intros pat p Hp. unfold Py.fullmatch. rewrite Hp.
    by rewrite match_lit_fail by by apply param_name_no_prefix. }
  rewrite (Hno Params.param_enum_pat _ eq_refl).
  rewrite (Hno Params.param_interval_pat _ eq_refl).
  unfold Params.parse_number.
  rewrite (Hno Params.param_number_pat _ eq_refl).
  unfold Params.parse_old. rewrite param_legacy_match.
  cbn [Py.group nth Nat.pred]. unfold Params.add_gcc_param_int.
  rewrite Hck. unfold mbind, M_bind, lift, mret, M_ret.
  rewrite !int_str. by destruct ((min <=? d) && (d <=? max)).
Qed.
End param_legacy.

Lemma check_absent_None (name : string) (params : gmap string Option) :
  params !! name = None → Params.check_absent name params = Ok ().
Proof. intros H. unfold Params.check_absent. by rewrite H. Qed.

(** The claim C4 fails on the modern form: a default outside the bounds
    stops the parse with an [AssertionError], on the line alone and through
    [_gcc_parse_params]. *)
Lemma C4_modern_default_outside_aborts :
  Params.parse_line "--param=foo=<0,10> 20" ∅ fresh_world =
    (Raise AssertionError, fresh_world) ∧
  _gcc_parse_params
    (gcc_printing "gcc 11" EmptyString (text ["params:"; "  --param=foo=<0,10>   20"]))
    fresh_world = (Raise AssertionError, fresh_world).
Proof. split; by vm_compute. Qed.

(** C4, as amended: for a parameter not filed yet, the legacy line files
    [GccParamIntOption(name, min, max)] exactly when the default lies within
    the bounds and is otherwise dropped with a warning only; the modern line
    [--param=name=<min,max>] with an integer default files the same option
    when the default lies within the bounds, and fails the assertion of the
    parser when it lies outside. *)
Theorem C4_param_default_within_bounds (name : string) (d min max : Z)
    (params : gmap string Option) (w : world) :
  param_name name → Params.check_absent name params = Ok () →
  let filed := (Ok (<[name := GccParamIntOption name min max]> params), w) in
  let legacy :=
    name +:+ " default " +:+ Py.str_of_int d +:+ " minimum " +:+
    Py.str_of_int min +:+ " maximum " +:+ Py.str_of_int max in
  let modern :=
    ("--param=" +:+ name +:+ "=<" +:+ Py.str_of_int min +:+ "," +:+
     Py.str_of_int max +:+ ">") +:+ " " +:+ Py.str_of_int d in
  Params.parse_line legacy params w =
    (if (min <=? d) && (d <=? max) then filed
     else (Ok params,
           logged WARNING
             ("Unknown GCC param flag spec, '" +:+ legacy +:+ "'") w)) ∧
  (0 ≤ max →
   Params.parse_line modern params w =
     (if (min <=? d) && (d <=? max) then filed
      else (Raise AssertionError, w))).
Proof.
  intros Hname Hck. split.
  - by apply parse_line_param_legacy.
  - intros Hmax. by apply parse_line_param_interval.
Qed.

Lemma C4_param_default_within_bounds_witness :
  param_name "max-unroll-times" ∧
  Params.check_absent "max-unroll-times" ∅ = Ok () ∧
  Params.parse_line "max-unroll-times default 20 minimum 0 maximum 10" ∅
    fresh_world =
    (Ok ∅,
     logged WARNING
       "Unknown GCC param flag spec, 'max-unroll-times default 20 minimum 0 maximum 10'"
       fresh_world) ∧
  Params.parse_line "--param=max-unroll-times=<0,10> 5" ∅ fresh_world =
    (Ok {["max-unroll-times" := GccParamIntOption "max-unroll-times" 0 10]},
     fresh_world).
Proof.
  assert (Hn : param_name "max-unroll-times") by (split; [done | reflexivity]).
  assert (Hc : Params.check_absent "max-unroll-times" ∅ = Ok ())
    by (vm_compute; reflexivity).
  split; [exact Hn|]. split; [exact Hc|]. split.
  - exact (proj1 (C4_param_default_within_bounds "max-unroll-times" 20 0 10
                    ∅ fresh_world Hn Hc)).
  - refine (proj2 (C4_param_default_within_bounds "max-unroll-times" 5 0 10
                     ∅ fresh_world Hn Hc) _). lia.
Defined.

(** ** The dictionary of the optimization parser *)

Section supersession.
Context (name : string) (opts : gmap string Option) (w : world).

(** A boolean sighting files a provisional flag for an absent name. *)
Lemma add_gcc_flag_absent :
  opts !! name = None →
  Optimize.add_gcc_flag name opts w =
  (Ok (<[name := GccFlagOption name false]> opts), w).
Proof. intros H. unfold Optimize.add_gcc_flag. by rewrite H. Qed.

(** A boolean sighting leaves any entry of the name as it is. *)
Lemma add_gcc_flag_present (o : Option) :
  opts !! name = Some o → Optimize.add_gcc_flag name opts w = (Ok opts, w).
Proof.
  intros H. unfold Optimize.add_gcc_flag. rewrite H. simpl.
  by rewrite insert_id.
Qed.

Lemma check_overwrite_absent :
  opts !! name = None → Optimize.check_overwrite name opts = Ok ().
Proof. intros H. unfold Optimize.check_overwrite. by rewrite H. Qed.

Lemma check_overwrite_provisional (n : string) (no_fno : bool) :
  opts !! name = Some (GccFlagOption n no_fno) →
  Optimize.check_overwrite name opts = Ok ().
Proof.
  intros H. unfold Optimize.check_overwrite. rewrite H. by destruct no_fno.
Qed.

(** An entry that is true and not a plain flag fails the assertion. *)
Lemma check_overwrite_specialized (o : Option) :
  opts !! name = Some o → truth o = Ok true → is_GccFlagOption o = false →
  Optimize.check_overwrite name opts = Raise AssertionError.
Proof.
  intros H Ht Hf. unfold Optimize.check_overwrite. rewrite H, Ht. simpl.
  by rewrite Hf.
Qed.

(** An entry that is false, one of length 0, passes unchecked. *)
Lemma check_overwrite_false (o : Option) :
  opts !! name = Some o → truth o = Ok false →
  Optimize.check_overwrite name opts = Ok ().
Proof. intros H Ht. unfold Optimize.check_overwrite. by rewrite H, Ht. Qed.

(** A specialized sighting replaces the entry when the check passes, and
    fails with the check otherwise. *)
Lemma add_specialized (values : list string) (min max : Z) :
  match Optimize.check_overwrite name opts with
  | Ok _ =>
      Optimize.add_gcc_flag_enum name values opts w =
        (Ok (<[name := GccFlagEnumOption name values]> opts), w) ∧
      Optimize.add_gcc_flag_int name min max opts w =
        (Ok (<[name := GccFlagIntOption name min max]> opts), w) ∧
      (Optimize.add_gcc_flag_align name opts w).1 =
        Ok (<[name := GccFlagAlignOption name]> opts)
  | Raise e =>
      Optimize.add_gcc_flag_enum name values opts w = (Raise e, w) ∧
      Optimize.add_gcc_flag_int name min max opts w = (Raise e, w) ∧
      Optimize.add_gcc_flag_align name opts w = (Raise e, w)
  end.
Proof.
  unfold Optimize.add_gcc_flag_enum, Optimize.add_gcc_flag_int,
    Optimize.add_gcc_flag_align.
  by destruct (Optimize.check_overwrite name opts).
Qed.
End supersession.

(** The example of the spec: a flag seen plain and then with values ends
    as one enumerated flag, in either order of the two lines. *)
Lemma flag_then_enum :
  _gcc_parse_optimize
    (gcc_printing "gcc 11" (text ["options:"; "  -ffoo"; "  -ffoo=[a|b]"])
       EmptyString) fresh_world
  = (Ok [GccFlagEnumOption "foo" ["a"; "b"]], fresh_world) ∧
  _gcc_parse_optimize
    (gcc_printing "gcc 11" (text ["options:"; "  -ffoo=[a|b]"; "  -ffoo"])
       EmptyString) fresh_world
  = (Ok [GccFlagEnumOption "foo" ["a"; "b"]], fresh_world).
Proof. split; by vm_compute. Qed.

(** A specialized entry of positive length is not replaced: the parse
    stops on the assertion. *)
Lemma interval_then_enum_aborts :
  _gcc_parse_optimize
    (gcc_printing "gcc 11" (text ["options:"; "  -ffoo=<0,1>"; "  -ffoo=[a|b]"])
       EmptyString) fresh_world
  = (Raise AssertionError, fresh_world).
Proof. by vm_compute. Qed.

(** C3 on the code: the interval flag [-ffoo=<1,0>] has length 0 and is
    therefore false under [if opt:], so the later sighting [-ffoo=[a|b]]
    replaces it without reaching the assertion, although the replaced entry
    is not a [GccFlagOption]; the parse ends normally. *)
Theorem C3_empty_interval_replaced_unchecked :
  let first := GccFlagIntOption "foo" 1 0 in
  Optimize.parse_line "-ffoo=<1,0>" ∅ fresh_world =
    (Ok {["foo" := first]}, fresh_world) ∧
  is_GccFlagOption first = false ∧ len first = Ok 0 ∧ truth first = Ok false ∧
  Optimize.parse_line "-ffoo=[a|b]" {["foo" := first]} fresh_world =
    (Ok {["foo" := GccFlagEnumOption "foo" ["a"; "b"]]}, fresh_world) ∧
  _gcc_parse_optimize
    (gcc_printing "gcc 11" (text ["options:"; "  -ffoo=<1,0>"; "  -ffoo=[a|b]"])
       EmptyString) fresh_world
  = (Ok [GccFlagEnumOption "foo" ["a"; "b"]], fresh_world).
Proof. repeat split; by vm_compute. Qed.

(** ** Reasoning about effectful code *)

Lemma sound_ret {A} (a : A) (Q : A → Prop) : Q a → sound (mret a) Q.
Proof. intros H w. split; [done|]. by intros ? [= <-]. Qed.

Lemma sound_lift {A} (r : res A) (Q : A → Prop) :
  (∀ a, r = Ok a → Q a) → sound (lift r) Q.
Proof. intros H w. split; [done|]. simpl. auto. Qed.

Lemma sound_logging (l : level) (msg : string) (Q : unit → Prop) :
  Q () → sound (logging l msg) Q.
Proof. intros H w. split; [done|]. by intros [] _. Qed.

Lemma sound_bind {A B} (m : M A) (f : A → M B) (P : A → Prop) (Q : B → Prop) :
  sound m P → (∀ a, P a → sound (f a) Q) → sound (m ≫= f) Q.
Proof.
  intros Hm Hf w. unfold mbind, M_bind.
  destruct (Hm w) as [Hfiles HP]. destruct (m w) as [[a|e] w1]; simpl in *.
  - destruct (Hf a (HP a eq_refl) w1) as [Hfiles' HQ].
    split; [congruence | done].
  - split; [done | by intros].
Qed.

Lemma sound_for_each {A S} (body : A → S → M S) (P : S → Prop) (xs : list A)
    (s : S) :
  (∀ x s, P s → sound (body x s) P) → P s → sound (for_each body xs s) P.
Proof.
  intros Hbody. revert s. induction xs as [|x xs IH]; intros s Hs; simpl.
  - by apply sound_ret.
  - apply sound_bind with P; auto.
Qed.

Lemma sound_bind_lift {A B} (r : res A) (f : A → M B) (Q : B → Prop) :
  (∀ a, r = Ok a → sound (f a) Q) → sound (lift r ≫= f) Q.
Proof.
  intros H. apply sound_bind with (λ a, r = Ok a); [|done].
  by apply sound_lift.
Qed.

Lemma sound_bind_logging {B} (l : level) (msg : string) (f : unit → M B)
    (Q : B → Prop) :
  sound (f ()) Q → sound (logging l msg ≫= f) Q.
Proof.
  intros H. apply sound_bind with (λ _, True); [by apply sound_logging|].
  by intros [] _.
Qed.

Ltac sound_step :=
  lazymatch goal with
  | |- sound (mret _) _ => apply sound_ret
  | |- sound (lift _ ≫= _) _ => apply sound_bind_lift; intros ? _
  | |- sound (logging _ _ ≫= _) _ => apply sound_bind_logging
  end.

(** ** The dictionaries keep every option under its name *)

Lemma keys_named_insert (d : gmap string Option) (k : string) (o : Option) :
  keys_named d → option_name o = k → keys_named (<[k := o]> d).
Proof. intros Hd Ho. by apply map_Forall_insert_2. Qed.

Lemma keys_named_lookup (d : gmap string Option) (k : string) (o : Option) :
  keys_named d → d !! k = Some o → option_name o = k.
Proof. intros Hd Hk. by apply (Hd k o). Qed.

Lemma add_gcc_o_sound (value : string) (opts : gmap string Option) :
  keys_named opts → sound (Optimize.add_gcc_o value opts) keys_named.
Proof.
  intros Hd. unfold Optimize.add_gcc_o.
  apply sound_bind_lift. intros [] Has.
  destruct (default (GccOOption []) (opts !! "O")) as [vs| | | | | |];
    try done.
  apply sound_ret. by repeat apply keys_named_insert.
Qed.

Lemma optimize_parse_line_sound (line : string) (opts : gmap string Option) :
  keys_named opts → sound (Optimize.parse_line line opts) keys_named.
Proof.
  intros Hd. unfold Optimize.parse_line.
  repeat case_match; subst.
  - by apply sound_ret.
  - apply sound_for_each; [|done]. intros. by apply add_gcc_o_sound.
  - by apply add_gcc_o_sound.
  - unfold Optimize.add_gcc_flag_align. do 3 sound_step.
    by apply keys_named_insert.
  - unfold Optimize.add_gcc_flag. sound_step. apply keys_named_insert; [done|].
    destruct (opts !! _) eqn:E; simpl; [by eapply keys_named_lookup | done].
  - unfold Optimize.add_gcc_flag_enum. do 2 sound_step.
    by apply keys_named_insert.
  - do 2 sound_step. unfold Optimize.add_gcc_flag_int. do 2 sound_step.
    by apply keys_named_insert.
  - unfold Optimize.add_gcc_flag_int. do 2 sound_step.
    by apply keys_named_insert.
  - by do 2 sound_step.
Qed.

Lemma add_gcc_param_int_sound (name : string) (min max : Z)
    (params : gmap string Option) :
  keys_named params →
  sound (Params.add_gcc_param_int name min max params) keys_named.
Proof.
  intros Hd. unfold Params.add_gcc_param_int. do 2 sound_step.
  by apply keys_named_insert.
Qed.

Lemma params_parse_old_sound (line : string) (params : gmap string Option) :
  keys_named params → sound (Params.parse_old line params) keys_named.
Proof.
  intros Hd. unfold Params.parse_old. repeat case_match; subst.
  - do 3 sound_step.
    case_match; [by apply add_gcc_param_int_sound | by do 2 sound_step].
  - by do 2 sound_step.
Qed.

Lemma params_parse_number_sound (spec default line : string)
    (params : gmap string Option) :
  keys_named params →
  sound (Params.parse_number spec default line params) keys_named.
Proof.
  intros Hd. unfold Params.parse_number. repeat case_match; subst;
    try by apply params_parse_old_sound.
  sound_step. by apply add_gcc_param_int_sound.
Qed.

Lemma params_parse_line_sound (line : string) (params : gmap string Option) :
  keys_named params → sound (Params.parse_line line params) keys_named.
Proof.
  intros Hd. unfold Params.parse_line, Params.add_gcc_param_enum.
  repeat case_match; subst; repeat sound_step;
    auto using add_gcc_param_int_sound, params_parse_number_sound,
      keys_named_insert.
Qed.

(** ** The order of [str] and the sorted items *)

Lemma ascii_compare_spec (a b : ascii) :
  CompareSpec (a = b) (Py.code a < Py.code b)%N (Py.code b < Py.code a)%N
    (Ascii.compare a b).
Proof.
  unfold Ascii.compare, Py.code.
  destruct (N.compare_spec (N_of_ascii a) (N_of_ascii b)) as [H|H|H];
    constructor; try done.
  by rewrite <- (ascii_N_embedding a), <- (ascii_N_embedding b), H.
Qed.

Lemma string_compare_refl (s : string) : String.compare s s = Eq.
Proof.
  induction s as [|a s IH]; simpl; [done|].
  destruct (ascii_compare_spec a a); [done | lia | lia].
Qed.

Lemma string_compare_lt_trans (s1 s2 s3 : string) :
  String.compare s1 s2 = Lt → String.compare s2 s3 = Lt →
  String.compare s1 s3 = Lt.
Proof.
  revert s2 s3. induction s1 as [|a s1 IH]; intros [|b s2] [|c s3]; simpl;
    try done.
  destruct (ascii_compare_spec a b), (ascii_compare_spec b c),
    (ascii_compare_spec a c); subst; try done; try lia; eauto.
Qed.

Lemma leb_cases (s1 s2 : string) :
  String.leb s1 s2 = true ↔ s1 = s2 ∨ String.ltb s1 s2 = true.
Proof.
  unfold String.leb, String.ltb. split.
  - destruct (String.compare s1 s2) eqn:E; [|by right|done].
    left. by apply String.compare_eq_iff.
  - intros [->|H]; [by rewrite string_compare_refl|].
    by destruct (String.compare s1 s2).
Qed.

Lemma ltb_trans (s1 s2 s3 : string) :
  String.ltb s1 s2 = true → String.ltb s2 s3 = true → String.ltb s1 s3 = true.
Proof.
  unfold String.ltb. intros H1 H2.
  rewrite (string_compare_lt_trans s1 s2 s3); [done|..].
  - by destruct (String.compare s1 s2).
  - by destruct (String.compare s2 s3).
Qed.

Lemma ltb_irrefl (s : string) : String.ltb s s = false.
Proof. unfold String.ltb. by rewrite string_compare_refl. Qed.

Global Instance key_le_total : Total key_le.
Proof. intros a b. apply String.leb_total. Qed.

Global Instance key_le_trans : Transitive key_le.
Proof.
  intros a b c. unfold key_le. rewrite !leb_cases.
  intros [E1|H1] [E2|H2].
  - left. congruence.
  - right. by rewrite E1.
  - right. by rewrite <- E2.
  - right. by eapply ltb_trans.
Qed.

Global Instance name_lt_trans : Transitive name_lt.
Proof. intros a b c. apply ltb_trans. Qed.

Lemma name_lt_irrefl (a b : Option) :
  name_lt a b → option_name a ≠ option_name b.
Proof. unfold name_lt. intros H Heq. by rewrite Heq, ltb_irrefl in H. Qed.

(** A list sorted by name has no name twice. *)
Lemma sorted_by_name_NoDup (l : list Option) :
  sorted_by_name l → NoDup (option_name <$> l).
Proof.
  induction 1 as [|a l Hl IH Hall]; [constructor|].
  rewrite fmap_cons. constructor; [|done].
  intros (b & Hb & Hin)%list_elem_of_fmap.
  rewrite Forall_forall in Hall. by apply (name_lt_irrefl a b); auto.
Qed.

(** Items sorted by key, with distinct keys and each option under its
    name, project to options sorted by name. *)
Lemma items_sorted_by_name (items : list (string * Option)) :
  StronglySorted key_le items → NoDup items.*1 →
  Forall (λ kv, option_name kv.2 = kv.1) items →
  sorted_by_name items.*2.
Proof.
  induction 1 as [|[k o] items Hs IH Hall]; [constructor|].
  rewrite fmap_cons. intros [Hk Hnd]%NoDup_cons [Ho Hnames]%Forall_cons.
  rewrite fmap_cons. constructor; [by apply IH|].
  apply Forall_fmap, Forall_forall. intros [k' o'] Hin.
  rewrite Forall_forall in Hall, Hnames.
  specialize (Hall _ Hin). specialize (Hnames _ Hin).
  unfold key_le, name_lt in *. simpl in *. rewrite Ho, Hnames.
  apply leb_cases in Hall as [->|H]; [|done].
  destruct Hk. apply list_elem_of_fmap. by exists (k', o').
Qed.

Lemma sorted_values_sorted (d : gmap string Option) :
  keys_named d → sorted_by_name (sorted_values d).
Proof.
  intros Hd. unfold sorted_values.
  pose proof (merge_sort_Permutation key_le (map_to_list d)) as Hperm.
  apply items_sorted_by_name.
  - apply StronglySorted_merge_sort; apply _.
  - rewrite Hperm. apply NoDup_fst_map_to_list.
  - rewrite Hperm. apply Forall_forall. intros [k o] Hin%elem_of_map_to_list.
    by apply (Hd k o).
Qed.

Lemma parse_optimize_sound (g : Gcc) :
  sound (_gcc_parse_optimize g) sorted_by_name.
Proof.
  unfold _gcc_parse_optimize. sound_step.
  eapply sound_bind.
  - apply sound_for_each with (P := keys_named).
    + intros. by apply optimize_parse_line_sound.
    + apply map_Forall_empty.
  - intros d Hd. apply sound_ret. by apply sorted_values_sorted.
Qed.

Lemma parse_params_sound (g : Gcc) :
  sound (_gcc_parse_params g) sorted_by_name.
Proof.
  unfold _gcc_parse_params. sound_step.
  eapply sound_bind.
  - apply sound_for_each with (P := keys_named).
    + intros. by apply params_parse_line_sound.
    + apply map_Forall_empty.
  - intros d Hd. apply sound_ret. by apply sorted_values_sorted.
Qed.

(** ** Discovery *)

(** What [parse_spec] returns and what it writes. *)
Lemma parse_spec_outcome (g : Gcc) (ver path : string) (w : world) :
  match parse_spec g ver path w with
  | (Ok (Some spec), w') =>
      ∃ optim w1 params w2,
        _gcc_parse_optimize g w = (Ok optim, w1) ∧
        _gcc_parse_params g w1 = (Ok params, w2) ∧
        spec = {| gcc := g; version := ver;
                  options := _fix_options (optim ++ params) |} ∧
        options spec ≠ [] ∧
        w' = {| logs := logs w2; files := <[path := Pickled spec]> (files w) |}
  | (Ok None, w') =>
      (∃ optim w1 params,
         _gcc_parse_optimize g w = (Ok optim, w1) ∧
         _gcc_parse_params g w1 = (Ok params, w') ∧
         _fix_options (optim ++ params) = []) ∧
      files w' = files w
  | (Raise _, w') => files w' = files w
  end.
Proof.
  unfold parse_spec, mbind, M_bind.
  destruct (parse_optimize_sound g w) as [Hf1 _].
  destruct (_gcc_parse_optimize g w) as [[optim|e] w1] eqn:E1; simpl in Hf1;
    [|done].
  destruct (parse_params_sound g w1) as [Hf2 _].
  destruct (_gcc_parse_params g w1) as [[params|e] w2] eqn:E2; simpl in Hf2;
    [|congruence].
  simpl. destruct (_fix_options (optim ++ params)) as [|o l] eqn:E.
  - split; [|congruence]. by exists optim, w1, params.
  - exists optim, w1, params, w2. rewrite E.
    repeat split; try done. unfold pickle_dump. simpl. by rewrite Hf2, Hf1.
Qed.

Lemma get_version_outcome (g : Gcc) (w : world) :
  _gcc_get_version g w =
  match version_try g with
  | Ok ver => (Ok (Some ver), w)
  | Raise e =>
      if Py.is_SubprocessError e
      then (Ok None, logged ERROR "Unable to get GCC version" w)
      else (Raise e, w)
  end.
Proof.
  unfold _gcc_get_version. destruct (version_try g) as [ver|e]; [done|].
  by destruct (Py.is_SubprocessError e).
Qed.

(** A failed version query: no spec when the exception is one of
    [subprocess], the exception itself otherwise. *)
Lemma get_spec_version_failure (g : Gcc) (cache_dir : string) (w : world)
    (e : exn) :
  version_try g = Raise e →
  _get_spec g cache_dir w =
  if Py.is_SubprocessError e
  then (Ok None, logged ERROR "Unable to get GCC version" w)
  else (Raise e, w).
Proof.
  intros H. unfold _get_spec, mbind, M_bind.
  rewrite get_version_outcome, H. by destruct (Py.is_SubprocessError e).
Qed.







(** The claim C5 fails on the whole list: the parameters follow the flags
    whatever their names, be it the attribute [name] or the text of
    [__str__], and a fixup can rename a flag to a name already present. *)
Lemma C5_concatenation_not_sorted :
  let g :=
    gcc_printing "gcc (GCC) 11.2.0"
      (text ["options:"; "  -fexceptions"; "  -fhandle-exceptions"; "  -fz"])
      (text ["params:"; "  --param=a=<0,1>   0"]) in
  let found :=
    [GccFlagOption "exceptions" false; GccFlagOption "exceptions" false;
     GccFlagOption "z" false; GccParamIntOption "a" 0 1] in
  (∃ w', _get_spec g "/cache" fresh_world =
           (Ok (Some {| gcc := g; version := "gcc (GCC) 11.2.0";
                        options := found |}), w')) ∧
  ¬ Sorted name_le found ∧
  ¬ Sorted (λ a b, String.leb (__str__ a) (__str__ b) = true) found ∧
  ¬ NoDup (option_name <$> found).
Proof.
  split; [eexists; by vm_compute|]. split; [|split].
  - intros H. do 2 apply Sorted_inv in H as [H _].
    apply Sorted_inv in H as [_ H]. by apply HdRel_inv in H.
  - intros H. do 2 apply Sorted_inv in H as [H _].
    apply Sorted_inv in H as [_ H]. by apply HdRel_inv in H.
  - intros H. apply NoDup_cons in H as [H _]. apply H. by left.
Qed.

(** The spec that [parse_spec] builds: two sorted streams, fixed up. *)
Lemma parse_spec_streams (g : Gcc) (ver path : string) (w w' : world)
    (spec : GccSpec) :
  parse_spec g ver path w = (Ok (Some spec), w') →
  ∃ optim w1 params w2,
    _gcc_parse_optimize g w = (Ok optim, w1) ∧
    _gcc_parse_params g w1 = (Ok params, w2) ∧
    sorted_by_name optim ∧ NoDup (option_name <$> optim) ∧
    sorted_by_name params ∧ NoDup (option_name <$> params) ∧
    options spec = _fix_options (optim ++ params).
Proof.
  intros H. pose proof (parse_spec_outcome g ver path w) as Hout.
  rewrite H in Hout. destruct Hout as (optim & w1 & params & w2 & H1 & H2 & -> & _).
  exists optim, w1, params, w2.
  assert (sorted_by_name optim) as Ho.
  { destruct (parse_optimize_sound g w) as [_ Hs]. apply Hs. by rewrite H1. }
  assert (sorted_by_name params) as Hp.
  { destruct (parse_params_sound g w1) as [_ Hs]. apply Hs. by rewrite H2. }
  auto 10 using sorted_by_name_NoDup.
Qed.

(** ** The cache and the spec that is returned *)

Lemma read_spec_outcome (g : Gcc) (path : string) (w : world) :
  files (read_spec g path w).2 = files w ∧
  ∀ spec, (read_spec g path w).1 = Ok (Some spec) →
    ∃ spec0, files w !! path = Some (Pickled spec0) ∧
             options spec = options spec0.
Proof.
  unfold read_spec, pickle_load.
  destruct (files w !! path) as [[spec0|e]|] eqn:E; simpl.
  - split; [done|]. intros spec [= <-]. by exists spec0.
  - destruct e; by split.
  - by split.
Qed.

(** The last step of [_get_spec]: the size is computed, the spec returned. *)
Lemma get_spec_return (spec : GccSpec) (w : world) :
  (_ ← lift (size spec); mret (Some spec)) w =
  match size spec with
  | Ok _ => (Ok (Some spec), w)
  | Raise e => (Raise e, w)
  end.
Proof. unfold mbind, M_bind, lift. by destruct (size spec). Qed.

Lemma version_try_nonempty (g : Gcc) (ver : string) :
  version_try g = Ok ver → Py.is_empty ver = false.
Proof.
  unfold version_try. destruct (call g _); [|done]. simpl.
  destruct (Py.index _ 0) as [v|]; [|done]. simpl.
  destruct (Py.contains "gcc" v) eqn:E; [|done]. simpl.
  intros [= <-]. by destruct v.
Qed.

(** The outcome of discovery when no spec was read from the cache. *)
Lemma get_spec_parse (g : Gcc) (ver path : string) (w : world) :
  (spec ← parse_spec g ver path;
   match spec with
   | None => mret None
   | Some spec => _ ← lift (size spec); mret (Some spec)
   end) w =
  match parse_spec g ver path w with
  | (Ok (Some spec), w') =>
      match size spec with
      | Ok _ => (Ok (Some spec), w')
      | Raise e => (Raise e, w')
      end
  | (Ok None, w') => (Ok None, w')
  | (Raise e, w') => (Raise e, w')
  end.
Proof.
  unfold mbind at 1. unfold M_bind at 1.
  by destruct (parse_spec g ver path w) as [[[spec|]|e] w'].
Qed.

(** [_get_spec] once the version is known: the cached spec if one is read,
    the parsed one otherwise. *)
Lemma get_spec_unfold (g : Gcc) (cache_dir ver : string) (w : world) :
  version_try g = Ok ver →
  _get_spec g cache_dir w =
  let path := spec_path cache_dir ver in
  let finish (out : res (option GccSpec) * world) :=
    match out with
    | (Ok (Some spec), w') =>
        match size spec with
        | Ok _ => (Ok (Some spec), w')
        | Raise e => (Raise e, w')
        end
    | out => out
    end in
  match (if bool_decide (is_Some (files w !! path))
         then read_spec g path w else (Ok None, w)) with
  | (Ok (Some spec), w1) => finish (Ok (Some spec), w1)
  | (Ok None, w1) => finish (parse_spec g ver path w1)
  | (Raise e, w1) => (Raise e, w1)
  end.
Proof.
  intros Hver. unfold _get_spec.
  unfold mbind at 1. unfold M_bind at 1.
  rewrite get_version_outcome, Hver, (version_try_nonempty g ver Hver).
  unfold mbind at 1. unfold M_bind at 1. unfold isfile.
  cbv zeta. unfold mbind at 1. unfold M_bind at 1.
  set (path := spec_path cache_dir ver).
  destruct (bool_decide (is_Some (files w !! path))).
  - destruct (read_spec g path w) as [[[spec|]|e] w1]; [| |done].
    + unfold mbind at 1. unfold M_bind at 1. unfold mret at 1. unfold M_ret at 1.
      apply get_spec_return.
    + rewrite get_spec_parse.
      by destruct (parse_spec g ver path w1) as [[[spec|]|e] w'].
  - unfold mret at 1. unfold M_ret at 1. rewrite get_spec_parse.
    by destruct (parse_spec g ver path w) as [[[spec|]|e] w'].
Qed.

(** C5, as amended: the option list of a spec that discovery builds, no
    spec being cached for the version, is the fixed-up concatenation of the
    two parse results, and each parse result is sorted by option name with
    no name twice. *)
Theorem C5_spec_options_are_two_sorted_streams (g : Gcc)
    (cache_dir ver : string) (w w' : world) (spec : GccSpec) :
  version_try g = Ok ver →
  files w !! spec_path cache_dir ver = None →
  _get_spec g cache_dir w = (Ok (Some spec), w') →
  ∃ optim w1 params w2,
    _gcc_parse_optimize g w = (Ok optim, w1) ∧
    _gcc_parse_params g w1 = (Ok params, w2) ∧
    sorted_by_name optim ∧ NoDup (option_name <$> optim) ∧
    sorted_by_name params ∧ NoDup (option_name <$> params) ∧
    options spec = _fix_options (optim ++ params).
Proof.
  intros Hver Hnone. rewrite (get_spec_unfold g cache_dir ver w Hver). cbv zeta.
  rewrite Hnone, bool_decide_false by by intros [].
  destruct (parse_spec g ver (spec_path cache_dir ver) w)
    as [[[spec1|]|e] w1] eqn:E; try done.
  destruct (size spec1); [|done]. intros [= <- <-].
  by eapply parse_spec_streams.
Qed.

Lemma C5_spec_options_are_two_sorted_streams_witness :
  let g :=
    gcc_printing "gcc (GCC) 11.2.0" (text ["options:"; "  -fz"])
      (text ["params:"; "  --param=a=<0,1>   0"]) in
  let spec :=
    {| gcc := g; version := "gcc (GCC) 11.2.0";
       options := [GccFlagOption "z" false; GccParamIntOption "a" 0 1] |} in
  let w' :=
    {| logs := [];
       files := {["/cache/8106731119530897333/spec.pkl" := Pickled spec]} |} in
  version_try g = Ok "gcc (GCC) 11.2.0" ∧
  files fresh_world !! spec_path "/cache" "gcc (GCC) 11.2.0" = None ∧
  _get_spec g "/cache" fresh_world = (Ok (Some spec), w') ∧
  ∃ optim w1 params w2,
    _gcc_parse_optimize g fresh_world = (Ok optim, w1) ∧
    _gcc_parse_params g w1 = (Ok params, w2) ∧
    sorted_by_name optim ∧ NoDup (option_name <$> optim) ∧
    sorted_by_name params ∧ NoDup (option_name <$> params) ∧
    options spec = _fix_options (optim ++ params).
Proof.
  intros g spec w'.
  assert (Hv : version_try g = Ok "gcc (GCC) 11.2.0")
    by (vm_compute; reflexivity).
  assert (Hn : files fresh_world !! spec_path "/cache" "gcc (GCC) 11.2.0" = None)
    by (vm_compute; reflexivity).
  assert (H : _get_spec g "/cache" fresh_world = (Ok (Some spec), w'))
    by (vm_compute; reflexivity).
  split; [exact Hv|]. split; [exact Hn|]. split; [exact H|].
  exact (C5_spec_options_are_two_sorted_streams g "/cache" "gcc (GCC) 11.2.0"
           fresh_world w' spec Hv Hn H).
Defined.

(** ** Further properties of the option classes *)

Lemma index_out_of_range {A} (xs : list A) (key : Z) :
  let n := Z.of_nat (length xs) in
  Py.index xs key = Raise IndexError ↔ key < - n ∨ n ≤ key.
Proof.
  intros n. unfold Py.index. fold n. split.
  - destruct (Z.ltb_spec key 0) as [Hneg|Hpos].
    + destruct (Z.ltb_spec (key + n) 0); [lia|].
      destruct (Z.leb_spec n (key + n)); [lia|]. simpl.
      destruct (lookup_lt_is_Some_2 xs (Z.to_nat (key + n))) as [x ->]; [lia|done].
    + destruct (Z.ltb_spec key 0); [lia|].
      destruct (Z.leb_spec n key); [lia|]. simpl.
      destruct (lookup_lt_is_Some_2 xs (Z.to_nat key)) as [x ->]; [lia|done].
  - intros [H|H].
    + destruct (Z.ltb_spec key 0); [|lia].
      destruct (Z.ltb_spec (key + n) 0); [done|lia].
    + destruct (Z.ltb_spec key 0); [lia|].
      destruct (Z.ltb_spec key 0); [lia|].
      destruct (Z.leb_spec n key); [done|lia].
Qed.

Lemma index_negative {A} (xs : list A) (key : Z) :
  let n := Z.of_nat (length xs) in
  - n ≤ key < 0 → Py.index xs key = Py.index xs (key + n).
Proof.
  intros n H. unfold Py.index. fold n.
  destruct (Z.ltb_spec key 0); [|lia].
  destruct (Z.ltb_spec (key + n) 0); [lia|].
  by destruct (Z.ltb_spec (key + n) 0); [lia|].
Qed.

Lemma index_outcome {A} (xs : list A) (key : Z) :
  (∃ x, Py.index xs key = Ok x) ∨ Py.index xs key = Raise IndexError.
Proof.
  unfold Py.index. repeat case_match; eauto.
Qed.

(** X1: on the classes that hold a value list ([GccOOption],
    [GccFlagEnumOption], [GccParamEnumOption]) an index raises [IndexError]
    exactly when it is outside [-len, len); an index in range gives a
    literal, a negative one that of the value counted from the end. *)
Theorem getitem_values_bounds (o : Option) (key : Z) :
  has_values o = true →
  (__getitem__ o key = Raise IndexError ↔ key < - __len__ o ∨ __len__ o ≤ key) ∧
  (- __len__ o ≤ key < __len__ o → ∃ s, __getitem__ o key = Ok s) ∧
  (- __len__ o ≤ key < 0 → __getitem__ o key = __getitem__ o (key + __len__ o)).
Proof.
  intros Hv.
  assert (G : ∀ (f : string → string) (vs : list string),
    let n := Z.of_nat (length vs) in
    let get k := v ← Py.index vs k; Ok (f v) in
    (get key = Raise IndexError ↔ key < - n ∨ n ≤ key) ∧
    (- n ≤ key < n → ∃ s, get key = Ok s) ∧
    (- n ≤ key < 0 → get key = get (key + n))).
  { intros f vs n get. subst get. cbv beta.
    pose proof (index_out_of_range vs key) as Hout. cbv zeta in Hout. fold n in Hout.
    split; [|split].
    - rewrite <- Hout. by destruct (Py.index vs key).
    - intros Hin. destruct (index_outcome vs key) as [[x ->]| Hr]; [by eexists|].
      apply Hout in Hr. lia.
    - intros Hin. by rewrite index_negative. }
  destruct o; try done; apply G.
Qed.

Lemma getitem_values_bounds_witness :
  let o := GccFlagEnumOption "lto-partition" ["none"; "one"; "max"] in
  (__getitem__ o (-1) = Raise IndexError ↔ -1 < - __len__ o ∨ __len__ o ≤ -1) ∧
  (- __len__ o ≤ -1 < __len__ o → ∃ s, __getitem__ o (-1) = Ok s) ∧
  (- __len__ o ≤ -1 < 0 → __getitem__ o (-1) = __getitem__ o (-1 + __len__ o)).
Proof. intros o. apply (getitem_values_bounds o (-1)). reflexivity. Defined.

(** ** Further properties of the size *)

Lemma size_loop_scale (opts : list Option) (sz : Z) :
  size_loop opts sz = (n ← size_loop opts 1; Ok (sz * n)).
Proof.
  rewrite !size_loop_product.
  destruct (mapM len opts) as [cards|e]; simpl; [|done].
  unfold mbind, Py.res_mbind. simpl. f_equal. lia.
Qed.

Lemma size_loop_app (a b : list Option) (sz : Z) :
  size_loop (a ++ b) sz = (n ← size_loop a sz; size_loop b n).
Proof.
  revert sz. induction a as [|o a IH]; intros sz; simpl; [done|].
  destruct (len o) as [n|e]; simpl; [|done]. apply IH.
Qed.

(** X2: when the size of a spec is defined it is at least 1, every option
    has a length, and the length plus one of every option divides the
    size. *)
Theorem size_positive (spec : GccSpec) (n : Z) :
  size spec = Ok n →
  1 ≤ n ∧ ∀ o, o ∈ options spec → ∃ k, len o = Ok k ∧ (k + 1 | n).
Proof.
  unfold size. generalize (options spec). intros opts. revert n.
  induction opts as [|o opts IH]; intros n; simpl.
  - intros [= <-]. split; [lia|]. intros o Ho. by apply elem_of_nil in Ho.
  - destruct (len o) as [k|e] eqn:Hk; simpl; [|done].
    rewrite size_loop_scale.
    destruct (size_loop opts 1) as [m|e] eqn:Hm; simpl; [|done].
    intros [= <-]. destruct (IH m eq_refl) as [Hpos Hall].
    apply len_Ok in Hk as Hk'. destruct Hk' as [_ Hk0].
    split; [nia|]. intros o' [->|Ho']%elem_of_cons.
    + exists k. split; [done|]. exists m. lia.
    + destruct (Hall o' Ho') as (k' & Hk' & q & Hq). exists k'. split; [done|].
      exists ((1 * (k + 1)) * q). lia.
Qed.

Lemma size_positive_witness :
  let spec := spec_of (gcc_failing ServiceError) "gcc"
                [GccFlagOption "a" false; GccFlagAlignOption "b"] in
  1 ≤ 6 ∧ ∀ o, o ∈ options spec → ∃ k, len o = Ok k ∧ (k + 1 | 6).
Proof. intros spec. apply (size_positive spec 6). reflexivity. Defined.

(** X3: the size of a spec whose options are [a ++ b] is the product of
    the sizes for [a] and for [b]; when a length raises, the first
    exception in list order is the outcome of both sides. *)
Theorem size_app (g : Gcc) (ver : string) (a b : list Option) :
  size (spec_of g ver (a ++ b)) =
  (n ← size (spec_of g ver a); m ← size (spec_of g ver b); Ok (n * m)).
Proof.
  unfold size, spec_of. simpl. rewrite size_loop_app.
  destruct (size_loop a 1) as [n|e]; simpl; [|done].
  apply size_loop_scale.
Qed.

(** ** Running the compiler *)



(** ** Further properties of the fixups *)

(** Membership in a list of literals, by computation. *)
Ltac mem_false H :=
  exfalso; apply (bool_decide_pack _) in H; vm_compute in H; exact H.
Ltac by_decide :=
  lazymatch goal with
  | |- ?P => apply (bool_decide_unpack P); vm_compute; exact I
  end.

Lemma fix_option_fixed_up (o : Option) : keep o = true → fixed_up (fix_option o).
Proof.
  destruct o as [vs|name b|name vs|name mn mx|name|name vs|name mn mx];
    simpl; try done.
  - intros _.
    destruct (String.eqb_spec name "handle-exceptions") as [->|H1].
    + split; [done|]. split; [done|]. intros H. mem_false H.
    + destruct (String.eqb_spec name "no-threadsafe-statics") as [->|H2].
      * split; [done|]. split; [done|]. intros H. mem_false H.
      * split; [done|]. split; [done|]. intros H. by rewrite bool_decide_true.
  - by intros ?%negb_true_iff%String.eqb_neq.
  - intros _. destruct (String.eqb_spec name "pack-struct"); simpl; done.
  - intros _. case_bool_decide; simpl; [done|]. intros ?; done.
Qed.

(** X5: after the fixups no option is left under a name they replace or
    drop ([-flive-patching] as an enumeration, [-fhandle-exceptions],
    [-fno-threadsafe-statics], [-fpack-struct] as an integer), each of the
    three [stack-protector] flags has [no_fno] set, and each of the four
    parameters that cannot be negative starts at 0. *)
Theorem fix_options_fixed_up (opts : list Option) :
  Forall fixed_up (_fix_options opts).
Proof.
  unfold _fix_options. apply Forall_fmap, Forall_forall.
  intros o [Hk _]%list_elem_of_filter. by apply fix_option_fixed_up.
Qed.

(** X6: a list in which no option bears one of the names of the table
    comes out of the fixups as it went in. *)
Theorem fix_options_untouched (opts : list Option) :
  Forall (λ o, option_name o ∉ fixup_names) opts → _fix_options opts = opts.
Proof.
  unfold _fix_options. induction 1 as [|o opts Ho _ IH]; [done|].
  assert (Hk : keep o = true).
  { destruct o; try done. simpl in *. apply negb_true_iff, String.eqb_neq.
    intros ->. apply Ho. by_decide. }
  rewrite filter_cons, decide_True by done.
  rewrite fmap_cons, IH. f_equal.
  unfold fixup_names in Ho.
  destruct o as [vs|name b|name vs|name mn mx|name|name vs|name mn mx];
    try done; simpl in *.
  - destruct (String.eqb_spec name "handle-exceptions") as [->|_];
      [exfalso; apply Ho; by_decide|].
    destruct (String.eqb_spec name "no-threadsafe-statics") as [->|_];
      [exfalso; apply Ho; by_decide|].
    rewrite bool_decide_false; [done|]. intros H. apply Ho.
    rewrite !elem_of_cons in H. rewrite !elem_of_cons. tauto.
  - destruct (String.eqb_spec name "pack-struct") as [->|_]; [|done].
    exfalso; apply Ho; by_decide.
  - rewrite bool_decide_false; [done|]. intros H. apply Ho.
    rewrite !elem_of_cons in H. rewrite !elem_of_cons. tauto.
Qed.

Lemma fix_options_untouched_witness :
  let opts := [GccFlagOption "inline" false; GccParamIntOption "max-peel" 0 9] in
  _fix_options opts = opts.
Proof.
  intros opts. apply (fix_options_untouched opts). by_decide.
Defined.

(** ** Lines of text *)

Lemma split_on_first (sep : ascii) (h rest : string) :
  all_chars (not_char sep) h = true →
  Py.split_on sep (h +:+ String sep rest) = h :: Py.split_on sep rest.
Proof.
  induction h as [|c h IH]; intros Hh.
  - simpl. by rewrite Ascii.eqb_refl.
  - apply all_chars_cons in Hh as [Hc Hh].
    change (String c h +:+ String sep rest)
      with (String c (h +:+ String sep rest)).
    cbn [Py.split_on]. unfold not_char in Hc.
    apply negb_true_iff in Hc. rewrite Hc, IH by done. done.
Qed.

Lemma split_on_none (sep : ascii) (h : string) :
  all_chars (not_char sep) h = true → Py.split_on sep h = [h].
Proof.
  induction h as [|c h IH]; intros Hh; [done|].
  apply all_chars_cons in Hh as [Hc Hh].
  cbn [Py.split_on]. unfold not_char in Hc.
  apply negb_true_iff in Hc. rewrite Hc, IH by done. done.
Qed.

(** ** The version *)

(** X7: the version is the first line of what [--version] prints, whether
    or not more lines follow, provided it holds [gcc]; a first line without
    [gcc] raises [ServiceError] to the caller instead of giving [None]. *)
Theorem get_version_first_line (g : Gcc) (out ver : string) (w : world) :
  call g ["--version"] = Ok out →
  one_line ver →
  (out = ver ∨ ∃ rest, out = ver +:+ String Py.newline rest) →
  _gcc_get_version g w =
  if Py.contains "gcc" ver then (Ok (Some ver), w) else (Raise ServiceError, w).
Proof.
  intros Hcall Hver Hout. unfold _gcc_get_version, version_try.
  rewrite Hcall. simpl.
  assert (∃ rest, Py.split_on Py.newline out = ver :: rest) as [rest ->].
  { destruct Hout as [->|[rest ->]].
    - exists []. by apply split_on_none.
    - eexists. by apply split_on_first. }
  unfold Py.index. simpl. by destruct (Py.contains "gcc" ver).
Qed.

Lemma get_version_first_line_witness :
  let ver := "gcc (GCC) 11.2.0" in
  let out := ver +:+ String Py.newline "Copyright (C) 2021 FSF" in
  _gcc_get_version (gcc_printing out EmptyString EmptyString) fresh_world =
  if Py.contains "gcc" ver then (Ok (Some ver), fresh_world)
  else (Raise ServiceError, fresh_world).
Proof.
  intros ver out.
  apply (get_version_first_line
           (gcc_printing out EmptyString EmptyString) out ver fresh_world).
  - reflexivity.
  - reflexivity.
  - right. by eexists.
Defined.

(** ** The hash of the version *)

Lemma list_ascii_of_string_app (a b : string) :
  list_ascii_of_string (a +:+ b) =
  list_ascii_of_string a ++ list_ascii_of_string b.
Proof. induction a as [|c a IH]; simpl; [done|]. by rewrite IH. Qed.

Lemma length_list_ascii (a : string) :
  length (list_ascii_of_string a) = String.length a.
Proof. induction a as [|c a IH]; simpl; [done|]. by rewrite IH. Qed.

Lemma hash_loop_shift (l : list ascii) (h : Z) :
  fold_left (λ h c, ord c + 31 * h) l h =
  h * 31 ^ Z.of_nat (length l) + fold_left (λ h c, ord c + 31 * h) l 0.
Proof.
  revert h. induction l as [|c l IH]; intros h.
  - simpl. lia.
  - cbn [fold_left length]. rewrite IH, (IH (ord c + 31 * 0)).
    rewrite Nat2Z.inj_succ, Z.pow_succ_r by lia. lia.
Qed.

(** X8: the hash of a version is the decimal numeral of an integer
    between 0 and [2^65 - 1]: it is made of digits only, it is not empty,
    and [int] reads the integer back. *)
Theorem version_hash_decimal (ver : string) :
  ∃ h, 0 ≤ h < 2 ^ 65 ∧ _version_hash ver = Py.str_of_int h ∧
       Py.int (_version_hash ver) = Ok h ∧
       all_chars Py.isdigit (_version_hash ver) = true ∧
       _version_hash ver ≠ EmptyString.
Proof.
  unfold _version_hash.
  set (raw := fold_left _ _ 0).
  change (Z.shiftl 2 64) with (2 ^ 65).
  exists (raw `mod` 2 ^ 65).
  assert (Hr : 0 ≤ raw `mod` 2 ^ 65 < 2 ^ 65) by (apply Z.mod_pos_bound; lia).
  split; [done|]. split; [done|]. split; [apply int_str|].
  split; [|apply str_of_int_nonempty].
  rewrite str_of_nonneg_is_digits by lia. apply digits_spec.
Qed.

(** X9: the hash does not tell all versions apart, and a collision
    survives in every context: when two strings of the same length have the
    same hash, so do the versions that hold one or the other at the same
    place, and their specs share one cache file. *)
Theorem version_hash_collision (a b p s cache_dir : string) :
  _version_hash a = _version_hash b → String.length a = String.length b →
  _version_hash (p +:+ a +:+ s) = _version_hash (p +:+ b +:+ s) ∧
  spec_path cache_dir (p +:+ a +:+ s) = spec_path cache_dir (p +:+ b +:+ s).
Proof.
  intros Hh Hl.
  assert (G : _version_hash (p +:+ a +:+ s) = _version_hash (p +:+ b +:+ s));
    [|split; [done | unfold spec_path; by rewrite G]].
  unfold _version_hash in *. apply str_of_int_inj in Hh. f_equal.
  rewrite !list_ascii_of_string_app, !fold_left_app.
  rewrite (hash_loop_shift (list_ascii_of_string s)).
  rewrite (hash_loop_shift (list_ascii_of_string s)
             (fold_left _ (list_ascii_of_string b) _)).
  rewrite (hash_loop_shift (list_ascii_of_string a)).
  rewrite (hash_loop_shift (list_ascii_of_string b)).
  rewrite !length_list_ascii, Hl.
  set (Fa := fold_left _ (list_ascii_of_string a) 0) in *.
  set (Fb := fold_left _ (list_ascii_of_string b) 0) in *.
  set (Fp := fold_left _ (list_ascii_of_string p) 0).
  set (Fs := fold_left _ (list_ascii_of_string s) 0).
  set (K := 31 ^ Z.of_nat (String.length b)).
  set (L := 31 ^ Z.of_nat (String.length s)).
  set (M := Z.shiftl 2 64) in *.
  assert (HM : M ≠ 0) by done.
  pose proof (Z.div_mod Fa M HM) as Ha.
  pose proof (Z.div_mod Fb M HM) as Hb.
  assert (E : Fa = Fb + (Fa `div` M - Fb `div` M) * M) by lia.
  rewrite E.
  replace ((Fp * K + (Fb + (Fa `div` M - Fb `div` M) * M)) * L + Fs)
    with (((Fp * K + Fb) * L + Fs) + ((Fa `div` M - Fb `div` M) * L) * M)
    by ring.
  apply Z_mod_plus_full.
Qed.

Lemma version_hash_collision_witness :
  _version_hash ("gcc (" +:+ "Aa" +:+ ") 11.2.0") =
  _version_hash ("gcc (" +:+ "BB" +:+ ") 11.2.0") ∧
  spec_path "/cache" ("gcc (" +:+ "Aa" +:+ ") 11.2.0") =
  spec_path "/cache" ("gcc (" +:+ "BB" +:+ ") 11.2.0").
Proof.
  apply (version_hash_collision "Aa" "BB" "gcc (" ") 11.2.0" "/cache");
    reflexivity.
Defined.

(** ** The first line of the help text *)

(** X10: both parsers skip the first line of the help text whatever it
    holds: two compilers whose outputs differ in the first line only are
    parsed alike, and an output of one line gives no option and no
    warning. *)
Theorem parsers_skip_first_line (g1 g2 : Gcc) (h1 h2 body : string)
    (w : world) :
  one_line h1 → one_line h2 →
  let out1 := h1 +:+ String Py.newline body in
  let out2 := h2 +:+ String Py.newline body in
  let optimize := ["--help=optimize"; "-Q"] in
  let param := ["--help=param"; "-Q"] in
  (call g1 optimize = Ok out1 → call g2 optimize = Ok out2 →
   _gcc_parse_optimize g1 w = _gcc_parse_optimize g2 w) ∧
  (call g1 param = Ok out1 → call g2 param = Ok out2 →
   _gcc_parse_params g1 w = _gcc_parse_params g2 w) ∧
  (call g1 optimize = Ok h1 → _gcc_parse_optimize g1 w = (Ok [], w)) ∧
  (call g1 param = Ok h1 → _gcc_parse_params g1 w = (Ok [], w)).
Proof.
  intros Hh1 Hh2 out1 out2 optimize param.
  unfold _gcc_parse_optimize, _gcc_parse_params, mbind, M_bind, lift.
  fold optimize param. subst out1 out2.
  split; [|split; [|split]].
  - intros -> ->. by rewrite !split_on_first.
  - intros -> ->. by rewrite !split_on_first.
  - intros ->. by rewrite split_on_none.
  - intros ->. by rewrite split_on_none.
Qed.

Lemma parsers_skip_first_line_witness :
  let g1 := gcc_printing "gcc 11" "The following options control optimizations:" EmptyString in
  let g2 := gcc_printing "gcc 11" "Options:" EmptyString in
  _gcc_parse_optimize g1 fresh_world = (Ok [], fresh_world).
Proof.
  intros g1 g2.
  destruct (parsers_skip_first_line g1 g2
              "The following options control optimizations:" "Options:"
              "  -O<number>" fresh_world) as (_ & _ & H & _);
    [reflexivity..|].
  by apply H.
Defined.

(** ** Words of a line *)

Lemma split_words (s : string) :
  Forall (λ t, t ≠ EmptyString ∧ all_chars nonspace t = true) (Py.split s).
Proof.
  induction s as [|c s IH]; [constructor|].
  cbn [Py.split]. destruct (Py.isspace c) eqn:Hc; [done|].
  assert (Hn : nonspace c = true) by by apply nonspace_false.
  destruct s as [|c' s']; [repeat constructor; [done | by rewrite all_chars_cons]|].
  destruct (Py.isspace c') eqn:Hc'.
  - constructor; [|done]. split; [done | by rewrite all_chars_cons].
  - destruct (Py.split (String c' s')) as [|t ts]; simpl.
    + repeat constructor; [done | by rewrite all_chars_cons].
    + inversion IH as [|? ? [Ht1 Ht2] Hts]; subst.
      constructor; [|done]. split; [done | by rewrite all_chars_cons].
Qed.

Lemma split_first_word (line spec : string) (rest : list string) :
  Py.split line = spec :: rest → Py.split spec = [spec].
Proof.
  intros H. pose proof (split_words line) as Hw. rewrite H in Hw.
  inversion Hw as [|? ? [H1 H2] _]; subst. by apply split_word.
Qed.

Lemma all_chars_last (cls : ascii → bool) (s : string) (c : ascii) :
  all_chars cls s = true → last_char s = Some c → cls c = true.
Proof.
  unfold last_char. induction s as [|a s IH]; [done|].
  intros [Ha Hs]%all_chars_cons. simpl.
  destruct (list_ascii_of_string s) eqn:E.
  - by intros [= <-].
  - intros Hl. apply IH; [done|]. by rewrite <- Hl.
Qed.

Lemma word_nonspace (s : string) :
  all_chars cls_word s = true → all_chars cls_value s = true.
Proof. by apply all_chars_impl. Qed.

Lemma value_nonspace (s : string) :
  all_chars cls_value s = true → all_chars nonspace s = true.
Proof. by apply all_chars_impl. Qed.

Lemma lower_nonspace (s : string) :
  all_chars lower s = true → all_chars nonspace s = true.
Proof. by apply all_chars_impl. Qed.

(** A class under [+] at the end of a pattern takes the whole rest. *)
Lemma match_plus_end (cls : ascii → bool) (a : string) :
  a ≠ EmptyString → all_chars cls a = true →
  Py.match_atoms [Py.Plus cls] a = Some [a].
Proof.
  intros Hne Hall.
  rewrite (match_plus_eq cls [] a a EmptyString);
    [done | by rewrite append_nil_r | side | done..].
Qed.

(** ** Values separated by bars *)

Lemma bar_joined_cons (v : string) (values : list string) :
  values ≠ [] →
  bar_joined (v :: values) = v +:+ String "|" (bar_joined values).
Proof. by destruct values. Qed.

Lemma word_no_bar (v : string) :
  all_chars cls_word v = true → all_chars (not_char "|") v = true.
Proof. by apply all_chars_impl. Qed.

(** [str.split] undoes the joining by bars. *)
Lemma split_on_bar_joined (values : list string) :
  values ≠ [] → Forall (λ v, all_chars cls_word v = true) values →
  Py.split_on "|" (bar_joined values) = values.
Proof.
  intros Hne HF. induction HF as [|v values Hv HF IH]; [done|].
  destruct values as [|v' values'].
  - simpl. by apply split_on_none, word_no_bar.
  - rewrite bar_joined_cons by done.
    rewrite split_on_first by by apply word_no_bar.
    by rewrite IH.
Qed.

Lemma bar_joined_value (values : list string) :
  Forall (λ v, all_chars cls_word v = true) values →
  all_chars cls_value (bar_joined values) = true.
Proof.
  induction 1 as [|v values Hv HF IH]; [done|].
  destruct values as [|v' values'].
  - simpl. by apply word_nonspace.
  - rewrite bar_joined_cons by done.
    rewrite all_chars_app, word_nonspace by done. simpl. apply IH.
Qed.

(** ** The lines of [--help=optimize] *)

Lemma add_gcc_o_step (value : string) (opts : gmap string Option)
    (vs : list string) (w : world) :
  default (GccOOption []) (opts !! "O") = GccOOption vs →
  Optimize.add_gcc_o value opts w =
  (Ok (<["O" := GccOOption (vs ++ [value])]> opts), w).
Proof.
  intros H. unfold Optimize.add_gcc_o. rewrite H.
  unfold mbind, M_bind, lift, mret, M_ret. simpl.
  by rewrite insert_insert_eq.
Qed.

Lemma default_O_insert (opts : gmap string Option) (o : Option) :
  default (GccOOption []) (<["O" := o]> opts !! "O") = o.
Proof. by rewrite lookup_insert_eq. Qed.

Lemma for_each_cons {A S} (body : A → S → M S) (x : A) (xs : list A) (s : S)
    (w : world) :
  for_each body (x :: xs) s w =
  match body x s w with
  | (Ok s', w') => for_each body xs s' w'
  | (Raise e, w') => (Raise e, w')
  end.
Proof. done. Qed.

(** X11: the levels of [-O] gather in one option filed under [O]: the
    line [-O<number>] adds the values 0, 1, 2 and 3 after those seen so
    far, a line [-O<level>], with a level of lower-case letters, adds the
    level. *)
Theorem optimize_O_levels (lvl : string) (vs : list string)
    (opts : gmap string Option) (w : world) :
  lvl ≠ EmptyString → all_chars lower lvl = true →
  default (GccOOption []) (opts !! "O") = GccOOption vs →
  Optimize.parse_line "-O<number>" opts w =
    (Ok (<["O" := GccOOption (vs ++ ["0"; "1"; "2"; "3"])]> opts), w) ∧
  Optimize.parse_line ("-O" +:+ lvl) opts w =
    (Ok (<["O" := GccOOption (vs ++ [lvl])]> opts), w).
Proof.
  intros Hne Hall HO. split.
  - change (Optimize.parse_line "-O<number>" opts)
      with (for_each (λ i, Optimize.add_gcc_o (Py.str_of_int i)) [0; 1; 2; 3]
              opts).
    rewrite for_each_cons, (add_gcc_o_step _ _ vs) by done.
    rewrite for_each_cons, (add_gcc_o_step _ _ (vs ++ [_]))
      by apply default_O_insert.
    rewrite for_each_cons, (add_gcc_o_step _ _ ((vs ++ [_]) ++ [_]))
      by apply default_O_insert.
    rewrite for_each_cons, (add_gcc_o_step _ _ (((vs ++ [_]) ++ [_]) ++ [_]))
      by apply default_O_insert.
    rewrite !insert_insert_eq, <- !(assoc_L (++)). done.
  - unfold Optimize.parse_line.
    rewrite split_word;
      [|done|change ("-O" +:+ lvl) with (String "-" (String "O" lvl));
             rewrite !all_chars_cons; by auto using lower_nonspace].
    assert (Hnum : Py.fullmatch Optimize.O_num_pat ("-O" +:+ lvl) = None).
    { open_pattern Optimize.O_num_pat. rewrite match_lit_fail; [done|].
      destruct lvl as [|c l]; [done|].
      apply all_chars_cons in Hall as [Hc _].
      change (Py.strip_prefix "<number>" (String c l) = None).
      cbn [Py.strip_prefix].
      destruct (Ascii.eqb_spec "<" c) as [<-|]; [by vm_compute in Hc | done]. }
    rewrite Hnum.
    assert (HOp : Py.fullmatch Optimize.O_pat ("-O" +:+ lvl) = Some [lvl]).
    { open_pattern Optimize.O_pat. lit_ok.
      rewrite match_plus_end by done. simpl. by rewrite append_nil_r. }
    rewrite HOp. cbn [Py.group nth Nat.pred]. by apply add_gcc_o_step.
Qed.

Lemma optimize_O_levels_witness :
  Optimize.parse_line "-O<number>" ∅ fresh_world =
    (Ok (<["O" := GccOOption ([] ++ ["0"; "1"; "2"; "3"])]> ∅), fresh_world) ∧
  Optimize.parse_line ("-O" +:+ "fast") ∅ fresh_world =
    (Ok (<["O" := GccOOption ([] ++ ["fast"])]> ∅), fresh_world).
Proof.
  apply (optimize_O_levels "fast" [] ∅ fresh_world); [done | reflexivity..].
Defined.

Section flag_lines.
Context (name : string) (Hname : flag_name name).

Lemma flag_line_word : Py.split (flag_line name) = [flag_line name].
Proof.
  destruct Hname as [Hne Hall]. apply split_word; [done|].
  unfold flag_line. simpl. by rewrite flag_nonspace.
Qed.

Lemma flag_line_not_align :
  Py.fullmatch Optimize.flag_align_eq_pat (flag_line name) = None.
Proof.
  destruct Hname as [Hne Hall].
  open_pattern Optimize.flag_align_eq_pat.
  destruct (Py.match_atoms _ (flag_line name)) as [texts|] eqn:E; [|done].
  apply match_ends_with with (l := "=") in E; [|done..].
  unfold flag_line in E. rewrite last_char_app in E by done.
  by apply (all_chars_last cls_flag) in E.
Qed.

Lemma flag_line_match :
  Py.fullmatch Optimize.flag_pat (flag_line name) = Some [name].
Proof.
  destruct Hname as [Hne Hall].
  open_pattern Optimize.flag_pat. unfold flag_line. lit_ok.
  rewrite match_plus_end by done. simpl. by rewrite append_nil_r.
Qed.

Lemma parse_line_flag (opts : gmap string Option) (w : world) :
  Optimize.parse_line (flag_line name) opts w =
  Optimize.add_gcc_flag name opts w.
Proof.
  unfold Optimize.parse_line. rewrite flag_line_word.
  replace (Py.fullmatch Optimize.O_num_pat (flag_line name))
    with (@None (list string)) by reflexivity.
  replace (Py.fullmatch Optimize.O_pat (flag_line name))
    with (@None (list string)) by reflexivity.
  by rewrite flag_line_not_align, flag_line_match.
Qed.

Context (values : list string) (Hvalues : enum_values values).

Lemma enum_values_nonempty : values ≠ [].
Proof. destruct Hvalues as [_ H]. by intros ->. Qed.

Lemma flag_enum_line_word :
  Py.split (flag_enum_line name values) = [flag_enum_line name values].
Proof.
  destruct Hname as [Hne Hall], Hvalues as [HF Hb].
  apply split_word; [done|]. unfold flag_enum_line.
  repeat first [ rewrite all_chars_app | rewrite (flag_nonspace name Hall)
               | rewrite (value_nonspace _ (bar_joined_value _ HF))
               | progress simpl ].
  side.
Qed.

Lemma flag_enum_not_align :
  Py.fullmatch Optimize.flag_align_eq_pat (flag_enum_line name values) = None.
Proof.
  open_pattern Optimize.flag_align_eq_pat.
  destruct (Py.match_atoms _ (flag_enum_line name values)) as [texts|] eqn:E;
    [|done].
  apply match_ends_with with (l := "=") in E; [|done..].
  unfold flag_enum_line in E.
  rewrite <- !append_assoc, last_char_app in E by done.
  by vm_compute in E.
Qed.

Lemma flag_enum_not_flag :
  Py.fullmatch Optimize.flag_pat (flag_enum_line name values) = None.
Proof.
  destruct Hname as [Hne Hall].
  open_pattern Optimize.flag_pat. unfold flag_enum_line. lit_ok. by plus_ok.
Qed.

Lemma flag_enum_match :
  Py.fullmatch Optimize.flag_enum_pat (flag_enum_line name values) =
  Some [name; bar_joined values].
Proof.
  destruct Hname as [Hne Hall], Hvalues as [HF Hb].
  pose proof (bar_joined_value _ HF) as Hv.
  open_pattern Optimize.flag_enum_pat. unfold flag_enum_line.
  lit_ok. plus_ok. lit_ok. plus_ok. lit_ok.
  simpl. by rewrite !append_nil_r.
Qed.

Lemma parse_line_flag_enum (opts : gmap string Option) (w : world) :
  Optimize.parse_line (flag_enum_line name values) opts w =
  Optimize.add_gcc_flag_enum name values opts w.
Proof.
  unfold Optimize.parse_line. rewrite flag_enum_line_word.
  replace (Py.fullmatch Optimize.O_num_pat (flag_enum_line name values))
    with (@None (list string)) by reflexivity.
  replace (Py.fullmatch Optimize.O_pat (flag_enum_line name values))
    with (@None (list string)) by reflexivity.
  rewrite flag_enum_not_align, flag_enum_not_flag, flag_enum_match.
  cbn [Py.group nth Nat.pred].
  rewrite split_on_bar_joined; [done | apply enum_values_nonempty |].
  by destruct Hvalues.
Qed.

Context (min max : Z) (Hmin : 0 ≤ min) (Hmax : 0 ≤ max).

Lemma flag_interval_line_word :
  Py.split (flag_interval_line name min max) = [flag_interval_line name min max].
Proof.
  destruct Hname as [Hne Hall].
  apply split_word; [done|]. unfold flag_interval_line.
  repeat first [ rewrite all_chars_app | rewrite (flag_nonspace name Hall)
               | rewrite str_of_int_nonspace | progress simpl ].
  side.
Qed.

Lemma flag_interval_not_align :
  Py.fullmatch Optimize.flag_align_eq_pat (flag_interval_line name min max) = None.
Proof.
  open_pattern Optimize.flag_align_eq_pat.
  destruct (Py.match_atoms _ (flag_interval_line name min max)) as [texts|] eqn:E;
    [|done].
  apply match_ends_with with (l := "=") in E; [|done..].
  unfold flag_interval_line in E.
  rewrite <- !append_assoc, last_char_app in E by done.
  by vm_compute in E.
Qed.

Lemma flag_interval_not_flag :
  Py.fullmatch Optimize.flag_pat (flag_interval_line name min max) = None.
Proof.
  destruct Hname as [Hne Hall].
  open_pattern Optimize.flag_pat. unfold flag_interval_line. lit_ok. by plus_ok.
Qed.

Lemma flag_interval_not_enum :
  Py.fullmatch Optimize.flag_enum_pat (flag_interval_line name min max) = None.
Proof.
  destruct Hname as [Hne Hall].
  open_pattern Optimize.flag_enum_pat. unfold flag_interval_line.
  lit_ok. plus_ok. by lit_fail.
Qed.

Lemma flag_interval_match :
  Py.fullmatch Optimize.flag_interval_pat (flag_interval_line name min max) =
  Some [name; Py.str_of_int min; Py.str_of_int max].
Proof.
  destruct Hname as [Hne Hall].
  destruct (digits_spec min) as (Hmne & Hmall & _).
  destruct (digits_spec max) as (Hxne & Hxall & _).
  open_pattern Optimize.flag_interval_pat. unfold flag_interval_line, cls_digit.
  rewrite (str_of_nonneg_is_digits min), (str_of_nonneg_is_digits max) by done.
  lit_ok. plus_ok. lit_ok. plus_ok. lit_ok. plus_ok. lit_ok.
  simpl. by rewrite !append_nil_r.
Qed.

Lemma parse_line_flag_interval (opts : gmap string Option) (w : world) :
  Optimize.parse_line (flag_interval_line name min max) opts w =
  Optimize.add_gcc_flag_int name min max opts w.
Proof.
  unfold Optimize.parse_line. rewrite flag_interval_line_word.
  replace (Py.fullmatch Optimize.O_num_pat (flag_interval_line name min max))
    with (@None (list string)) by reflexivity.
  replace (Py.fullmatch Optimize.O_pat (flag_interval_line name min max))
    with (@None (list string)) by reflexivity.
  rewrite flag_interval_not_align, flag_interval_not_flag,
    flag_interval_not_enum, flag_interval_match.
  cbn [Py.group nth Nat.pred].
  unfold mbind, M_bind, lift. by rewrite !int_str.
Qed.
End flag_lines.

(** X12: a line [-f<name>] files a provisional boolean flag for a name not
    seen yet and leaves an entry that is there as it is, whatever its
    class: the boolean form never replaces anything. *)
Theorem flag_line_lowest_priority (name : string) (opts : gmap string Option)
    (w : world) :
  flag_name name →
  Optimize.parse_line (flag_line name) opts w =
  (Ok (match opts !! name with
       | None => <[name := GccFlagOption name false]> opts
       | Some _ => opts
       end), w).
Proof.
  intros Hname. rewrite parse_line_flag by done.
  destruct (opts !! name) as [o|] eqn:E.
  - by eapply add_gcc_flag_present.
  - by apply add_gcc_flag_absent.
Qed.

Lemma flag_line_lowest_priority_witness :
  let opts : gmap string Option :=
    {["tree-vectorize" := GccFlagIntOption "tree-vectorize" 0 3]} in
  Optimize.parse_line (flag_line "tree-vectorize") opts fresh_world =
  (Ok (match opts !! "tree-vectorize" with
       | None => <["tree-vectorize" := GccFlagOption "tree-vectorize" false]> opts
       | Some _ => opts
       end), fresh_world).
Proof.
  intros opts.
  apply (flag_line_lowest_priority "tree-vectorize" opts fresh_world).
  split; [done | reflexivity].
Defined.

(** X13: a line [-f<name>=[v1|...|vn]] files the enumerated flag with the
    values in the order of the line, in place of nothing or of a boolean
    flag; on an entry of another class that is true the assertion of the
    parser fails and nothing is filed. *)
Theorem flag_enum_line_filed (name : string) (values : list string)
    (opts : gmap string Option) (w : world) :
  flag_name name → enum_values values →
  Optimize.parse_line (flag_enum_line name values) opts w =
  match Optimize.check_overwrite name opts with
  | Ok _ => (Ok (<[name := GccFlagEnumOption name values]> opts), w)
  | Raise e => (Raise e, w)
  end.
Proof.
  intros Hname Hvalues. rewrite parse_line_flag_enum by done.
  pose proof (add_specialized name opts w values 0 0) as H.
  destruct (Optimize.check_overwrite name opts); apply H.
Qed.

Lemma flag_enum_line_filed_witness :
  Optimize.parse_line (flag_enum_line "lto-partition" ["none"; "one"; "max"])
    ∅ fresh_world =
  match Optimize.check_overwrite "lto-partition" ∅ with
  | Ok _ => (Ok (<["lto-partition" :=
                     GccFlagEnumOption "lto-partition" ["none"; "one"; "max"]]> ∅),
             fresh_world)
  | Raise e => (Raise e, fresh_world)
  end.
Proof.
  apply (flag_enum_line_filed "lto-partition" ["none"; "one"; "max"] ∅
           fresh_world).
  - split; [done | reflexivity].
  - split; [by_decide | done].
Defined.

(** X14: a line [-f<name>=<MIN,MAX>] files the integer flag with the
    bounds read back from their decimal numerals, without comparing them:
    an interval with [MAX < MIN] is filed like any other. *)
Theorem flag_interval_line_filed (name : string) (min max : Z)
    (opts : gmap string Option) (w : world) :
  flag_name name → 0 ≤ min → 0 ≤ max →
  Optimize.parse_line (flag_interval_line name min max) opts w =
  match Optimize.check_overwrite name opts with
  | Ok _ => (Ok (<[name := GccFlagIntOption name min max]> opts), w)
  | Raise e => (Raise e, w)
  end.
Proof.
  intros Hname Hmin Hmax. rewrite parse_line_flag_interval by done.
  pose proof (add_specialized name opts w [] min max) as H.
  destruct (Optimize.check_overwrite name opts); apply H.
Qed.

Lemma flag_interval_line_filed_witness :
  Optimize.parse_line (flag_interval_line "inline-limit" 600 0) ∅ fresh_world =
  match Optimize.check_overwrite "inline-limit" ∅ with
  | Ok _ => (Ok (<["inline-limit" := GccFlagIntOption "inline-limit" 600 0]> ∅),
             fresh_world)
  | Raise e => (Raise e, fresh_world)
  end.
Proof.
  apply (flag_interval_line_filed "inline-limit" 600 0 ∅ fresh_world).
  - split; [done | reflexivity].
  - lia.
  - lia.
Defined.

(** ** What the optimize parser reads of a line *)

(** X15: of a line of [--help=optimize] only the first word counts: the
    line and its first word alone give the same outcome and leave the same
    files. *)
Theorem optimize_first_word_only (line spec : string) (rest : list string)
    (opts : gmap string Option) (w : world) :
  Py.split line = spec :: rest →
  (Optimize.parse_line line opts w).1 = (Optimize.parse_line spec opts w).1 ∧
  files (Optimize.parse_line line opts w).2 =
  files (Optimize.parse_line spec opts w).2.
Proof.
  intros H. unfold Optimize.parse_line.
  rewrite H, (split_first_word _ _ _ H).
  by repeat case_match.
Qed.

Lemma optimize_first_word_only_witness :
  (Optimize.parse_line "-ftree-vectorize       [enabled]" ∅ fresh_world).1 =
  (Optimize.parse_line "-ftree-vectorize" ∅ fresh_world).1 ∧
  files (Optimize.parse_line "-ftree-vectorize       [enabled]" ∅ fresh_world).2 =
  files (Optimize.parse_line "-ftree-vectorize" ∅ fresh_world).2.
Proof.
  apply (optimize_first_word_only "-ftree-vectorize       [enabled]"
           "-ftree-vectorize" ["[enabled]"] ∅ fresh_world).
  reflexivity.
Defined.

Lemma strip_prefix_app_None (p q s : string) :
  Py.strip_prefix p s = None → Py.strip_prefix (p +:+ q) s = None.
Proof.
  revert s. induction p as [|a p IH]; intros s; [done|]. simpl.
  destruct s as [|b s]; [done|]. destruct (Ascii.eqb a b); [apply IH | done].
Qed.

Lemma startswith_false (s p : string) :
  Py.startswith s p = false → Py.strip_prefix p s = None.
Proof.
  unfold Py.startswith. intros H%bool_decide_eq_false.
  destruct (Py.strip_prefix p s); [|done]. exfalso. apply H. by eexists.
Qed.

(** X16: a line whose first word starts neither with [-O] nor with [-f]
    (a heading, the text of a description) never stops the optimize
    parser: the dictionary stays as it is and one warning that quotes the
    line is logged. *)
Theorem optimize_unknown_line (line spec : string) (rest : list string)
    (opts : gmap string Option) (w : world) :
  Py.split line = spec :: rest →
  Py.startswith spec "-O" = false → Py.startswith spec "-f" = false →
  Optimize.parse_line line opts w = (Ok opts, unknown_flag line w).
Proof.
  intros H HO%startswith_false Hf%startswith_false.
  unfold Optimize.parse_line. rewrite H.
  assert (HO' : ∀ q p, Py.match_atoms (Py.Lit ("-O" +:+ q) :: p) spec = None)
    by (intros; apply match_lit_fail; by apply strip_prefix_app_None).
  assert (Hf' : ∀ q p, Py.match_atoms (Py.Lit ("-f" +:+ q) :: p) spec = None)
    by (intros; apply match_lit_fail; by apply strip_prefix_app_None).
  replace (Py.fullmatch Optimize.O_num_pat spec) with (@None (list string))
    by (open_pattern Optimize.O_num_pat; by rewrite (HO' "<number>")).
  replace (Py.fullmatch Optimize.O_pat spec) with (@None (list string))
    by (open_pattern Optimize.O_pat; by rewrite (HO' EmptyString)).
  replace (Py.fullmatch Optimize.flag_align_eq_pat spec) with (@None (list string))
    by (open_pattern Optimize.flag_align_eq_pat; by rewrite (Hf' EmptyString)).
  replace (Py.fullmatch Optimize.flag_pat spec) with (@None (list string))
    by (open_pattern Optimize.flag_pat; by rewrite (Hf' EmptyString)).
  replace (Py.fullmatch Optimize.flag_enum_pat spec) with (@None (list string))
    by (open_pattern Optimize.flag_enum_pat; by rewrite (Hf' EmptyString)).
  replace (Py.fullmatch Optimize.flag_interval_pat spec) with (@None (list string))
    by (open_pattern Optimize.flag_interval_pat; by rewrite (Hf' EmptyString)).
  replace (Py.fullmatch Optimize.flag_number_pat spec) with (@None (list string))
    by (open_pattern Optimize.flag_number_pat; by rewrite (Hf' EmptyString)).
  done.
Qed.

Lemma optimize_unknown_line_witness :
  Optimize.parse_line "Negative forms are shown as -fno-..." ∅ fresh_world =
  (Ok ∅, unknown_flag "Negative forms are shown as -fno-..." fresh_world).
Proof.
  apply (optimize_unknown_line "Negative forms are shown as -fno-..."
           "Negative" ["forms"; "are"; "shown"; "as"; "-fno-..."]
           ∅ fresh_world); reflexivity.
Defined.

(** ** What the parsers file *)

Lemma split_on_nonempty (sep : ascii) (s : string) : Py.split_on sep s ≠ [].
Proof.
  destruct s as [|c s]; simpl; [done|].
  destruct (Ascii.eqb c sep); [done|].
  by destruct (Py.split_on sep s).
Qed.

Lemma sorted_values_Forall (P : Option → Prop) (d : gmap string Option) :
  map_Forall (λ _, P) d → Forall P (sorted_values d).
Proof.
  intros Hd. unfold sorted_values. apply Forall_fmap.
  rewrite merge_sort_Permutation. apply Forall_forall.
  intros [k o] Hin%elem_of_map_to_list. by apply (Hd k o).
Qed.

(** [int] of a run of digits is not negative. *)
Lemma int_digits_nonneg (s : string) (z : Z) :
  all_chars Py.isdigit s = true → Py.int s = Ok z → 0 ≤ z.
Proof.
  intros Hall. unfold Py.int.
  rewrite strip_word
    by (apply (all_chars_impl Py.isdigit); [by vm_compute | done]).
  assert (G : Py.int_of_digits s = Some z → 0 ≤ z).
  { unfold Py.int_of_digits. rewrite drop_underscores_digits by done. simpl.
    destruct (NilZero.uint_of_string s) as [u|]; [|done]. simpl.
    intros [= <-]. unfold Z.of_uint. lia. }
  destruct s as [|c s]; [by intros [= <-]|].
  apply all_chars_cons in Hall as [Hc _].
  destruct (Ascii.eqb_spec c "-") as [->|]; [done|].
  destruct (Ascii.eqb_spec c "+") as [->|]; [done|].
  assert (E : ∀ (A : Type) (a b d : A),
    match c with "-"%char => a | "+"%char => b | _ => d end = d).
  { intros. destruct c as [[] [] [] [] [] [] [] []]; done. }
  rewrite E. destruct (Py.int_of_digits (String c s)); [|done].
  intros [= <-]. by apply G.
Qed.

(** The groups of a match of the interval pattern of the flags: the two
    bounds are runs of digits. *)
Lemma flag_interval_groups (spec : string) (m : list string) :
  Py.fullmatch Optimize.flag_interval_pat spec = Some m →
  all_chars Py.isdigit (Py.group m 2) = true ∧
  all_chars Py.isdigit (Py.group m 3) = true.
Proof.
  unfold Py.fullmatch.
  destruct (Py.match_atoms _ spec) as [texts|] eqn:E; [|done].
  intros [= <-]. apply match_atoms_sound in E as [_ HF].
  repeat (let t := fresh "t" in let Ht := fresh "Ht" in
          inversion HF as [|? t ? ? Ht HF']; subst; clear HF; rename HF' into HF).
  inversion HF; subst. simpl in *.
  rewrite !append_nil_r. by destruct Ht2, Ht4.
Qed.

Lemma add_gcc_o_option (value : string) (opts : gmap string Option) :
  map_Forall (λ _, optimize_option) opts →
  sound (Optimize.add_gcc_o value opts) (map_Forall (λ _, optimize_option)).
Proof.
  intros Hd. unfold Optimize.add_gcc_o.
  apply sound_bind_lift. intros [] Has.
  destruct (default (GccOOption []) (opts !! "O")) as [vs| | | | | |] eqn:E;
    try done.
  apply sound_ret. rewrite insert_insert_eq.
  apply map_Forall_insert_2; [simpl; by destruct vs | done].
Qed.

Lemma optimize_parse_line_option (line : string) (opts : gmap string Option) :
  map_Forall (λ _, optimize_option) opts →
  sound (Optimize.parse_line line opts) (map_Forall (λ _, optimize_option)).
Proof.
  intros Hd. unfold Optimize.parse_line.
  repeat case_match; subst.
  - by apply sound_ret.
  - apply sound_for_each; [|done]. intros. by apply add_gcc_o_option.
  - by apply add_gcc_o_option.
  - unfold Optimize.add_gcc_flag_align. do 3 sound_step.
    by apply map_Forall_insert_2.
  - unfold Optimize.add_gcc_flag. sound_step. apply map_Forall_insert_2; [|done].
    destruct (opts !! _) as [o|] eqn:E; simpl; [by apply (Hd _ _ E) | done].
  - unfold Optimize.add_gcc_flag_enum. do 2 sound_step.
    apply map_Forall_insert_2; [apply split_on_nonempty | done].
  - match goal with
    | H : Py.fullmatch Optimize.flag_interval_pat _ = Some _ |- _ =>
        apply flag_interval_groups in H as [Hlo Hhi]
    end.
    apply sound_bind_lift. intros mn Hmn. apply sound_bind_lift. intros mx Hmx.
    unfold Optimize.add_gcc_flag_int. do 2 sound_step.
    apply map_Forall_insert_2; [|done].
    split; [apply (int_digits_nonneg _ _ Hlo Hmn)
           | apply (int_digits_nonneg _ _ Hhi Hmx)].
  - unfold Optimize.add_gcc_flag_int. do 2 sound_step.
    by apply map_Forall_insert_2.
  - by do 2 sound_step.
Qed.

(** X17: the optimize parser never touches the files of the cache, and
    what it returns are [-O] and [-f] options only, never a parameter: the
    [-O] option and every enumerated flag with at least one value, every
    boolean flag with its negated form, every integer flag with bounds that
    are not negative. *)
Theorem parse_optimize_options (g : Gcc) (w w' : world) (opts : list Option) :
  _gcc_parse_optimize g w = (Ok opts, w') →
  Forall optimize_option opts ∧ files w' = files w.
Proof.
  assert (Hs : sound (_gcc_parse_optimize g) (Forall optimize_option)).
  { unfold _gcc_parse_optimize. sound_step.
    eapply sound_bind.
    - apply sound_for_each with (P := map_Forall (λ _, optimize_option)).
      + intros. by apply optimize_parse_line_option.
      + apply map_Forall_empty.
    - intros d Hd. apply sound_ret. by apply sorted_values_Forall. }
  intros H. destruct (Hs w) as [Hf HQ]. rewrite H in Hf, HQ. simpl in *.
  split; [by apply HQ | done].
Qed.

Lemma parse_optimize_options_witness :
  let out := text ["options:"; "  -O<number>"; "  -ffoo=<1,0>"] in
  Forall optimize_option [GccOOption ["0"; "1"; "2"; "3"]; GccFlagIntOption "foo" 1 0] ∧
  files fresh_world = files fresh_world.
Proof.
  intros out.
  apply (parse_optimize_options (gcc_printing "gcc 11" out EmptyString)
           fresh_world fresh_world).
  by vm_compute.
Defined.

Lemma is_int_nonempty (s : string) :
  Params.is_int s = true → Py.is_empty s = false.
Proof. by destruct s. Qed.

Lemma add_gcc_param_int_option (name : string) (min max : Z)
    (params : gmap string Option) :
  min ≤ max → map_Forall (λ _, param_option) params →
  sound (Params.add_gcc_param_int name min max params)
    (map_Forall (λ _, param_option)).
Proof.
  intros Hb Hd. unfold Params.add_gcc_param_int. do 2 sound_step.
  by apply map_Forall_insert_2.
Qed.

Lemma unbounded_max_pos : 0 ≤ unbounded_max.
Proof. done. Qed.

Lemma params_parse_old_option (line : string) (params : gmap string Option) :
  map_Forall (λ _, param_option) params →
  sound (Params.parse_old line params) (map_Forall (λ _, param_option)).
Proof.
  intros Hd. unfold Params.parse_old. repeat case_match; subst.
  - do 3 sound_step.
    case_match eqn:E; [|by do 2 sound_step].
    apply andb_prop in E as [?%Z.leb_le ?%Z.leb_le].
    apply add_gcc_param_int_option; [lia | done].
  - by do 2 sound_step.
Qed.

Lemma params_parse_number_option (spec default line : string)
    (params : gmap string Option) :
  map_Forall (λ _, param_option) params →
  sound (Params.parse_number spec default line params)
    (map_Forall (λ _, param_option)).
Proof.
  intros Hd. unfold Params.parse_number. repeat case_match; subst;
    try by apply params_parse_old_option.
  sound_step. apply add_gcc_param_int_option; [|done].
  pose proof unbounded_max_pos. case_match eqn:E; [done|].
  apply Z.leb_gt in E. lia.
Qed.

Lemma params_parse_line_option (line : string) (params : gmap string Option) :
  map_Forall (λ _, param_option) params →
  sound (Params.parse_line line params) (map_Forall (λ _, param_option)).
Proof.
  intros Hd. unfold Params.parse_line.
  repeat case_match; subst;
    try (by apply sound_ret); try (by apply params_parse_number_option).
  - unfold Params.add_gcc_param_enum. do 3 sound_step.
    apply map_Forall_insert_2; [apply split_on_nonempty | done].
  - exfalso.
    match goal with
    | H : Py.is_empty ?s = true, H' : Params.is_int ?s = true |- _ =>
        destruct s; [by vm_compute in H' | done]
    end.
  - apply sound_bind_lift. intros mn Hmn. apply sound_bind_lift. intros mx Hmx.
    apply sound_bind_lift. intros [] Has.
    apply add_gcc_param_int_option; [|done].
    match type of Has with
    | context [Py.int ?s] => destruct (Py.int s) as [d|]; simpl in Has; [|done]
    end.
    destruct ((mn <=? d) && (d <=? mx)) eqn:E; [|done].
    apply andb_prop in E as [?%Z.leb_le ?%Z.leb_le]. lia.
  - do 2 sound_step. by apply params_parse_number_option.
Qed.

(** X18: the params parser never touches the files of the cache, and what
    it returns are [--param] options only, each with at least one setting:
    an enumeration with a value, an interval whose lower bound does not
    exceed the upper one. *)
Theorem parse_params_options (g : Gcc) (w w' : world) (opts : list Option) :
  _gcc_parse_params g w = (Ok opts, w') →
  Forall param_option opts ∧ files w' = files w.
Proof.
  assert (Hs : sound (_gcc_parse_params g) (Forall param_option)).
  { unfold _gcc_parse_params. sound_step.
    eapply sound_bind.
    - apply sound_for_each with (P := map_Forall (λ _, param_option)).
      + intros. by apply params_parse_line_option.
      + apply map_Forall_empty.
    - intros d Hd. apply sound_ret. by apply sorted_values_Forall. }
  intros H. destruct (Hs w) as [Hf HQ]. rewrite H in Hf, HQ. simpl in *.
  split; [by apply HQ | done].
Qed.

Lemma parse_params_options_witness :
  let out := text ["params:"; "  --param=max-peel=   -5"] in
  Forall param_option [GccParamIntOption "max-peel" (-5) unbounded_max] ∧
  files fresh_world = files fresh_world.
Proof.
  intros out.
  apply (parse_params_options (gcc_printing "gcc 11" EmptyString out)
           fresh_world fresh_world).
  by vm_compute.
Defined.

(** ** Enumerated and repeated parameters *)

Section param_enum.
Context (name : string) (Hname : param_name name).
Context (values : list string) (Hvalues : enum_values values).
Context (dflt : string) (Hdne : dflt ≠ EmptyString)
  (Hdflt : all_chars nonspace dflt = true).

Local Abbreviation spec := (param_enum_spec name values).
Local Abbreviation line := (spec +:+ " " +:+ dflt).

Lemma param_enum_words : Py.split line = [spec; dflt].
Proof.
  destruct Hname as [Hne Hall], Hvalues as [HF Hb].
  change line with (spec +:+ String " " dflt).
  rewrite split_word_space; [|done| |done].
  - by rewrite split_word.
  - unfold param_enum_spec.
    repeat first [ rewrite all_chars_app | rewrite (param_nonspace name Hall)
                 | rewrite (value_nonspace _ (bar_joined_value _ HF))
                 | progress simpl ].
    side.
Qed.

Lemma param_enum_match :
  Py.fullmatch Params.param_enum_pat spec = Some [name; bar_joined values].
Proof.
  destruct Hname as [Hne Hall], Hvalues as [HF Hb].
  pose proof (bar_joined_value _ HF) as Hv.
  open_pattern Params.param_enum_pat. unfold param_enum_spec.
  lit_ok. plus_ok. lit_ok. plus_ok. lit_ok.
  simpl. by rewrite !append_nil_r.
Qed.

Lemma parse_line_param_enum (params : gmap string Option) (w : world) :
  Params.parse_line line params w =
  if bool_decide (dflt ∈ values)
  then Params.add_gcc_param_enum name values params w
  else (Raise AssertionError, w).
Proof.
  unfold Params.parse_line.
  rewrite param_enum_words, param_enum_match.
  cbn [Py.group nth Nat.pred].
  rewrite split_on_bar_joined;
    [| by apply enum_values_nonempty | by destruct Hvalues].
  replace (Py.is_empty dflt) with false by by destruct dflt.
  simpl. unfold mbind, M_bind, lift. by case_bool_decide.
Qed.
End param_enum.

(** X19: a line [--param=<name>=[v1|...|vn] <default>] files the
    enumerated parameter when the default is one of the values and the name
    is new; a default that is not among the values fails the assertion of
    the parser. *)
Theorem param_enum_line_filed (name dflt : string) (values : list string)
    (params : gmap string Option) (w : world) :
  param_name name → enum_values values →
  dflt ≠ EmptyString → all_chars nonspace dflt = true →
  params !! name = None →
  Params.parse_line (param_enum_spec name values +:+ " " +:+ dflt) params w =
  if bool_decide (dflt ∈ values)
  then (Ok (<[name := GccParamEnumOption name values]> params), w)
  else (Raise AssertionError, w).
Proof.
  intros Hname Hvalues Hne Hd Hnew. rewrite parse_line_param_enum by done.
  case_bool_decide; [|done].
  unfold Params.add_gcc_param_enum. by rewrite check_absent_None.
Qed.

Lemma param_enum_line_filed_witness :
  Params.parse_line
    (param_enum_spec "ranger-debug" ["none"; "trace"; "all"] +:+ " " +:+ "verbose")
    ∅ fresh_world =
  if bool_decide ("verbose" ∈ ["none"; "trace"; "all"])
  then (Ok (<["ranger-debug" :=
              GccParamEnumOption "ranger-debug" ["none"; "trace"; "all"]]> ∅),
        fresh_world)
  else (Raise AssertionError, fresh_world).
Proof.
  apply (param_enum_line_filed "ranger-debug" "verbose" ["none"; "trace"; "all"]
           ∅ fresh_world).
  - split; [done | reflexivity].
  - split; [by_decide | done].
  - done.
  - reflexivity.
  - reflexivity.
Defined.

Lemma check_absent_present (name : string) (params : gmap string Option)
    (o : Option) :
  params !! name = Some o → 1 ≤ __len__ o →
  Params.check_absent name params =
  Raise (if __len__ o <=? Py.sys_maxsize then AssertionError else OverflowError).
Proof.
  intros H Hlen. unfold Params.check_absent, truth, len, Py.check_len.
  rewrite H. destruct (Z.ltb_spec (__len__ o) 0); [lia|].
  destruct (Z.ltb_spec Py.sys_maxsize (__len__ o)),
    (Z.leb_spec (__len__ o) Py.sys_maxsize); try lia; [done|].
  simpl. by destruct (Z.eqb_spec (__len__ o) 0); [lia|].
Qed.

(** X20: a parameter that the help text documents twice stops the params
    parser: on a line [--param=<name>= <default>] for a name that is filed
    already, with at least one setting as the parser files them, the
    assertion fails (or the length of the entry overflows) and nothing is
    filed or logged. *)
Theorem param_documented_twice (name : string) (d : Z) (o : Option)
    (params : gmap string Option) (w : world) :
  param_name name → params !! name = Some o → param_option o →
  Params.parse_line (with_default (param_number_spec name) d) params w =
  (Raise (if __len__ o <=? Py.sys_maxsize then AssertionError
          else OverflowError), w).
Proof.
  intros Hname Ho Hpo.
  assert (Hlen : 1 ≤ __len__ o).
  { destruct o as [| | | | |? vs|]; simpl in *; try done; [|lia].
    destruct vs; [done | simpl; lia]. }
  unfold Params.parse_line.
  rewrite param_number_words, param_number_not_enum,
    param_number_not_interval by done.
  unfold Params.parse_number.
  rewrite param_number_match, is_int_str, int_str by done.
  cbn [Py.group nth Nat.pred]. unfold Params.add_gcc_param_int.
  by rewrite (check_absent_present _ _ o).
Qed.

Lemma param_documented_twice_witness :
  let o := GccParamIntOption "max-peel" 0 unbounded_max in
  Params.parse_line (with_default (param_number_spec "max-peel") 7)
    {["max-peel" := o]} fresh_world =
  (Raise (if __len__ o <=? Py.sys_maxsize then AssertionError
          else OverflowError), fresh_world).
Proof.
  intros o.
  apply (param_documented_twice "max-peel" 7 o {["max-peel" := o]} fresh_world).
  - split; [done | reflexivity].
  - reflexivity.
  - by vm_compute.
Defined.

(** ** Code that only logs *)

Lemma appends_logs_ret {A} (a : A) : appends_logs (mret a : M A).
Proof.
  exists (Ok a), []. intros [l f]. unfold mret, M_ret. simpl.
  by rewrite app_nil_r.
Qed.

Lemma appends_logs_lift {A} (r : res A) : appends_logs (lift r).
Proof.
  exists r, []. intros [l f]. unfold lift. simpl. by rewrite app_nil_r.
Qed.

Lemma appends_logs_logging (l : level) (msg : string) :
  appends_logs (logging l msg).
Proof. by exists (Ok ()), [(l, msg)]. Qed.

Lemma appends_logs_bind {A B} (m : M A) (f : A → M B) :
  appends_logs m → (∀ a, appends_logs (f a)) → appends_logs (m ≫= f).
Proof.
  intros (r & msgs & Hm) Hf. unfold mbind, M_bind.
  destruct r as [a|e].
  - destruct (Hf a) as (r' & msgs' & Hfa). exists r', (msgs ++ msgs').
    intros w. rewrite Hm, Hfa. simpl. by rewrite app_assoc.
  - exists (Raise e), msgs. intros w. by rewrite Hm.
Qed.

Lemma appends_logs_for_each {A S} (body : A → S → M S) (xs : list A) (s : S) :
  (∀ x s, appends_logs (body x s)) → appends_logs (for_each body xs s).
Proof.
  intros Hbody. revert s. induction xs as [|x xs IH]; intros s; simpl.
  - apply appends_logs_ret.
  - apply appends_logs_bind; auto.
Qed.

Ltac logs_step :=
  first [ apply appends_logs_ret | apply appends_logs_lift
        | apply appends_logs_logging
        | apply appends_logs_for_each; intros
        | apply appends_logs_bind; [|intros] ].

Lemma optimize_parse_line_logs (line : string) (opts : gmap string Option) :
  appends_logs (Optimize.parse_line line opts).
Proof.
  unfold Optimize.parse_line, Optimize.add_gcc_o, Optimize.add_gcc_flag,
    Optimize.add_gcc_flag_enum, Optimize.add_gcc_flag_int,
    Optimize.add_gcc_flag_align.
  repeat case_match; repeat logs_step.
  unfold Optimize.add_gcc_o. repeat case_match; repeat logs_step.
Qed.

Lemma params_parse_line_logs (line : string) (params : gmap string Option) :
  appends_logs (Params.parse_line line params).
Proof.
  unfold Params.parse_line, Params.parse_number, Params.parse_old,
    Params.add_gcc_param_enum, Params.add_gcc_param_int.
  repeat case_match; repeat logs_step; repeat case_match; repeat logs_step.
Qed.

Lemma parse_optimize_logs (g : Gcc) : appends_logs (_gcc_parse_optimize g).
Proof.
  unfold _gcc_parse_optimize. repeat logs_step.
  apply optimize_parse_line_logs.
Qed.

Lemma parse_params_logs (g : Gcc) : appends_logs (_gcc_parse_params g).
Proof.
  unfold _gcc_parse_params. repeat logs_step.
  apply params_parse_line_logs.
Qed.

(** The outcome of the parsing branch does not depend on the world. *)
Lemma parse_spec_oblivious (g : Gcc) (ver path : string) (w1 w2 : world) :
  (parse_spec g ver path w1).1 = (parse_spec g ver path w2).1.
Proof.
  unfold parse_spec, mbind, M_bind.
  destruct (parse_optimize_logs g) as (r1 & msgs1 & H1).
  destruct (parse_params_logs g) as (r2 & msgs2 & H2).
  rewrite !H1. destruct r1 as [optim|e]; [|done].
  rewrite !H2. destruct r2 as [params|e]; [|done].
  simpl. by destruct (_fix_options (optim ++ params)).
Qed.

(** ** The cache *)

Lemma read_spec_hit (g : Gcc) (path : string) (spec0 : GccSpec) (w : world) :
  files w !! path = Some (Pickled spec0) →
  read_spec g path w = (Ok (Some (rebound g spec0)), w).
Proof. intros H. unfold read_spec, pickle_load. by rewrite H. Qed.

Lemma size_rebound (g : Gcc) (spec : GccSpec) :
  size (rebound g spec) = size spec.
Proof. done. Qed.

(** The cached spec is returned as it is, with [gcc] set anew. *)
Lemma get_spec_hit (g : Gcc) (cache_dir ver : string)
    (spec0 : GccSpec) (w : world) :
  version_try g = Ok ver →
  files w !! spec_path cache_dir ver = Some (Pickled spec0) →
  _get_spec g cache_dir w =
  match size spec0 with
  | Ok _ => (Ok (Some (rebound g spec0)), w)
  | Raise e => (Raise e, w)
  end.
Proof.
  intros Hver Hfile. rewrite (get_spec_unfold g cache_dir ver w Hver).
  cbv zeta. rewrite Hfile, bool_decide_true by by eexists.
  by rewrite (read_spec_hit _ _ spec0), size_rebound.
Qed.

(** X21: when the cache holds a pickled spec under the path of the version,
    discovery returns it with [gcc] set to the compiler at hand and does
    nothing else: the help text is not asked for, nothing is logged or
    written, and the version recorded in the file is not compared with the
    one of the compiler.  The size is still computed, and its exception is
    the outcome if it raises. *)
Theorem get_spec_cache_hit (g : Gcc) (cache_dir ver : string)
    (spec0 : GccSpec) (w : world) :
  version_try g = Ok ver →
  files w !! spec_path cache_dir ver = Some (Pickled spec0) →
  _get_spec g cache_dir w =
  match size spec0 with
  | Ok _ => (Ok (Some (rebound g spec0)), w)
  | Raise e => (Raise e, w)
  end.
Proof.
  intros Hver Hfile. rewrite (get_spec_unfold g cache_dir ver w Hver).
  cbv zeta. rewrite Hfile, bool_decide_true by by eexists.
  by rewrite (read_spec_hit _ _ spec0), size_rebound.
Qed.

Lemma get_spec_cache_hit_witness :
  let g := gcc_printing "gcc (GCC) 11.2.0" EmptyString EmptyString in
  let spec0 := spec_of (gcc_failing ServiceError) "gcc (GCC) 4.8.5"
                 [GccFlagOption "inline" false] in
  let w := {| logs := [];
              files := {[spec_path "/cache" "gcc (GCC) 11.2.0" := Pickled spec0]} |} in
  _get_spec g "/cache" w =
  match size spec0 with
  | Ok _ => (Ok (Some (rebound g spec0)), w)
  | Raise e => (Raise e, w)
  end.
Proof.
  intros g spec0 w.
  apply (get_spec_cache_hit g "/cache" "gcc (GCC) 11.2.0" spec0 w).
  - reflexivity.
  - by vm_compute.
Defined.

Lemma parse_spec_written (g : Gcc) (ver path : string) (w w' : world)
    (spec : GccSpec) :
  parse_spec g ver path w = (Ok (Some spec), w') →
  files w' = <[path := Pickled spec]> (files w) ∧ rebound g spec = spec.
Proof.
  intros H. pose proof (parse_spec_outcome g ver path w) as Hout.
  rewrite H in Hout.
  by destruct Hout as (optim & w1 & params & w2 & _ & _ & -> & _ & ->).
Qed.

Ltac parse_cases E :=
  match goal with
  | |- context [parse_spec ?g ?v ?p ?w] =>
      destruct (parse_spec g v p w) as [[[spec1|]|e1] w2] eqn:E
  end.

(** What discovery leaves under the path of the version when it returns a
    spec: that spec, pickled. *)
Lemma get_spec_leaves (g : Gcc) (cache_dir ver : string) (w w' : world)
    (spec : GccSpec) :
  version_try g = Ok ver →
  _get_spec g cache_dir w = (Ok (Some spec), w') →
  ∃ spec0 n, files w' !! spec_path cache_dir ver = Some (Pickled spec0) ∧
             rebound g spec0 = spec ∧ size spec0 = Ok n.
Proof.
  intros Hver. rewrite (get_spec_unfold g cache_dir ver w Hver). cbv zeta.
  set (path := spec_path cache_dir ver).
  assert (Hparse : ∀ w1 spec1 w2,
    parse_spec g ver path w1 = (Ok (Some spec1), w2) →
    files w2 !! path = Some (Pickled spec1) ∧ rebound g spec1 = spec1).
  { intros w1 spec1 w2 [Hf Hr]%parse_spec_written.
    by rewrite Hf, lookup_insert_eq. }
  destruct (files w !! path) as [[spec0|e]|] eqn:Hfile.
  - rewrite bool_decide_true by by eexists.
    rewrite (read_spec_hit _ _ spec0) by done. rewrite size_rebound.
    destruct (size spec0) eqn:Hs; [|done]. intros [= <- <-].
    by eexists spec0, _.
  - rewrite bool_decide_true by by eexists.
    unfold read_spec, pickle_load. rewrite Hfile.
    destruct e; try done;
      cbv [mbind M_bind logging mret M_ret]; cbv beta iota; parse_cases E;
      try done; destruct (size spec1) eqn:Hs; try done; intros [= <- <-];
      apply Hparse in E as [? ?]; by eexists spec1, _.
  - rewrite bool_decide_false by by intros [? ?].
    parse_cases E; try done. destruct (size spec1) eqn:Hs; [|done].
    intros [= <- <-]. apply Hparse in E as [? ?]. by eexists spec1, _.
Qed.

(** X22: once discovery has returned a spec, the cache answers: a second
    discovery in the world the first one left, for the same compiler or for
    any compiler whose version leads to the same cache file, returns the
    same version and options with [gcc] set to that compiler, and leaves
    the world as it is.  With the same compiler the spec is the same. *)
Theorem get_spec_cached_afterwards (g g' : Gcc) (cache_dir ver ver' : string)
    (w w' : world) (spec : GccSpec) :
  _get_spec g cache_dir w = (Ok (Some spec), w') →
  version_try g = Ok ver → version_try g' = Ok ver' →
  spec_path cache_dir ver' = spec_path cache_dir ver →
  _get_spec g' cache_dir w' = (Ok (Some (rebound g' spec)), w') ∧
  _get_spec g cache_dir w' = (Ok (Some spec), w').
Proof.
  intros Hget Hver Hver' Hpath.
  destruct (get_spec_leaves g cache_dir ver w w' spec Hver Hget)
    as (spec0 & n & Hfile & <- & Hn).
  split.
  - rewrite (get_spec_hit g' cache_dir ver' spec0)
      by (done || by rewrite Hpath).
    by rewrite Hn.
  - rewrite (get_spec_hit g cache_dir ver spec0) by done.
    by rewrite Hn.
Qed.

Lemma get_spec_cached_afterwards_witness :
  let ver := "gcc (GCC) 11.2.0" in
  let g := gcc_printing ver (text ["options:"; "  -O<number>"; "  -finline"])
             EmptyString in
  let spec := spec_of g ver [GccOOption ["0"; "1"; "2"; "3"];
                             GccFlagOption "inline" false] in
  let w' := {| logs := [];
               files := {[spec_path "/cache" ver := Pickled spec]} |} in
  _get_spec g "/cache" w' = (Ok (Some (rebound g spec)), w') ∧
  _get_spec g "/cache" w' = (Ok (Some spec), w').
Proof.
  intros ver g spec w'.
  apply (get_spec_cached_afterwards g g "/cache" ver ver fresh_world w' spec).
  - by vm_compute.
  - reflexivity.
  - reflexivity.
  - reflexivity.
Defined.

Lemma read_spec_damaged (g : Gcc) (path text : string) (e : exn) (w : world) :
  files w !! path = Some (Damaged e text) →
  e = Py.UnpicklingError ∨ e = Py.EOFError →
  read_spec g path w = (Ok None, logged WARNING (unable_to_read path text) w).
Proof.
  intros Hfile He. unfold read_spec, pickle_load, exception_text.
  rewrite Hfile. by destruct He as [-> | ->].
Qed.

(** X23: a pickle that fails to load with [UnpicklingError] or [EOFError]
    counts as no pickle: discovery has the outcome it has with the file
    removed, and logs first the warning that names the file and gives the
    text of the exception. *)
Theorem get_spec_damaged_cache (g : Gcc) (cache_dir ver : string) (e : exn)
    (text : string) (w : world) :
  version_try g = Ok ver →
  files w !! spec_path cache_dir ver = Some (Damaged e text) →
  e = Py.UnpicklingError ∨ e = Py.EOFError →
  let path := spec_path cache_dir ver in
  (_get_spec g cache_dir w).1 = (_get_spec g cache_dir (without_file path w)).1 ∧
  ∃ later,
    logs (_get_spec g cache_dir w).2 =
    logs w ++
    (WARNING, "Unable to read spec from '" +:+ path +:+ "': " +:+ text) :: later.
Proof.
  intros Hver Hfile He path.
  rewrite !(get_spec_unfold g cache_dir ver _ Hver). cbv zeta. fold path.
  rewrite bool_decide_true by by eexists.
  rewrite (bool_decide_false (is_Some (files (without_file path w) !! path)))
    by (simpl; rewrite lookup_delete_eq; by intros [? ?]).
  rewrite (read_spec_damaged g path text e w Hfile He).
  unfold unable_to_read.
  set (w1 := logged WARNING _ w).
  pose proof (parse_spec_oblivious g ver path w1 (without_file path w)) as Hobl.
  split.
  - destruct (parse_spec g ver path w1) as [[[s1|]|e1] w1'],
      (parse_spec g ver path (without_file path w)) as [[[s2|]|e2] w2'];
      simpl in Hobl; simplify_eq; try done.
    by destruct (size s2).
  - assert (Hlogs : ∃ later, logs (parse_spec g ver path w1).2 = logs w1 ++ later).
    { unfold parse_spec, mbind, M_bind.
      destruct (parse_optimize_logs g) as (r1 & msgs1 & H1).
      destruct (parse_params_logs g) as (r2 & msgs2 & H2).
      rewrite H1. destruct r1 as [optim|e1]; [|by eexists].
      rewrite H2. destruct r2 as [params|e2]; simpl;
        [|exists (msgs1 ++ msgs2); by rewrite app_assoc].
      destruct (_fix_options (optim ++ params)); simpl;
        exists (msgs1 ++ msgs2); by rewrite app_assoc. }
    destruct Hlogs as [later Hlater]. exists later.
    assert (logs (parse_spec g ver path w1).2 =
            logs w ++
            (WARNING, "Unable to read spec from '" +:+ path +:+ "': " +:+ text)
              :: later) as <-.
    { rewrite Hlater. unfold w1, logged. simpl. by rewrite <- app_assoc. }
    destruct (parse_spec g ver path w1) as [[[s1|]|e1] w1']; try done.
    by destruct (size s1).
Qed.

Lemma get_spec_damaged_cache_witness :
  let g := gcc_printing "gcc (GCC) 11.2.0"
             (text ["options:"; "  -finline"]) EmptyString in
  let path := spec_path "/cache" "gcc (GCC) 11.2.0" in
  let w := {| logs := [];
              files := {[path := Damaged Py.EOFError "Ran out of input"]} |} in
  (_get_spec g "/cache" w).1 = (_get_spec g "/cache" (without_file path w)).1 ∧
  ∃ later,
    logs (_get_spec g "/cache" w).2 =
    logs w ++
    (WARNING, "Unable to read spec from '" +:+ path +:+ "': " +:+ "Ran out of input")
      :: later.
Proof.
  intros g path w.
  apply (get_spec_damaged_cache g "/cache" "gcc (GCC) 11.2.0" Py.EOFError
           "Ran out of input" w).
  - reflexivity.
  - by vm_compute.
  - by right.
Defined.

(** X24: the cache file is written before the size is computed: when the
    size of the parsed spec raises, discovery raises with the spec already
    pickled, and every later discovery for the version reads that spec and
    raises the same exception without parsing again. *)
Theorem get_spec_size_failure (g : Gcc) (cache_dir ver : string)
    (w w1 : world) (spec : GccSpec) (e : exn) :
  version_try g = Ok ver →
  files w !! spec_path cache_dir ver = None →
  parse_spec g ver (spec_path cache_dir ver) w = (Ok (Some spec), w1) →
  size spec = Raise e →
  _get_spec g cache_dir w = (Raise e, w1) ∧
  files w1 !! spec_path cache_dir ver = Some (Pickled spec) ∧
  _get_spec g cache_dir w1 = (Raise e, w1).
Proof.
  intros Hver Hfile Hparse Hsize.
  apply parse_spec_written in Hparse as Hw. destruct Hw as [Hf _].
  assert (Hfile1 : files w1 !! spec_path cache_dir ver = Some (Pickled spec))
    by by rewrite Hf, lookup_insert_eq.
  split; [|split; [done|]].
  - rewrite (get_spec_unfold g cache_dir ver w Hver). cbv zeta.
    rewrite Hfile, bool_decide_false by by intros [? ?].
    by rewrite Hparse, Hsize.
  - rewrite (get_spec_hit g cache_dir ver spec) by done.
    by rewrite Hsize.
Qed.

Lemma get_spec_size_failure_witness :
  let g := gcc_printing "gcc (GCC) 11.2.0"
             (text ["options:"; "  -finline-limit=<600,0>"]) EmptyString in
  let path := spec_path "/cache" "gcc (GCC) 11.2.0" in
  let spec := spec_of g "gcc (GCC) 11.2.0" [GccFlagIntOption "inline-limit" 600 0] in
  let w1 := {| logs := []; files := {[path := Pickled spec]} |} in
  _get_spec g "/cache" fresh_world = (Raise ValueError, w1) ∧
  files w1 !! path = Some (Pickled spec) ∧
  _get_spec g "/cache" w1 = (Raise ValueError, w1).
Proof.
  intros g path spec w1.
  apply (get_spec_size_failure g "/cache" "gcc (GCC) 11.2.0" fresh_world w1
           spec ValueError).
  - reflexivity.
  - reflexivity.
  - by vm_compute.
  - reflexivity.
Defined.

(** X25: discovery never removes a file of the cache and never touches a
    file other than the one under the path of the version. *)
Theorem get_spec_other_files (g : Gcc) (cache_dir p : string) (w : world) :
  (∀ ver, version_try g = Ok ver → p ≠ spec_path cache_dir ver) →
  files (_get_spec g cache_dir w).2 !! p = files w !! p.
Proof.
  intros Hp. destruct (version_try g) as [ver|e] eqn:Hver.
  - specialize (Hp ver eq_refl).
    rewrite (get_spec_unfold g cache_dir ver w Hver). cbv zeta.
    set (path := spec_path cache_dir ver) in *.
    assert (Hparse : ∀ w1, files w1 = files w →
      files (parse_spec g ver path w1).2 !! p = files w !! p).
    { intros w1 Hw1. pose proof (parse_spec_outcome g ver path w1) as Hout.
      destruct (parse_spec g ver path w1) as [[[spec1|]|e] w2].
      - destruct Hout as (? & ? & ? & ? & _ & _ & _ & _ & ->). simpl.
        by rewrite lookup_insert_ne, Hw1.
      - destruct Hout as [_ Hout]. simpl. by rewrite Hout, Hw1.
      - simpl. by rewrite Hout, Hw1. }
    destruct (read_spec_outcome g path w) as [Hrf _].
    destruct (bool_decide (is_Some (files w !! path))).
    + destruct (read_spec g path w) as [[[spec1|]|e] w1]; simpl in Hrf.
      * destruct (size spec1); simpl; by rewrite Hrf.
      * rewrite <- (Hparse w1 Hrf). parse_cases E; try done.
        by destruct (size spec1).
      * simpl. by rewrite Hrf.
    + rewrite <- (Hparse w eq_refl). parse_cases E; try done.
      by destruct (size spec1).
  - rewrite (get_spec_version_failure g cache_dir w e Hver).
    by destruct (Py.is_SubprocessError e).
Qed.

Lemma get_spec_other_files_witness :
  let g := gcc_printing "gcc (GCC) 11.2.0"
             (text ["options:"; "  -finline"]) EmptyString in
  let w := {| logs := []; files := {["/cache/0/spec.pkl" := Damaged Py.EOFError "Ran out of input"]} |} in
  files (_get_spec g "/cache" w).2 !! "/cache/0/spec.pkl" =
  files w !! "/cache/0/spec.pkl".
Proof.
  intros g w. apply (get_spec_other_files g "/cache" "/cache/0/spec.pkl" w).
  intros ver [= <-]. by vm_compute.
Defined.

(** ** The spec that discovery parses *)

(** The value a parser returns does not depend on the world it runs in. *)
Lemma parse_optimize_oblivious (g : Gcc) (w1 w2 : world) :
  (_gcc_parse_optimize g w1).1 = (_gcc_parse_optimize g w2).1.
Proof. destruct (parse_optimize_logs g) as (r & msgs & H). by rewrite !H. Qed.

Lemma parse_params_oblivious (g : Gcc) (w1 w2 : world) :
  (_gcc_parse_params g w1).1 = (_gcc_parse_params g w2).1.
Proof. destruct (parse_params_logs g) as (r & msgs & H). by rewrite !H. Qed.

(** The parsing branch when both parsers return: no spec and no write for
    an empty list, the spec and its pickle otherwise. *)
Lemma parse_spec_result (g : Gcc) (ver path : string) (w wa wb : world)
    (optim params : list Option) :
  (_gcc_parse_optimize g wa).1 = Ok optim →
  (_gcc_parse_params g wb).1 = Ok params →
  let opts := _fix_options (optim ++ params) in
  let spec := {| gcc := g; version := ver; options := opts |} in
  let out := parse_spec g ver path w in
  (opts = [] → out.1 = Ok None ∧ files out.2 = files w) ∧
  (opts ≠ [] →
   out.1 = Ok (Some spec) ∧ files out.2 = <[path := Pickled spec]> (files w)).
Proof.
  intros Ho Hp opts spec out. unfold out, spec, opts, parse_spec, mbind, M_bind.
  destruct (parse_optimize_logs g) as (r1 & msgs1 & H1).
  destruct (parse_params_logs g) as (r2 & msgs2 & H2).
  rewrite H1 in Ho. rewrite H2 in Hp. simpl in Ho, Hp. subst r1 r2.
  rewrite H1, H2. simpl.
  destruct (_fix_options (optim ++ params)) as [|o l]; by split.
Qed.

(** Discovery when no pickled spec is read: the parsing branch, from a
    world with the files it found. *)
Lemma get_spec_not_cached (g : Gcc) (cache_dir ver : string) (w : world) :
  version_try g = Ok ver →
  not_cached (spec_path cache_dir ver) w →
  ∃ w0, files w0 = files w ∧
    _get_spec g cache_dir w =
    match parse_spec g ver (spec_path cache_dir ver) w0 with
    | (Ok (Some spec), w') =>
        match size spec with
        | Ok _ => (Ok (Some spec), w')
        | Raise e => (Raise e, w')
        end
    | out => out
    end.
Proof.
  intros Hver Hnc. rewrite (get_spec_unfold g cache_dir ver w Hver). cbv zeta.
  unfold not_cached in Hnc.
  destruct (files w !! spec_path cache_dir ver) as [[spec0|e text]|] eqn:Hfile;
    [done| |].
  - rewrite bool_decide_true by by eexists.
    rewrite (read_spec_damaged g _ text e w Hfile Hnc).
    exists (logged WARNING (unable_to_read (spec_path cache_dir ver) text) w).
    split; [done|].
    by destruct (parse_spec g ver _ _) as [[[spec1|]|e1] w'].
  - rewrite bool_decide_false by by intros [? ?]. exists w. split; [done|].
    by destruct (parse_spec g ver _ _) as [[[spec1|]|e1] w'].
Qed.

Lemma fix_options_fully_fixed (opts : list Option) :
  fully_fixed (_fix_options opts).
Proof.
  unfold fully_fixed, _fix_options. apply Forall_fmap, Forall_forall.
  intros o [Hk _]%list_elem_of_filter. by apply fix_option_fixed_up.
Qed.

(** An option is fixed up exactly when the fixups keep it and leave it as
    it is. *)
Lemma fixed_up_fixed_point (o : Option) :
  fixed_up o ↔ keep o = true ∧ fix_option o = o.
Proof.
  destruct o as [vs|name b|name vs|name mn mx|name|name vs|name mn mx];
    simpl; try tauto.
  - split.
    + intros (H1 & H2 & H3). split; [done|].
      apply String.eqb_neq in H1 as ->.
      apply String.eqb_neq in H2 as ->.
      case_bool_decide; [by rewrite H3|done].
    + intros [_ H].
      destruct (String.eqb_spec name "handle-exceptions") as [->|H1]; [done|].
      destruct (String.eqb_spec name "no-threadsafe-statics") as [->|H2];
        [by vm_compute in H|].
      split; [done|]. split; [done|]. intros Hin.
      rewrite bool_decide_true in H by done. by injection H.
  - split.
    + by intros ->%String.eqb_neq.
    + by intros [?%negb_true_iff%String.eqb_neq _].
  - split.
    + intros ->%String.eqb_neq. done.
    + intros [_ H]. by destruct (String.eqb_spec name "pack-struct").
  - split.
    + intros H. split; [done|]. case_bool_decide; [by rewrite H|done].
    + intros [_ H] Hin. rewrite bool_decide_true in H by done. by injection H.
Qed.

(** The claim C7 fails for a spec read from the cache, which is returned as
    it is: the pickle of a spec with no option, and that of a spec whose flag
    [-fhandle-exceptions] the fixups would rename, are both returned. *)
Lemma C7_cached_spec_returned_unchecked :
  let ver := "gcc (GCC) 11.2.0" in
  let g := gcc_printing ver (text ["options:"; "  -finline"]) EmptyString in
  let empty := {| gcc := g; version := ver; options := [] |} in
  let unfixed :=
    {| gcc := g; version := ver;
       options := [GccFlagOption "handle-exceptions" false] |} in
  let cache spec :=
    {| logs := []; files := {[spec_path "/cache" ver := Pickled spec]} |} in
  _get_spec g "/cache" (cache empty) = (Ok (Some empty), cache empty) ∧
  options empty = [] ∧
  _get_spec g "/cache" (cache unfixed) = (Ok (Some unfixed), cache unfixed) ∧
  ¬ fully_fixed (options unfixed) ∧
  _fix_options (options unfixed) = [GccFlagOption "exceptions" false].
Proof.
  repeat split; try by vm_compute.
  intros H. apply Forall_cons in H as [[H _] _]. by apply H.
Qed.

(** C7, as amended: when discovery reads no pickled spec for the version,
    the file being absent or failing to load with [UnpicklingError] or
    [EOFError], a spec it returns is non-empty, has every fixup applied and
    is the one it pickled under the path of the version; the files of the
    cache are then those it found, or those with one such spec written; if
    the fixed-up list of the two parses is empty it returns no spec and the
    files are those it found, and if not, the spec with that list is
    pickled.  A pickled spec that is read is returned as it is. *)
Theorem C7_parsed_spec_nonempty_fixed (g : Gcc) (cache_dir ver : string)
    (w : world) :
  version_try g = Ok ver →
  not_cached (spec_path cache_dir ver) w →
  let path := spec_path cache_dir ver in
  let out := _get_spec g cache_dir w in
  (∀ spec, out.1 = Ok (Some spec) →
     options spec ≠ [] ∧ fully_fixed (options spec) ∧
     files out.2 = <[path := Pickled spec]> (files w)) ∧
  (files out.2 = files w ∨
   ∃ spec, files out.2 = <[path := Pickled spec]> (files w) ∧
           options spec ≠ [] ∧ fully_fixed (options spec)) ∧
  (∀ optim params,
     (_gcc_parse_optimize g w).1 = Ok optim →
     (_gcc_parse_params g w).1 = Ok params →
     let opts := _fix_options (optim ++ params) in
     (opts = [] → out.1 = Ok None ∧ files out.2 = files w) ∧
     (opts ≠ [] →
      files out.2 =
      <[path := Pickled {| gcc := g; version := ver; options := opts |}]>
        (files w))).
Proof.
  intros Hver Hnc path out.
  destruct (get_spec_not_cached g cache_dir ver w Hver Hnc) as (w0 & Hw0 & Hget).
  fold path in Hget. unfold out. rewrite Hget. clear Hget out.
  pose proof (parse_spec_outcome g ver path w0) as Hout.
  split; [|split].
  - intros spec.
    destruct (parse_spec g ver path w0) as [[[spec1|]|e] w']; try done.
    destruct Hout as (optim & w1 & params & w2 & _ & _ & -> & Hne & ->).
    destruct (size _); [|done]. intros [= <-]. simpl.
    split; [done|]. split; [apply fix_options_fully_fixed | by rewrite Hw0].
  - destruct (parse_spec g ver path w0) as [[[spec1|]|e] w'].
    + destruct Hout as (optim & w1 & params & w2 & _ & _ & -> & Hne & ->).
      right. eexists. split; [|split; [exact Hne | apply fix_options_fully_fixed]].
      destruct (size _); simpl; by rewrite Hw0.
    + left. destruct Hout as [_ Hout]. simpl. by rewrite Hout.
    + left. simpl. by rewrite Hout.
  - intros optim params Ho Hp.
    destruct (parse_spec_result g ver path w0 w w optim params Ho Hp)
      as [Hempty Hsome].
    split.
    + intros He. destruct (Hempty He) as [H1 H2].
      destruct (parse_spec g ver path w0) as [[[spec1|]|e] w']; try done.
      simpl in *. by rewrite H2.
    + intros He. destruct (Hsome He) as [H1 H2].
      destruct (parse_spec g ver path w0) as [[[spec1|]|e] w']; try done.
      simpl in *. destruct (size spec1); simpl; by rewrite H2, Hw0.
Qed.

Lemma C7_parsed_spec_nonempty_fixed_witness :
  let ver := "gcc (GCC) 11.2.0" in
  let g :=
    gcc_printing ver
      (text ["options:"; "  -flive-patching=[inline-only-static|inline-clone]"])
      EmptyString in
  version_try g = Ok ver ∧
  not_cached (spec_path "/cache" ver) fresh_world ∧
  (_get_spec g "/cache" fresh_world).1 = Ok None ∧
  files (_get_spec g "/cache" fresh_world).2 = files fresh_world.
Proof.
  intros ver g.
  assert (Hv : version_try g = Ok ver) by reflexivity.
  assert (Hn : not_cached (spec_path "/cache" ver) fresh_world)
    by (vm_compute; exact I).
  split; [exact Hv|]. split; [exact Hn|].
  destruct (C7_parsed_spec_nonempty_fixed g "/cache" ver fresh_world Hv Hn)
    as (_ & _ & H).
  apply (H [GccFlagEnumOption "live-patching" ["inline-only-static"; "inline-clone"]]
           []); vm_compute; reflexivity.
Defined.

(** * The loop_tool session *)

Section loop_tool.
Import LoopTool.

Lemma set_order_eta (s : session) : set_order (order s) s = s.
Proof. by destruct s. Qed.

(** [apply_action] action by action, in a session in one of the two
    modes. *)
Lemma apply_action_toggle_mode (s : session) :
  mode s = "size" ∨ mode s = "select" →
  apply_action 0 s =
  (Returned, set_mode (if String.eqb (mode s) "size" then "select" else "size") s).
Proof. destruct s as [sz o t c m]. simpl. by intros [-> | ->]. Qed.

Lemma apply_action_up (s : session) :
  mode s = "size" ∨ mode s = "select" →
  apply_action 1 s =
  if String.eqb (mode s) "size" then resize 1 s else move_cursor 1 s.
Proof.
  destruct s as [sz o t c m]. simpl. intros [-> | ->]; unfold apply_action; simpl.
  - by destruct (resize 1 _) as [[] ?].
  - by destruct (move_cursor 1 _) as [[] ?].
Qed.

Lemma apply_action_down (s : session) :
  mode s = "size" ∨ mode s = "select" →
  apply_action 2 s =
  if String.eqb (mode s) "size" then resize (-1) s else move_cursor (-1) s.
Proof.
  destruct s as [sz o t c m]. simpl. intros [-> | ->]; unfold apply_action; simpl.
  - by destruct (resize (-1) _) as [[] ?].
  - by destruct (move_cursor (-1) _) as [[] ?].
Qed.

Lemma apply_action_toggle_thread (s : session) :
  mode s = "size" ∨ mode s = "select" →
  apply_action 3 s =
  match getitem (thread s) (cursor s) with
  | None => (Raised IndexError, s)
  | Some b =>
      match setitem (thread s) (cursor s) (negb b) with
      | None => (Raised IndexError, s)
      | Some t => (Returned, set_thread t s)
      end
  end.
Proof.
  destruct s as [sz o t c m]. simpl. intros [-> | ->]; unfold apply_action; simpl.
  - destruct (getitem t c) as [b|]; [|done]. simpl.
    by destruct (setitem t c (negb b)).
  - destruct (getitem t c) as [b|]; [|done]. simpl.
    by destruct (setitem t c (negb b)).
Qed.

Lemma apply_action_bad_mode (action : Z) (s : session) :
  0 ≤ action < 4 → ¬ (mode s = "size" ∨ mode s = "select") →
  apply_action action s = (Raised RuntimeError, s).
Proof.
  intros Ha Hm. unfold apply_action.
  assert (action = 0 ∨ action = 1 ∨ action = 2 ∨ action = 3)
    as [->|[->|[->| ->]]] by lia; simpl;
    rewrite bool_decide_false; try done;
    rewrite !elem_of_cons; intros [?|[?|?%elem_of_nil]]; tauto.
Qed.

Lemma resize_no_ValueError (inc : Z) (s : session) :
  (resize inc s).1 ≠ Raised ValueError.
Proof. unfold resize. repeat case_match; simpl; congruence. Qed.

Lemma move_cursor_no_ValueError (step : Z) (s : session) :
  (move_cursor step s).1 ≠ Raised ValueError.
Proof. unfold move_cursor. case_match; simpl; congruence. Qed.

Lemma apply_action_out_of_range (action : Z) (s : session) :
  action < 0 ∨ 4 < action → apply_action action s = (Raised ValueError, s).
Proof.
  intros Hout. unfold apply_action. change (Z.of_nat (length actions)) with 4.
  destruct (Z.ltb_spec action 0); [done|].
  destruct (Z.ltb_spec 4 action); [done | lia].
Qed.

Lemma apply_action_4 (s : session) : apply_action 4 s = (Raised IndexError, s).
Proof. done. Qed.

Lemma apply_action_in_range (action : Z) (s : session) :
  0 ≤ action ≤ 4 → (apply_action action s).1 ≠ Raised ValueError.
Proof.
  intros Hin.
  destruct (decide (mode s = "size" ∨ mode s = "select")) as [Hm|Hm].
  - assert (action = 0 ∨ action = 1 ∨ action = 2 ∨ action = 3 ∨ action = 4)
      as [->|[->|[->|[->| ->]]]] by lia.
    + rewrite apply_action_toggle_mode by done. simpl. congruence.
    + rewrite apply_action_up by done.
      case_match; [apply resize_no_ValueError | apply move_cursor_no_ValueError].
    + rewrite apply_action_down by done.
      case_match; [apply resize_no_ValueError | apply move_cursor_no_ValueError].
    + rewrite apply_action_toggle_thread by done.
      repeat case_match; simpl; congruence.
    + done.
  - destruct (decide (action = 4)) as [->|]; [done|].
    rewrite apply_action_bad_mode by (done || lia). done.
Qed.

(** X26: an action below 0 or above 4 raises [ValueError], and no other
    action does; the action 4 passes the range check, which admits the
    number of actions itself, and raises [IndexError] where the name of the
    action is looked up.  In both cases the session is left as it was. *)
Theorem apply_action_range (action : Z) (s : session) :
  ((apply_action action s).1 = Raised ValueError ↔ action < 0 ∨ 4 < action) ∧
  (action < 0 ∨ 4 < action → (apply_action action s).2 = s) ∧
  (action = 4 → apply_action action s = (Raised IndexError, s)).
Proof.
  split; [|split].
  - split.
    + intros H. destruct (decide (action < 0 ∨ 4 < action)); [done|].
      destruct (apply_action_in_range action s); [lia | done].
    + intros H. by rewrite apply_action_out_of_range.
  - intros H. by rewrite apply_action_out_of_range.
  - intros ->. apply apply_action_4.
Qed.

(** ** The shape of a session *)

Lemma initial_well_formed (n : Z) : well_formed (initial n).
Proof.
  split; [by exists (n, 0), (1, 0), 1|]. split; [done|]. split; [done|].
  by left.
Qed.

Lemma resize_well_formed (inc : Z) (s : session) :
  well_formed s →
  well_formed (resize inc s).2 ∧
  ((resize inc s).1 = Returned ∨ (resize inc s).1 = Raised AssertionError).
Proof.
  intros Hwf. pose proof Hwf as Hwf'.
  destruct Hwf' as (([a b] & [x y] & z & Ho & Hz) & Ht & Hc & Hm).
  destruct s as [sz o t c m]. simpl in *. subst o.
  assert (c = 0 ∨ c = 1 ∨ c = 2) as [->|[->| ->]] by lia.
  - split; [done | by left].
  - unfold resize, set_order, reduce_lam, lam. simpl.
    set (inc' := if (inc =? -1) && negb (y =? 0) then 0 else inc).
    destruct (Z.ltb_spec (x + inc') 1) as [|Hx]; [split; [done | by left]|].
    destruct (Z.eqb_spec ((x + inc') * (1 * z + 0)) 0) as [Hd|_]; [nia|].
    assert (Hwf1 : ∀ p, well_formed
      {| size := sz; order := [p; (x + inc', 0); (z, 0)]; thread := t;
         cursor := 1; mode := m |}).
    { intros p. split; [by eexists _, _, _|]. done. }
    case_match; simpl; split; auto.
  - unfold resize, set_order, reduce_lam, lam. simpl. rewrite andb_false_r.
    destruct (Z.ltb_spec (z + inc) 1) as [|Hx]; [split; [done | by left]|].
    destruct (Z.eqb_spec ((z + inc) * 1) 0) as [Hd|_]; [lia|].
    assert (Hwf1 : ∀ p, well_formed
      {| size := sz; order := [(a, b); p; (z + inc, 0)]; thread := t;
         cursor := 2; mode := m |}).
    { intros p. split; [by eexists _, _, _|]. done. }
    case_match; simpl; split; auto.
Qed.

Lemma move_cursor_well_formed (step : Z) (s : session) :
  well_formed s →
  move_cursor step s = (Returned, set_cursor ((cursor s + step) `mod` 3) s) ∧
  well_formed (set_cursor ((cursor s + step) `mod` 3) s).
Proof.
  intros ((l0 & l1 & z & Ho & Hz) & Ht & Hc & Hm).
  unfold move_cursor. rewrite Ho. simpl. split; [done|].
  split; [by exists l0, l1, z|]. split; [done|]. split; [|done].
  simpl. apply Z.mod_pos_bound. lia.
Qed.

Lemma toggle_thread_well_formed (s : session) :
  well_formed s →
  ∃ t, apply_action 3 s = (Returned, set_thread t s) ∧
       well_formed (set_thread t s).
Proof.
  intros Hwf. pose proof Hwf as ((l0 & l1 & z & Ho & Hz) & Ht & Hc & Hm).
  rewrite apply_action_toggle_thread by done.
  unfold getitem, setitem, position. rewrite Ht.
  destruct (Z.ltb_spec (cursor s) 0); [lia|].
  destruct (Z.ltb_spec (cursor s) 0); [lia|].
  destruct (Z.leb_spec (Z.of_nat 3) (cursor s)); [lia|]. simpl.
  destruct (lookup_lt_is_Some_2 (thread s) (Z.to_nat (cursor s))) as [b Hb];
    [lia|].
  rewrite Hb. eexists. split; [done|].
  split; [by exists l0, l1, z|]. split; [|done].
  simpl. by rewrite length_insert.
Qed.

Lemma apply_action_well_formed (action : Z) (s : session) :
  well_formed s →
  well_formed (apply_action action s).2 ∧
  ((apply_action action s).1 = Returned ∨
   (apply_action action s).1 = Raised AssertionError ∨
   (apply_action action s).1 = Raised ValueError ∨
   (apply_action action s).1 = Raised IndexError ∧ action = 4).
Proof.
  intros Hwf. pose proof Hwf as (_ & _ & _ & Hm).
  destruct (decide (action < 0 ∨ 4 < action)) as [Hout|Hin].
  { rewrite apply_action_out_of_range by done. split; [done|]. auto. }
  assert (action = 0 ∨ action = 1 ∨ action = 2 ∨ action = 3 ∨ action = 4)
    as [->|[->|[->|[->| ->]]]] by lia.
  - rewrite apply_action_toggle_mode by done. split; [|by left].
    destruct Hwf as (Ho & Ht & Hc & _). split; [done|]. split; [done|].
    split; [done|]. simpl. destruct Hm as [-> | ->]; auto.
  - rewrite apply_action_up by done. case_match.
    + destruct (resize_well_formed 1 s Hwf) as [? [?|?]]; auto.
    + destruct (move_cursor_well_formed 1 s Hwf) as [-> ?]. auto.
  - rewrite apply_action_down by done. case_match.
    + destruct (resize_well_formed (-1) s Hwf) as [? [?|?]]; auto.
    + destruct (move_cursor_well_formed (-1) s Hwf) as [-> ?]. auto.
  - destruct (toggle_thread_well_formed s Hwf) as (t & -> & ?). auto.
  - rewrite apply_action_4. split; [done|]. right. right. right. done.
Qed.

(** X27: whatever actions a session has been through since [__init__],
    with whatever outcomes, it has three loops and three thread marks, its
    cursor is on one of the loops, its mode is one of the two, and its
    innermost loop has no tail and a size of at least 1; and the next
    action raises neither [RuntimeError] nor [ZeroDivisionError], and
    [IndexError] only if it is the action 4. *)
Theorem session_invariant (n : Z) (acts : list Z) (action : Z) :
  let s := after acts (initial n) in
  well_formed s ∧
  (apply_action action s).1 ≠ Raised RuntimeError ∧
  (apply_action action s).1 ≠ Raised ZeroDivisionError ∧
  ((apply_action action s).1 = Raised IndexError → action = 4).
Proof.
  intros s.
  assert (Hwf : well_formed s).
  { subst s. generalize (initial_well_formed n). generalize (initial n).
    induction acts as [|a acts IH]; intros s0 Hs0; [done|].
    simpl. apply IH. by apply apply_action_well_formed. }
  split; [done|].
  destruct (apply_action_well_formed action s Hwf)
    as (_ & [H|[H|[H|[H ?]]]]); rewrite H; by repeat split.
Qed.

(** ** Resizing a loop *)

(** [resize] with the cursor on the middle loop of a nest without tails. *)
Lemma resize_middle (a x z inc : Z) (s : session) :
  order s = [(a, 0); (x, 0); (z, 0)] → cursor s = 1 → size s = a * x * z →
  1 ≤ z → 1 ≤ x + inc →
  let n := a * x * z in
  let d := (x + inc) * z in
  resize inc s =
  (if n `mod` d =? 0 then Returned else Raised AssertionError,
   set_order [(n `div` d, n `mod` d); (x + inc, 0); (z, 0)] s).
Proof.
  intros Ho Hc Hsz Hz Hx n d.
  destruct s as [sz o t c m]. simpl in *. subst o c sz.
  unfold resize, reduce_lam, lam. simpl. rewrite andb_false_r.
  destruct (Z.ltb_spec (x + inc) 1) as [|_]; [lia|].
  replace (a * x * (1 * z + 0) + 0) with n by (unfold n; lia).
  replace ((x + inc) * (1 * z + 0)) with d by (unfold d; lia).
  assert (Hd : 1 ≤ d) by (unfold d; nia).
  destruct (Z.eqb_spec d 0) as [|_]; [lia|].
  unfold set_order. simpl.
  pose proof (Z.div_mod n d) as Hdiv.
  pose proof (Z.mod_pos_bound n d) as Hmod.
  set (q := n `div` d) in *. set (r := n `mod` d) in *.
  replace (((1 * q + r) * (x + inc) + 0) * z + 0) with ((q + r) * d)
    by (unfold d; lia).
  fold n.
  destruct (Z.eqb_spec r 0) as [Hr|Hr].
  - destruct (Z.eqb_spec ((q + r) * d) n) as [|Hne]; [done|].
    exfalso. apply Hne. rewrite Hr. lia.
  - destruct (Z.eqb_spec ((q + r) * d) n) as [He|]; [|done].
    exfalso. assert (r * (d - 1) = 0) by lia. nia.
Qed.

(** X28: on a nest without tails whose sizes multiply to the size of the
    session, with the cursor on the middle loop, [resize] stores the
    quotient and the remainder of the division in the outer loop and the
    new size in the middle one; it returns when the division is exact and
    raises [AssertionError] when it leaves a remainder, the order being
    updated in both cases. *)
Theorem resize_remainder_asserts (a x z inc : Z) (s : session) :
  order s = [(a, 0); (x, 0); (z, 0)] → cursor s = 1 → size s = a * x * z →
  1 ≤ z → 1 ≤ x + inc →
  let n := a * x * z in
  let d := (x + inc) * z in
  resize inc s =
  (if n `mod` d =? 0 then Returned else Raised AssertionError,
   set_order [(n `div` d, n `mod` d); (x + inc, 0); (z, 0)] s).
Proof.
  intros Ho Hc Hsz Hz Hx n d.
  destruct s as [sz o t c m]. simpl in *. subst o c sz.
  unfold resize, reduce_lam, lam. simpl. rewrite andb_false_r.
  destruct (Z.ltb_spec (x + inc) 1) as [|_]; [lia|].
  replace (a * x * (1 * z + 0) + 0) with n by (unfold n; lia).
  replace ((x + inc) * (1 * z + 0)) with d by (unfold d; lia).
  assert (Hd : 1 ≤ d) by (unfold d; nia).
  destruct (Z.eqb_spec d 0) as [|_]; [lia|].
  unfold set_order. simpl.
  pose proof (Z.div_mod n d) as Hdiv.
  pose proof (Z.mod_pos_bound n d) as Hmod.
  set (q := n `div` d) in *. set (r := n `mod` d) in *.
  replace (((1 * q + r) * (x + inc) + 0) * z + 0) with ((q + r) * d)
    by (unfold d; lia).
  fold n.
  destruct (Z.eqb_spec r 0) as [Hr|Hr].
  - destruct (Z.eqb_spec ((q + r) * d) n) as [|Hne]; [done|].
    exfalso. apply Hne. rewrite Hr. lia.
  - destruct (Z.eqb_spec ((q + r) * d) n) as [He|]; [|done].
    exfalso. assert (r * (d - 1) = 0) by lia. nia.
Qed.

Lemma resize_remainder_asserts_witness :
  let s := {| size := 1024; order := [(512, 0); (2, 0); (1, 0)];
              thread := [true; false; false]; cursor := 1; mode := "size" |} in
  resize 1 s =
  (if (512 * 2 * 1) `mod` ((2 + 1) * 1) =? 0 then Returned
   else Raised AssertionError,
   set_order [((512 * 2 * 1) `div` ((2 + 1) * 1),
               (512 * 2 * 1) `mod` ((2 + 1) * 1)); (2 + 1, 0); (1, 0)] s).
Proof.
  intros s. apply (resize_remainder_asserts 512 2 1 1 s); [done..|lia|lia].
Defined.

(** X29: in size mode, on a nest without tails with the cursor on the
    middle loop, an [up] that the division allows is undone by the [down]
    that follows: both return and the session is back where it was. *)
Theorem size_up_down_round_trip (a x z : Z) (s : session) :
  order s = [(a, 0); (x, 0); (z, 0)] → cursor s = 1 → mode s = "size" →
  size s = a * x * z → 1 ≤ x → 1 ≤ z →
  ((x + 1) * z | a * x * z) →
  ∃ s1, apply_action 1 s = (Returned, s1) ∧
        order s1 = [((a * x * z) `div` ((x + 1) * z), 0); (x + 1, 0); (z, 0)] ∧
        apply_action 2 s1 = (Returned, s).
Proof.
  intros Ho Hc Hm Hsz Hx Hz Hdiv.
  set (n := a * x * z) in *. set (d := (x + 1) * z) in *.
  assert (Hd : 1 ≤ d) by (unfold d; nia).
  assert (Hr : n `mod` d = 0) by (apply Z.mod_divide; [lia | done]).
  pose proof (Z.div_mod n d) as Hq. rewrite Hr in Hq.
  set (q := n `div` d) in *.
  exists (set_order [(q, 0); (x + 1, 0); (z, 0)] s).
  split; [|split; [done|]].
  - rewrite apply_action_up, Hm by auto. simpl.
    rewrite (resize_middle a x z 1 s) by (done || lia).
    fold n d q. by rewrite Hr.
  - rewrite apply_action_down by (simpl; auto). simpl. rewrite Hm. simpl.
    rewrite (resize_middle q (x + 1) z (-1)); try done; try lia.
    + replace (x + 1 + -1) with x by lia.
      replace (q * (x + 1) * z) with n by (unfold d in Hq; lia).
      assert (Hxz : 1 ≤ x * z) by nia.
      replace (n `mod` (x * z)) with 0
        by (symmetry; apply Z.mod_divide; [lia|]; exists a; unfold n; lia).
      replace (n `div` (x * z)) with a
        by (apply Z.div_unique_exact; [lia | unfold n; lia]).
      simpl. destruct s as [sz o t c m]. simpl in *. by subst.
    + simpl. rewrite Hsz. fold n. unfold d in Hq. lia.
Qed.

Lemma size_up_down_round_trip_witness :
  let s := {| size := 1024; order := [(1024, 0); (1, 0); (1, 0)];
              thread := [true; false; false]; cursor := 1; mode := "size" |} in
  ∃ s1, apply_action 1 s = (Returned, s1) ∧
        order s1 = [((1024 * 1 * 1) `div` ((1 + 1) * 1), 0); (1 + 1, 0); (1, 0)] ∧
        apply_action 2 s1 = (Returned, s).
Proof.
  intros s. apply (size_up_down_round_trip 1024 1 1 s); try done.
  exists 512. lia.
Defined.

(** ** Moving the cursor *)

(** X30: in select mode [up] and [down] move the cursor by one loop,
    around the ends of the nest, and change nothing else; each undoes the
    other, and three moves in one direction come back to the start. *)
Theorem select_cursor_round_trip (s : session) :
  well_formed s → mode s = "select" →
  apply_action 1 s = (Returned, set_cursor ((cursor s + 1) `mod` 3) s) ∧
  apply_action 2 s = (Returned, set_cursor ((cursor s - 1) `mod` 3) s) ∧
  after [1; 2] s = s ∧ after [2; 1] s = s ∧
  after [1; 1; 1] s = s ∧ after [2; 2; 2] s = s.
Proof.
  intros ((l0 & l1 & z & Ho & Hz) & Ht & Hc & _) Hm.
  destruct s as [sz o t c m]. simpl in *. subst o m.
  assert (c = 0 ∨ c = 1 ∨ c = 2) as [->|[->| ->]] by lia;
    repeat split; reflexivity.
Qed.

Lemma select_cursor_round_trip_witness :
  let s := {| size := 8; order := [(8, 0); (1, 0); (1, 0)];
              thread := [true; false; false]; cursor := 0; mode := "select" |} in
  apply_action 1 s = (Returned, set_cursor ((cursor s + 1) `mod` 3) s) ∧
  apply_action 2 s = (Returned, set_cursor ((cursor s - 1) `mod` 3) s) ∧
  after [1; 2] s = s ∧ after [2; 1] s = s ∧
  after [1; 1; 1] s = s ∧ after [2; 2; 2] s = s.
Proof.
  intros s. apply (select_cursor_round_trip s); [|done].
  split; [by exists (8, 0), (1, 0), 1|]. split; [done|]. split; [done|].
  by right.
Defined.

End loop_tool.
